(** * QuizGenPro: text-processing core

    A shallow embedding of the document pipeline of QuizGenPro
    (lib/extractors: normalizer, header/footer filter, sentence splitter,
    semantic chunker) and of its similarity engine, answer grader and
    distractor selector (app/page.tsx, app/api/generate route), together
    with the properties stated for them in the specification.

    JavaScript strings are sequences of UTF-16 code units; they are
    modelled as lists of code units ([N]).  Character counts and character
    positions are integers ([Z]); sentence indices are naturals.
    Similarity scores and points are binary64 numbers: each is held as the
    real number it denotes, and every division, multiplication and square
    root of the source is followed by the rounding [round64]. *)

From Stdlib Require Import String Ascii.
From Stdlib Require Import List ZArith NArith Lia Bool Arith.
From Stdlib Require Import Reals Lra Sorted Permutation.
From Stdlib Require Decimal.
Import ListNotations.


(* ================================================================= *)
(** ** JavaScript string primitives *)

Module Js.

(** A string is a list of UTF-16 code units. *)
Abbreviation str := (list N).

(** ASCII literals. *)
Definition of_string (s : string) : str :=
  map N_of_ascii (list_ascii_of_string s).

Definition str_eq_dec : forall a b : str, {a = b} + {a <> b} :=
  list_eq_dec N.eq_dec.

Definition str_eqb (a b : str) : bool :=
  if str_eq_dec a b then true else false.

(** The regular-expression class [\s], which is also the set of code
    units removed by [String.prototype.trim]: WhiteSpace and
    LineTerminator of ECMA-262. *)
Definition is_ws (c : N) : bool :=
  ((9 <=? c) && (c <=? 13)              (* \t \n \v \f \r *)
   || (c =? 32)                         (* space *)
   || (c =? 160)                        (* no-break space *)
   || (c =? 5760)                       (* U+1680 *)
   || ((8192 <=? c) && (c <=? 8202))    (* U+2000 .. U+200A *)
   || (c =? 8232) || (c =? 8233)        (* U+2028, U+2029 *)
   || (c =? 8239) || (c =? 8287)        (* U+202F, U+205F *)
   || (c =? 12288) || (c =? 65279))%N.  (* U+3000, U+FEFF *)

Definition LF : N := 10.
Definition CR : N := 13.
Definition SP : N := 32.
Definition HYPHEN : N := 45.

Fixpoint trimStart (s : str) : str :=
  match s with
  | c :: r => if is_ws c then trimStart r else s
  | [] => []
  end.

Fixpoint trimEnd (s : str) : str :=
  match s with
  | [] => []
  | c :: r =>
      match trimEnd r with
      | [] => if is_ws c then [] else [c]
      | r' => c :: r'
      end
  end.

Definition trim (s : str) : str := trimEnd (trimStart s).

(** [t.replace(/\s+/g, ' ')].  [inws] is true inside a whitespace run
    whose replacement has been emitted. *)
Fixpoint collapse_ws (inws : bool) (t : str) : str :=
  match t with
  | [] => []
  | c :: r =>
      if is_ws c then
        if inws then collapse_ws true r else SP :: collapse_ws true r
      else c :: collapse_ws false r
  end.

(** [s.split(sep)] for a separator of one code unit.  The result always
    has at least one element; [cur] is the piece being read. *)
Fixpoint split_acc (sep : N) (cur : str) (s : str) : list str :=
  match s with
  | [] => [rev cur]
  | c :: r => if (c =? sep)%N then rev cur :: split_acc sep [] r
              else split_acc sep (c :: cur) r
  end.

Definition split (sep : N) (s : str) : list str := split_acc sep [] s.

(** [parts.join(sep)]. *)
Fixpoint join (sep : str) (parts : list str) : str :=
  match parts with
  | [] => []
  | [p] => p
  | p :: ps => p ++ sep ++ join sep ps
  end.

(** [.filter(Boolean)] on an array of strings: drop the empty ones. *)
Definition nonempty (s : str) : bool :=
  match s with [] => false | _ => true end.

(** [String(n)] for an integer. *)
Fixpoint digits (u : Decimal.uint) : str :=
  match u with
  | Decimal.Nil => []
  | Decimal.D0 r => 48%N :: digits r
  | Decimal.D1 r => 49%N :: digits r
  | Decimal.D2 r => 50%N :: digits r
  | Decimal.D3 r => 51%N :: digits r
  | Decimal.D4 r => 52%N :: digits r
  | Decimal.D5 r => 53%N :: digits r
  | Decimal.D6 r => 54%N :: digits r
  | Decimal.D7 r => 55%N :: digits r
  | Decimal.D8 r => 56%N :: digits r
  | Decimal.D9 r => 57%N :: digits r
  end.

Definition num_to_str (z : Z) : str :=
  match Z.to_int z with
  | Decimal.Pos u => digits u
  | Decimal.Neg u => HYPHEN :: digits u
  end.

(** [s.length]. *)
Definition len (s : str) : Z := Z.of_nat (length s).

(** [s.toLowerCase()] as far as [normalizeText] can see it.  The result
    is passed at once to [.replace(/[^a-z0-9\s]/g, ' ')], which keeps
    Basic Latin letters, digits and whitespace only; so what matters of
    the case mapping is which code units yield such a unit.  These are
    the Basic Latin capitals, U+212A KELVIN SIGN (lowercase [k]) and
    U+0130 (lowercase [i] followed by U+0307); the Latin-1 capitals are
    mapped as well.  Every other code unit, cased or not, has a lowercase
    outside [[a-z0-9\s]] and is written here as itself.  Code that
    compares lowercased strings of any script takes the full case mapping
    as a parameter instead (see [Distractors]). *)
Definition lower_unit (c : N) : str :=
  (if (65 <=? c) && (c <=? 90) then [c + 32]
   else if (192 <=? c) && (c <=? 222) && negb (c =? 215) then [c + 32]
   else if c =? 8490 then [107]
   else if c =? 304 then [105; 775]
   else [c])%N.

Definition toLowerCase (s : str) : str := flat_map lower_unit s.

(** JavaScript numbers are IEEE 754 binary64 values.  [round64 x] is the
    binary64 value nearest to the real number [x], ties going to the even
    mantissa: [x] is scaled by the unit in the last place of its binade
    (53 bits of precision, least exponent -1022, subnormal numbers below
    it) and rounded to the nearest integer.  Every arithmetic operation
    of the scoring code returns the rounding of its exact result.
    Results beyond the largest binary64 value (about 1.8e308) would be
    infinite; no score or count comes near it, and infinities are left
    out. *)
Definition mag (x : R) : Z := Int_part (ln (Rabs x) / ln 2).  (* floor(log2 |x|) *)

(** The spacing of the binary64 values around [x]. *)
Definition ulp (x : R) : R := powerRZ 2 (Z.max (mag x) (-1022) - 52).

(** The integer nearest to [m]; of two equally near ones, the even one. *)
Definition nearest_even (m : R) : Z :=
  let f := Int_part m in
  if Rlt_dec (m - IZR f) (/ 2) then f
  else if Rlt_dec (/ 2) (m - IZR f) then (f + 1)%Z
  else if Z.even f then f else (f + 1)%Z.

Definition round64 (x : R) : R := IZR (nearest_even (x / ulp x)) * ulp x.

(** The numbers that arise as similarity scores and points: a binary64
    value, held as the real number it denotes, or [NaN]. *)
Inductive num := NaN | Fin (x : R).

(** A decimal literal of the source, such as [0.6]. *)
Definition literal (x : R) : num := Fin (round64 x).

(** [Math.max(a, b)] *)
Definition Math_max (a b : num) : num :=
  match a, b with
  | Fin x, Fin y => Fin (Rmax x y)
  | _, _ => NaN
  end.

(** [a >= b] *)
Definition num_geb (a b : num) : bool :=
  match a, b with
  | Fin x, Fin y => if Rle_dec y x then true else false
  | _, _ => false
  end.

(** [a * b] *)
Definition num_mul (a b : num) : num :=
  match a, b with
  | Fin x, Fin y => Fin (round64 (x * y))
  | _, _ => NaN
  end.

(** [a || 0] on a number: [NaN] and zero are falsy. *)
Definition or_zero (a : num) : num :=
  match a with
  | NaN => Fin 0
  | Fin x => Fin x
  end.

(** [Math.round(x)]: the integer nearest to [x], halves rounded up; the
    result is exact. *)
Definition Math_round (a : num) : num :=
  match a with
  | NaN => NaN
  | Fin x => Fin (IZR (Int_part (x + / 2)))
  end.

(** [new Set(l)] read back as an array: the first occurrence of every
    element, in insertion order. *)
Fixpoint set_from (seen : list str) (l : list str) : list str :=
  match l with
  | [] => []
  | x :: r =>
      if existsb (str_eqb x) seen then set_from seen r
      else x :: set_from (x :: seen) r
  end.

Definition Set_of (l : list str) : list str := set_from [] l.

(** [S.has(x)] *)
Definition has (S : list str) (x : str) : bool := existsb (str_eqb x) S.

End Js.

Import Js.

(* ================================================================= *)
(** ** lib/extractors: normalizer *)

Module Extractors.

(** [t.replace(/\r\n/g, '\n')] *)
Fixpoint replace_crlf (t : str) : str :=
  match t with
  | [] => []
  | c :: r =>
      match r with
      | d :: r' =>
          if ((c =? CR) && (d =? LF))%N then LF :: replace_crlf r'
          else c :: replace_crlf r
      | [] => [c]
      end
  end.

(** [t.replace(/\r/g, '\n')] *)
Definition replace_cr (t : str) : str :=
  map (fun c => if (c =? CR)%N then LF else c) t.

(** [t.replace(/-\n\s*/g, '')].  [skip] is true while the scan is inside
    the [\s*] tail of a match. *)
Fixpoint remove_hyphenation (skip : bool) (t : str) : str :=
  match t with
  | [] => []
  | c :: r =>
      if skip && is_ws c then remove_hyphenation true r
      else
        match r with
        | d :: r' =>
            if ((c =? HYPHEN) && (d =? LF))%N
            then remove_hyphenation true r'
            else c :: remove_hyphenation false r
        | [] => [c]
        end
  end.

(** [t.replace(/\n{2,}/g, '\n\n')].  [run] counts the line feeds of the
    current run already copied (at most two are copied). *)
Fixpoint squeeze_newlines (run : nat) (t : str) : str :=
  match t with
  | [] => []
  | c :: r =>
      if (c =? LF)%N then
        if (run <? 2)%nat then LF :: squeeze_newlines (S run) r
        else squeeze_newlines run r
      else c :: squeeze_newlines 0 r
  end.

(** [t.replace(/\n/g, ' ')] *)
Definition newlines_to_spaces (t : str) : str :=
  map (fun c => if (c =? LF)%N then SP else c) t.

Definition normalizeTextForExtraction (text : str) : str :=
  match text with
  | [] => []                                        (* if (!text) return '' *)
  | _ =>
      let t := text in
      let t := replace_cr (replace_crlf t) in
      let t := remove_hyphenation false t in
      let t := newlines_to_spaces (squeeze_newlines 0 t) in
      trim (collapse_ws false t)
  end.

(* --------------------------------------------------------------- *)
(** *** Header/footer filter *)

(** [p.split('\n').map(l => l.trim())] *)
Definition trimmed_lines (p : str) : list str := map trim (split LF p).

(** [(p || '').split('\n').map(l => l.trim()).filter(Boolean)[0] || ''] *)
Definition first_line (p : str) : str :=
  hd [] (filter nonempty (trimmed_lines p)).

(** [... .filter(Boolean).slice(-1)[0] || ''] *)
Definition last_line (p : str) : str :=
  last (filter nonempty (trimmed_lines p)) [].

(** [freq] is a plain object literal, so a key that names a property of
    [Object.prototype] reads that property on its first lookup: the
    stored value is then a string, never a count above one. *)
Definition object_prototype_keys : list str :=
  map of_string
    ["constructor"; "hasOwnProperty"; "isPrototypeOf";
     "propertyIsEnumerable"; "toLocaleString"; "toString"; "valueOf";
     "__proto__"; "__defineGetter__"; "__defineSetter__";
     "__lookupGetter__"; "__lookupSetter__"]%string.

Definition inherited_key (l : str) : bool :=
  existsb (str_eqb l) object_prototype_keys.

(** The lines counted into [freq]: [[...firstLines, ...lastLines]] with
    the empty ones skipped ([if (l)]). *)
Definition boundary_lines (pages : list str) : list str :=
  filter nonempty (map first_line pages ++ map last_line pages).

(** [repeats.has(l)]: the count of [l] in [freq] is above one. *)
Definition repeats (pages : list str) (l : str) : bool :=
  (1 <? count_occ str_eq_dec (boundary_lines pages) l)%nat
  && negb (inherited_key l).

Definition filter_page (rep : str -> bool) (p : str) : str :=
  match p with
  | [] => p                                          (* if (!p) return p *)
  | _ => join [LF] (filter (fun l => negb (rep l)) (trimmed_lines p))
  end.

Definition removeHeadersFootersFromPages (pages : list str) : list str :=
  if (length pages <=? 1)%nat then pages
  else map (filter_page (repeats pages)) pages.

(* --------------------------------------------------------------- *)
(** *** Sentence splitter *)

(** The class [[.!?]]. *)
Definition is_term (c : N) : bool :=
  ((c =? 46) || (c =? 33) || (c =? 63))%N.

Inductive phase := InBody | InMarks.

(** [text.match(/[^.!?]+[.!?]+(?:\s|$)|[^.!?]+$/g)], read as a scanner.
    [acc] holds, reversed, the code units of the match being attempted.

    In [InBody] the scanner is inside [[^.!?]+]; a terminal mark with an
    empty body cannot start a match and is skipped.  In [InMarks] it is
    inside [[.!?]+]: both quantifiers are greedy and the classes are
    complementary, so the only candidate match ends after the whole run
    of marks, where it needs a whitespace unit (taken into the match) or
    the end of the text.  Otherwise no match starts anywhere in the body
    or the marks just read, and the search resumes at the current unit.
    At the end of the text a non-empty body is the second alternative. *)
Fixpoint scan_sentences (ph : phase) (acc : str) (t : str) : list str :=
  match t with
  | [] =>
      match ph, acc with
      | InBody, [] => []
      | _, _ => [rev acc]
      end
  | c :: r =>
      match ph with
      | InBody =>
          if is_term c then
            match acc with
            | [] => scan_sentences InBody [] r
            | _ => scan_sentences InMarks (c :: acc) r
            end
          else scan_sentences InBody (c :: acc) r
      | InMarks =>
          if is_term c then scan_sentences InMarks (c :: acc) r
          else if is_ws c then rev (c :: acc) :: scan_sentences InBody [] r
          else scan_sentences InBody [c] r
      end
  end.

Definition splitIntoSentences (text : str) : list str :=
  match text with
  | [] => []                                         (* if (!text) return [] *)
  | _ => filter nonempty (map trim (scan_sentences InBody [] text))
  end.

(* --------------------------------------------------------------- *)
(** *** Semantic chunker *)

Record Chunk := mkChunk {
  id : str;
  text : str;
  startSentence : nat;
  endSentence : nat;
  startChar : Z;
  endChar : Z
}.

Section Chunker.

Variable sentences : list str.
Variables chunkChars overlapChars : Z.

(** The inner loop
    [while (idx < sentences.length && (len < chunkChars || parts.length === 0))].
    Every iteration increments [idx], so [sentences.length - idx]
    iterations are enough; the loop is given that many. *)
Fixpoint fill (fuel : nat) (idx : nat) (len : Z) (parts : list str)
  : nat * Z * list str :=
  match fuel with
  | O => (idx, len, parts)
  | S fuel' =>
      if (idx <? length sentences)%nat
         && ((len <? chunkChars)%Z || (length parts =? 0)%nat)
      then
        let s := nth idx sentences [] in
        fill fuel' (S idx) (len + Js.len s + 1)%Z (parts ++ [s])
      else (idx, len, parts)
  end.

(** The overlap loop [while (j > startIdx && back < overlapChars)]. *)
Fixpoint backtrack (startIdx : nat) (j : nat) (back : Z) : nat :=
  if (startIdx <? j)%nat && (back <? overlapChars)%Z then
    match j with
    | S j' => backtrack startIdx j' (back + Js.len (nth j sentences []) + 1)%Z
    | O => j
    end
  else j.

(** One iteration of the outer loop: the chunk pushed, and the new
    values of [idx] and [charPos]. *)
Definition chunk_step (idx : nat) (charPos : Z) : Chunk * nat * Z :=
  let startIdx := idx in
  let startChar := charPos in
  let '(idx, _, parts) := fill (length sentences - idx) idx 0%Z [] in
  let chunkText := join [SP] parts in
  let endChar := (startChar + Js.len chunkText)%Z in
  let c := mkChunk (num_to_str startChar ++ [HYPHEN] ++ num_to_str endChar)
                   chunkText startIdx (idx - 1) startChar endChar in
  if (idx <? length sentences)%nat then
    let j := backtrack startIdx (idx - 1) 0%Z in
    let newIdx := Nat.max startIdx (j + 1) in
    (c, newIdx, (startChar + Z.max 0 (Js.len chunkText - overlapChars))%Z)
  else
    (c, length sentences, endChar).

(** The outer loop [while (idx < sentences.length)]; [None] when the
    iteration bound [fuel] is used up before the loop exits. *)
Fixpoint chunk_loop (fuel : nat) (idx : nat) (charPos : Z)
                    (chunks : list Chunk) : option (list Chunk) :=
  if (idx <? length sentences)%nat then
    match fuel with
    | O => None
    | S fuel' =>
        let '(c, idx', charPos') := chunk_step idx charPos in
        chunk_loop fuel' idx' charPos' (chunks ++ [c])
    end
  else Some chunks.

End Chunker.

Definition chunkIntoSemanticChunks_fuel (fuel : nat) (text : str)
                                        (chunkChars overlapChars : Z)
  : option (list Chunk) :=
  let normalized := normalizeTextForExtraction text in
  match normalized with
  | [] => Some []                              (* if (!normalized) return [] *)
  | _ =>
      let sentences := splitIntoSentences normalized in
      chunk_loop sentences chunkChars overlapChars fuel 0 0%Z []
  end.

(** The chunker, run for as many outer iterations as there are
    sentences. *)
Definition chunkIntoSemanticChunks (text : str) (chunkChars overlapChars : Z)
  : option (list Chunk) :=
  chunkIntoSemanticChunks_fuel
    (length (splitIntoSentences (normalizeTextForExtraction text)))
    text chunkChars overlapChars.

Definition default_chunkChars : Z := 3000.
Definition default_overlapChars : Z := 500.

End Extractors.

Import Extractors.

(* ================================================================= *)
(** ** app/page.tsx: similarity engine and answer grader

    The generate route (app/api/.../route.ts) carries its own copies of
    [normalizeText], [tokens], [jaccard], [cosineSim] and
    [semanticSimilarity], identical to the ones below. *)

Module Similarity.

(** The class [[a-z0-9\s]]. *)
Definition keeps (c : N) : bool :=
  ((97 <=? c) && (c <=? 122) || (48 <=? c) && (c <=? 57))%N || is_ws c.

(** [.replace(/[^a-z0-9\s]/g, ' ')] *)
Definition strip (s : str) : str :=
  map (fun c => if keeps c then c else SP) s.

Definition normalizeText (s : str) : str :=
  trim (collapse_ws false (strip (toLowerCase s))).

(** [normalizeText(s).split(' ').filter(Boolean)] *)
Definition words (s : str) : list str :=
  filter nonempty (split SP (normalizeText s)).

Definition stop : list str :=
  map of_string
    ["the"; "is"; "in"; "and"; "of"; "a"; "to"; "for"; "with"; "on"; "by";
     "an"; "be"; "that"; "this"; "it"; "as"; "are"]%string.

Definition tokens (s : str) : list str :=
  filter (fun t => negb (has stop t)) (words s).

(** [inter] and [uni] of [jaccard]. *)
Definition inter_size (a b : list str) : nat :=
  length (filter (has (Set_of b)) (Set_of a)).

Definition union_size (a b : list str) : nat :=
  length (Set_of (Set_of a ++ Set_of b)).

Definition jaccard (a b : list str) : num :=
  if (union_size a b =? 0)%nat then Fin 0
  else Fin (round64 (INR (inter_size a b) / INR (union_size a b))).

(** The only token that names a property of [Object.prototype]: the
    frequency tables [fa] and [fb] are plain objects, so for this word
    [fa[w] || 0] is not a number and the sums become [NaN]. *)
Definition constructor_word : str := of_string "constructor".

(** [fa[w] || 0] for a word that is not [constructor_word]. *)
Definition freq (a : list str) (w : str) : nat := count_occ str_eq_dec a w.

(** [all]: the keys of [fa] followed by the keys of [fb]. *)
Definition vocabulary (a b : list str) : list str :=
  Set_of (Set_of a ++ Set_of b).

(** [dot], [na] and [nb]: sums of products of word counts, which are
    integers far below 2^53 and therefore exact in binary64. *)
Definition dot (a b : list str) : nat :=
  fold_left (fun acc w => acc + freq a w * freq b w) (vocabulary a b) 0.

Definition norm2 (a : list str) (voc : list str) : nat :=
  fold_left (fun acc w => acc + freq a w * freq a w) voc 0.

Definition cosineSim (a b : list str) : num :=
  if has (vocabulary a b) constructor_word then NaN
  else
    let na := norm2 a (vocabulary a b) in
    let nb := norm2 b (vocabulary a b) in
    if (na =? 0)%nat || (nb =? 0)%nat then Fin 0
    else
      (* Math.sqrt is the correctly rounded square root *)
      let sa := round64 (sqrt (INR na)) in
      let sb := round64 (sqrt (INR nb)) in
      Fin (round64 (INR (dot a b) / round64 (sa * sb))).

Definition semanticSimilarity (a b : str) : num :=
  let ta := tokens a in
  let tb := tokens b in
  if (length ta =? 0)%nat || (length tb =? 0)%nat then Fin 0
  else Math_max (jaccard ta tb) (cosineSim ta tb).

(** The local helper [bigrams] of [semanticMatchScore]: the loop
    [for (i = 0; i < parts.length - 1; i++)]. *)
Definition bigrams (s : str) : list str :=
  let parts := words s in
  map (fun i => nth i parts [] ++ [SP] ++ nth (i + 1) parts [])
      (seq 0 (length parts - 1)).

Definition bigramJaccard (a b : list str) : num := jaccard a b.

(** [Math.max(...combined)] for a non-empty array. *)
Definition Math_max_list (l : list num) : num :=
  match l with
  | [] => Fin 0
  | x :: r => fold_left Math_max r x
  end.

Definition semanticMatchScore (response : str) (expectedArr : list str) : num :=
  if negb (nonempty response) || negb (nonempty (trim response)) then Fin 0
  else if (length expectedArr =? 0)%nat then Fin 0
  else
    let tokenScores := map (semanticSimilarity response) expectedArr in
    let bigramScores :=
      map (fun e => bigramJaccard (bigrams response) (bigrams e)) expectedArr in
    let combined :=
      map (fun '(t, b) => Math_max (or_zero t) (or_zero b))
          (combine tokenScores bigramScores) in
    Math_max_list combined.

(** The written-answer branch of [handleQuizFinish]: whether the answer
    counts as correct, and the partial points stored in
    [ans._awarded_points]. *)
Definition threshold : num := literal (6 / 10).

Definition handleQuizFinish_written (resp : str) (expected : list str) (points : R)
  : bool * num :=
  let sim := semanticMatchScore resp expected in
  let isCorrect := num_geb sim threshold in
  let partialPoints := Math_round (num_mul (or_zero sim) (Fin points)) in
  let awarded := Math_max (Fin 0) partialPoints in
  (isCorrect, awarded).

(** Adjacent pairs of a list of words, each pair joined by a space. *)
Fixpoint adjacent_pairs (l : list str) : list str :=
  match l with
  | a :: (b :: _) as r => (a ++ [SP] ++ b) :: adjacent_pairs r
  | _ => []
  end.

End Similarity.

Import Similarity.

(* ================================================================= *)
(** ** Generate route: distractor selection *)

Module Distractors.

(** [arr[i] = v] on an array, for an index inside it. *)
Fixpoint update (i : nat) (v : str) (l : list str) : list str :=
  match l, i with
  | [], _ => []
  | _ :: r, O => v :: r
  | x :: r, S i' => x :: update i' v r
  end.

(** [[arr[i], arr[j]] = [arr[j], arr[i]]] *)
Definition swap (i j : nat) (arr : list str) : list str :=
  update j (nth i arr []) (update i (nth j arr []) arr).

(** [shuffle]: the loop [for (i = arr.length - 1; i > 0; i--)].  The
    random source [rnd] lists the successive values of
    [Math.floor(Math.random() * (i + 1))]; they are read modulo [i + 1],
    and an exhausted source answers [0]. *)
Fixpoint shuffle_from (i : nat) (rnd : list nat) (arr : list str) : list str :=
  match i with
  | O => arr
  | S i' =>
      let j := (hd 0 rnd) mod (i + 1) in
      shuffle_from i' (tl rnd) (swap i j arr)
  end.

Definition shuffle (rnd : list nat) (arr : list str) : list str :=
  shuffle_from (length arr - 1) rnd arr.

(** [.sort((a, b) => b.s - a.s)]: a stable sort by decreasing score. *)
Fixpoint insert_desc (x : str * num) (l : list (str * num)) : list (str * num) :=
  match l with
  | [] => [x]
  | y :: r => if num_geb (snd x) (snd y) then x :: l else y :: insert_desc x r
  end.

Definition sort_desc (l : list (str * num)) : list (str * num) :=
  fold_right insert_desc [] l.

Definition num_leb (a b : num) : bool := num_geb b a.

Section Pick.

(** [String.prototype.toLowerCase] of the engine, over the whole of
    Unicode.  The selection below compares lowercased phrases of any
    script, so it is stated for every case mapping; what the properties
    need of it is said where they need it. *)
Variable toLowerCase : str -> str.

Variable answer : str.
Variables MIN_SIM MAX_SIM : num.

Definition pickFiltered (cands : list str) : list str :=
  let scored := map (fun p => (p, semanticSimilarity answer p)) cands in
  let inRange :=
    map fst (sort_desc
      (filter (fun x => num_geb (snd x) MIN_SIM && num_leb (snd x) MAX_SIM)
              scored)) in
  if (3 <=? length inRange)%nat then firstn 3 inRange
  else
    let relaxed :=
      map fst (sort_desc
        (filter (fun x => num_geb (snd x) (num_mul MIN_SIM (literal (6 / 10))))
                scored)) in
    let uniq := Set_of (inRange ++ relaxed) in
    firstn 3 uniq.

(** [p.toLowerCase() !== answer.toLowerCase()] *)
Definition differs (p : str) : bool :=
  negb (str_eqb (toLowerCase p) (toLowerCase answer)).

Definition filler : str := of_string "An unrelated statement".

(** The distractors of one question, as built in the loop of [POST].
    [retrieved] is [None] when no
    embedding service is configured or the query fails, and otherwise
    the phrases picked from the sentences of the retrieved texts;
    [phrases] is the phrase pool of the document. *)
Definition select_distractors (retrieved : option (list str))
                              (phrases : list str)
                              (rnd1 rnd2 : list nat) : list str :=
  let distractors :=
    match retrieved with
    | Some phs =>
        let candPhrases := filter (fun ph => nonempty ph && differs ph) phs in
        let uniq :=
          filter (fun p => (Z.abs (Js.len p - Js.len answer)
                            <? Z.max 12 (Js.len answer + 6))%Z)
                 (Set_of candPhrases) in
        pickFiltered (shuffle rnd1 uniq)
    | None => []
    end in
  let distractors :=
    if (length distractors <? 3)%nat then
      let others :=
        filter (fun p => differs p
                         && (Z.abs (Js.len p - Js.len answer)
                             <? Z.max 6 (Js.len answer))%Z)
               phrases in
      distractors ++ pickFiltered (shuffle rnd2 others)
    else distractors in
  (* while (distractors.length < 3) distractors.push(filler) *)
  distractors ++ repeat filler (3 - length distractors).

End Pick.

Definition default_MIN_SIM : num := literal (12 / 100).
Definition default_MAX_SIM : num := literal (75 / 100).

End Distractors.

Import Distractors.

(* ================================================================= *)
(** ** app/page.tsx: grading of a multiple-choice answer *)

Module Grading.

(** The order of the default [Array.prototype.sort] on strings: code
    units compared from the left, a proper prefix first. *)
Fixpoint str_leb (a b : str) : bool :=
  match a, b with
  | [], _ => true
  | _ :: _, [] => false
  | x :: a', y :: b' =>
      if (x <? y)%N then true
      else if (y <? x)%N then false
      else str_leb a' b'
  end.

Fixpoint insert_sorted (x : str) (l : list str) : list str :=
  match l with
  | [] => [x]
  | y :: r => if str_leb x y then x :: l else y :: insert_sorted x r
  end.

(** [ids.slice().sort()]: the ids in ascending order.  Strings that
    compare equal are the same string, so every sorting algorithm returns
    this list. *)
Definition sort_ids (ids : list str) : list str :=
  fold_right insert_sorted [] ids.

(** [x || []] for an array that may be missing. *)
Definition or_empty (x : option (list str)) : list str :=
  match x with Some l => l | None => [] end.

(** The ['multiple'] branch of [handleQuizFinish]:
    [JSON.stringify(s) === JSON.stringify(c)] for the two sorted arrays.
    [JSON.stringify] maps different arrays of strings to different texts,
    so the comparison is the equality of the arrays. *)
Definition multiple_isCorrect (selected_choice_ids correct_choice_ids
                               : option (list str)) : bool :=
  let s := sort_ids (or_empty selected_choice_ids) in
  let c := sort_ids (or_empty correct_choice_ids) in
  if list_eq_dec str_eq_dec s c then true else false.

End Grading.

Import Grading.

(* ================================================================= *)
(** * Vocabulary of the properties *)

(** The value of [len] after pushing each part: every part counts for its
    length plus one. *)
Fixpoint budget (parts : list str) : Z :=
  match parts with
  | [] => 0
  | p :: ps => Js.len p + 1 + budget ps
  end.

(** The sentences with index in [[i, j)]. *)
Definition window (sentences : list str) (i j : nat) : list str :=
  firstn (j - i) (skipn i sentences).

(** The sentences the chunker works on for a given input text. *)
Definition sentences_of (text : str) : list str :=
  splitIntoSentences (normalizeTextForExtraction text).

(** [tidy b t]: every whitespace unit of [t] is a single space standing
    alone; with [b] set, [t] moreover does not start with one. *)
Fixpoint tidy (b : bool) (t : str) : bool :=
  match t with
  | [] => true
  | c :: r =>
      if is_ws c then (c =? SP)%N && negb b && tidy true r
      else tidy false r
  end.


(** The combined score of one expected answer. *)
Definition combined_score (response e : str) : num :=
  Math_max (or_zero (semanticSimilarity response e))
           (or_zero (bigramJaccard (bigrams response) (bigrams e))).

(** The quantities [semanticSimilarity] is computed from. *)
Definition sim_profile (a b : str) : bool * bool * bool * (nat * nat) * (nat * nat * nat) :=
  let ta := tokens a in
  let tb := tokens b in
  ((length ta =? 0), (length tb =? 0), has (vocabulary ta tb) constructor_word,
   (inter_size ta tb, union_size ta tb),
   (dot ta tb, norm2 ta (vocabulary ta tb), norm2 tb (vocabulary ta tb))).

(** Example data. *)
Definition demo_text : str :=
  of_string "The mitochondria is the powerhouse of the cell. It produces ATP through respiration.".

Definition demo_sentence1 : str :=
  of_string "The mitochondria is the powerhouse of the cell.".

Definition demo_sentence2 : str :=
  of_string "It produces ATP through respiration.".

Definition demo_pages : list str :=
  [ [SP; 97; SP; LF; 98]; [99; LF; SP; 100] ]%N.

Definition the_word : str := of_string "the".
Definition cat_word : str := of_string "cat".

Definition new_york : str := of_string "New York".
Definition retrieved_phrases : list str :=
  map of_string ["New Jersey"; "New Mexico"]%string.
Definition document_phrases : list str :=
  map of_string ["New Hampshire"; "New Orleans"; "New Delhi"]%string.

(** Units of a word fragment: neither whitespace nor a hyphen. *)
Definition word_unit (c : N) : bool := negb (is_ws c) && negb (c =? HYPHEN)%N.

(** Whitespace other than a carriage return. *)
Definition indent_unit (c : N) : bool := is_ws c && negb (c =? CR)%N.

(** A sentence body followed by its terminal marks: units outside
    [[.!?]], then units inside it. *)
Definition sentence_shape (s : str) : Prop :=
  exists body marks,
    s = body ++ marks
    /\ forallb (fun c => negb (is_term c)) body = true
    /\ forallb is_term marks = true.

(** What every chunk record holds, for the sentence list [ss] it was cut
    from. *)
Definition chunk_wf (ss : list str) (c : Chunk) : Prop :=
  startSentence c <= endSentence c < length ss
  /\ text c = join [SP] (window ss (startSentence c) (S (endSentence c)))
  /\ (0 <= startChar c < endChar c)%Z
  /\ endChar c = (startChar c + Js.len (text c))%Z
  /\ id c = num_to_str (startChar c) ++ [HYPHEN] ++ num_to_str (endChar c).

(** The next chunk starts after the start of this one and not beyond the
    sentence that follows its end. *)
Definition adjoins (c1 c2 : Chunk) : Prop :=
  startSentence c1 < startSentence c2 <= S (endSentence c1).

(** The next chunk starts right after this one, in sentences and in
    characters shifted by the overlap. *)
Definition follows (overlapChars : Z) (c1 c2 : Chunk) : Prop :=
  startSentence c2 = S (endSentence c1)
  /\ startChar c2 = (endChar c1 - overlapChars)%Z.

(** Three pages that share their first line. *)
Definition header_pages : list str :=
  map of_string ["Report"; "Report"]%string
  ++ [of_string "Report" ++ [LF] ++ of_string "body"].

(** A page of one line, followed by an unrelated page. *)
Definition one_line_pages : list str :=
  [of_string "Chapter one";
   of_string "It was late." ++ [LF] ++ of_string "Nobody came."].

(** The class [[a-z0-9]]. *)
Definition alnum_lower (c : N) : bool :=
  ((97 <=? c) && (c <=? 122) || (48 <=? c) && (c <=? 57))%N.

(** An answer of one word and an expected answer of three. *)
Definition cat_dog_bird : str := of_string "cat dog bird".

(** Strings of Basic Latin code units (U+0000 to U+007F), on which every
    engine's [toLowerCase] is the ASCII one. *)
Definition basic_latin (s : str) : bool := forallb (fun c => c <? 128)%N s.

(** The character cursor moves on by the length of the chunk body less
    the overlap, and never moves back. *)
Definition advances (overlapChars : Z) (c1 c2 : Chunk) : Prop :=
  startChar c2
  = (startChar c1 + Z.max 0 (Js.len (text c1) - overlapChars))%Z.

(* ================================================================= *)
(** * Properties *)

(* ----------------------------------------------------------------- *)
(** ** Binary64 rounding *)

Local Open Scope R_scope.

Lemma pow2_pos (e : Z) : 0 < powerRZ 2 e.
Proof. apply powerRZ_lt. lra. Qed.

Lemma pow2_ge_1 (k : Z) : (0 <= k)%Z -> 1 <= powerRZ 2 k.
Proof.
  intros H. rewrite <- (Z2Nat.id k H), <- pow_powerRZ.
  apply pow_R1_Rle. lra.
Qed.

Lemma pow2_le (a b : Z) : (a <= b)%Z -> powerRZ 2 a <= powerRZ 2 b.
Proof.
  intros H. replace b with (a + (b - a))%Z by lia.
  rewrite powerRZ_add by lra.
  pose proof (pow2_pos a). pose proof (pow2_ge_1 (b - a) ltac:(lia)). nra.
Qed.

Lemma pow2_succ (a : Z) : powerRZ 2 (a + 1) = 2 * powerRZ 2 a.
Proof. rewrite powerRZ_add by lra. simpl. lra. Qed.

Lemma pow2_lt (a b : Z) : (a < b)%Z -> powerRZ 2 a < powerRZ 2 b.
Proof.
  intros H. pose proof (pow2_le (a + 1) b ltac:(lia)) as L.
  rewrite pow2_succ in L. pose proof (pow2_pos a). lra.
Qed.

Lemma pow2_lt_inv (a b : Z) : powerRZ 2 a < powerRZ 2 b -> (a < b)%Z.
Proof.
  intros H. destruct (Z_lt_le_dec a b) as [L|L]; [exact L|].
  apply pow2_le in L. lra.
Qed.

Lemma pow2_IZR (k : Z) : (0 <= k)%Z -> powerRZ 2 k = IZR (2 ^ k).
Proof.
  intros H. rewrite <- (Z2Nat.id k H) at 1. rewrite <- pow_powerRZ.
  rewrite pow_IZR, Z2Nat.id by exact H. reflexivity.
Qed.

Lemma pow2_opp (k : Z) : powerRZ 2 (- k) = / powerRZ 2 k.
Proof. apply powerRZ_neg'. Qed.

Lemma ln2_pos : 0 < ln 2.
Proof. pose proof ln_lt_2. lra. Qed.

Lemma pow2_exp (z : Z) : powerRZ 2 z = exp (IZR z * ln 2).
Proof. rewrite powerRZ_Rpower by lra. reflexivity. Qed.

Lemma mag_bounds (x : R) :
  x <> 0 -> powerRZ 2 (mag x) <= Rabs x < powerRZ 2 (mag x + 1).
Proof.
  intros Hx. pose proof (Rabs_pos_lt x Hx) as Hp.
  unfold mag. set (t := ln (Rabs x) / ln 2).
  destruct (base_Int_part t) as [B1 B2].
  pose proof ln2_pos as L2.
  assert (Ht : ln (Rabs x) = t * ln 2) by (unfold t; field; lra).
  rewrite !pow2_exp, plus_IZR.
  assert (Hx' : Rabs x = exp (t * ln 2)) by (rewrite <- Ht, exp_ln; auto).
  rewrite Hx'. split.
  - destruct B1 as [B1|B1].
    + left. apply exp_increasing. nra.
    + right. rewrite B1. reflexivity.
  - apply exp_increasing. nra.
Qed.

Lemma mag_unique (x : R) (e : Z) :
  powerRZ 2 e <= Rabs x < powerRZ 2 (e + 1) -> mag x = e.
Proof.
  intros [H1 H2].
  assert (Hx : x <> 0).
  { intros ->. rewrite Rabs_R0 in H1. pose proof (pow2_pos e). lra. }
  destruct (mag_bounds x Hx) as [M1 M2].
  assert (A : (e < mag x + 1)%Z) by (apply pow2_lt_inv; lra).
  assert (B : (mag x < e + 1)%Z) by (apply pow2_lt_inv; lra).
  lia.
Qed.

Lemma mag_le (x y : R) : 0 < x -> x <= y -> (mag x <= mag y)%Z.
Proof.
  intros Hx Hxy.
  destruct (mag_bounds x ltac:(lra)) as [M1 _].
  destruct (mag_bounds y ltac:(lra)) as [_ N2].
  rewrite Rabs_pos_eq in M1, N2 by lra.
  assert (A : (mag x < mag y + 1)%Z) by (apply pow2_lt_inv; lra).
  lia.
Qed.

Lemma floor_bounds (m : R) : IZR (Int_part m) <= m < IZR (Int_part m) + 1.
Proof. destruct (base_Int_part m). lra. Qed.

Lemma nearest_even_err (m : R) : Rabs (IZR (nearest_even m) - m) <= / 2.
Proof.
  unfold nearest_even. pose proof (floor_bounds m) as F.
  destruct (Rlt_dec (m - IZR (Int_part m)) (/ 2)).
  - apply Rabs_le. lra.
  - destruct (Rlt_dec (/ 2) (m - IZR (Int_part m))).
    + rewrite plus_IZR. apply Rabs_le. lra.
    + destruct (Z.even (Int_part m)); [|rewrite plus_IZR]; apply Rabs_le; lra.
Qed.

Lemma nearest_even_unique (m : R) (k : Z) :
  Rabs (m - IZR k) < / 2 -> nearest_even m = k.
Proof.
  intros H. apply Rabs_def2 in H. destruct H as [H1 H2].
  unfold nearest_even. pose proof (floor_bounds m) as F.
  assert (A : (Int_part m < k + 1)%Z) by (apply lt_IZR; rewrite plus_IZR; lra).
  assert (B : (k < Int_part m + 2)%Z) by (apply lt_IZR; rewrite plus_IZR; lra).
  assert (C : Int_part m = k \/ Int_part m = (k - 1)%Z) by lia.
  destruct C as [C|C]; rewrite C in *.
  - destruct (Rlt_dec (m - IZR k) (/ 2)); [reflexivity|lra].
  - rewrite minus_IZR in *.
    destruct (Rlt_dec (m - (IZR k - 1)) (/ 2)); [lra|].
    destruct (Rlt_dec (/ 2) (m - (IZR k - 1))); [lia|lra].
Qed.

Lemma nearest_even_IZR (k : Z) : nearest_even (IZR k) = k.
Proof.
  apply nearest_even_unique. rewrite Rminus_diag, Rabs_R0. lra.
Qed.

Lemma nearest_even_between (m : R) :
  (Int_part m <= nearest_even m <= Int_part m + 1)%Z.
Proof.
  unfold nearest_even.
  destruct (Rlt_dec _ _); [lia|]. destruct (Rlt_dec _ _); [lia|].
  destruct (Z.even _); lia.
Qed.

Lemma nearest_even_le (m1 m2 : R) :
  m1 <= m2 -> (nearest_even m1 <= nearest_even m2)%Z.
Proof.
  intros H. pose proof (floor_bounds m1) as F1. pose proof (floor_bounds m2) as F2.
  assert (A : (Int_part m1 < Int_part m2 + 1)%Z)
    by (apply lt_IZR; rewrite plus_IZR; lra).
  pose proof (nearest_even_between m1). pose proof (nearest_even_between m2).
  destruct (Z.eq_dec (Int_part m1) (Int_part m2)) as [E|E]; [|lia].
  unfold nearest_even. rewrite E in *.
  destruct (Rlt_dec (m1 - IZR (Int_part m2)) (/ 2));
    destruct (Rlt_dec (m2 - IZR (Int_part m2)) (/ 2)); try lia; try lra.
  - destruct (Rlt_dec (/ 2) (m2 - IZR (Int_part m2))); [lia|].
    destruct (Z.even (Int_part m2)); lia.
  - destruct (Rlt_dec (/ 2) (m1 - IZR (Int_part m2)));
      destruct (Rlt_dec (/ 2) (m2 - IZR (Int_part m2))); try lia; try lra.
    destruct (Z.even (Int_part m2)); lia.
Qed.

Lemma nearest_even_ge (m : R) (k : Z) : IZR k <= m -> (k <= nearest_even m)%Z.
Proof.
  intros H. pose proof (nearest_even_le _ _ H) as L.
  rewrite nearest_even_IZR in L. exact L.
Qed.

Lemma nearest_even_le_int (m : R) (k : Z) : m <= IZR k -> (nearest_even m <= k)%Z.
Proof.
  intros H. pose proof (nearest_even_le _ _ H) as L.
  rewrite nearest_even_IZR in L. exact L.
Qed.

Lemma ulp_pos (x : R) : 0 < ulp x.
Proof. apply pow2_pos. Qed.

Lemma round64_0 : round64 0 = 0.
Proof.
  unfold round64. unfold Rdiv. rewrite Rmult_0_l.
  rewrite (nearest_even_IZR 0). lra.
Qed.

Lemma round64_nonneg (x : R) : 0 <= x -> 0 <= round64 x.
Proof.
  intros H. unfold round64. pose proof (ulp_pos x) as U.
  assert (0 <= x / ulp x) by (apply Rle_mult_inv_pos; lra).
  pose proof (nearest_even_ge (x / ulp x) 0 H0) as K.
  apply IZR_le in K. nra.
Qed.

(** Value of [round64] inside a given binade. *)
Lemma round64_binade (x : R) (e : Z) :
  powerRZ 2 e <= x < powerRZ 2 (e + 1) ->
  round64 x = IZR (nearest_even (x / powerRZ 2 (Z.max e (-1022) - 52)))
              * powerRZ 2 (Z.max e (-1022) - 52).
Proof.
  intros H. pose proof (pow2_pos e).
  unfold round64, ulp. rewrite (mag_unique x e); [reflexivity|].
  rewrite Rabs_pos_eq by lra. exact H.
Qed.

Lemma round64_eval (x : R) (e k : Z) :
  (-1022 <= e)%Z ->
  powerRZ 2 e <= x < powerRZ 2 (e + 1) ->
  Rabs (x * powerRZ 2 (52 - e) - IZR k) < / 2 ->
  round64 x = IZR k * powerRZ 2 (e - 52).
Proof.
  intros He Hx Hk. rewrite (round64_binade x e Hx).
  rewrite Z.max_l by lia.
  replace (x / powerRZ 2 (e - 52)) with (x * powerRZ 2 (52 - e)).
  - rewrite (nearest_even_unique _ k Hk). reflexivity.
  - replace (52 - e)%Z with (- (e - 52))%Z by lia. rewrite pow2_opp. reflexivity.
Qed.

Lemma round64_pow2 (e : Z) : (-1022 <= e)%Z -> round64 (powerRZ 2 e) = powerRZ 2 e.
Proof.
  intros He. rewrite (round64_eval (powerRZ 2 e) e (2 ^ 52) He).
  - rewrite <- (pow2_IZR 52) by lia. rewrite <- powerRZ_add by lra.
    f_equal. lia.
  - split; [lra|]. apply pow2_lt. lia.
  - rewrite <- powerRZ_add by lra. replace (e + (52 - e))%Z with 52%Z by lia.
    rewrite (pow2_IZR 52) by lia. rewrite Rminus_diag, Rabs_R0. lra.
Qed.

Lemma round64_1 : round64 1 = 1.
Proof. apply (round64_pow2 0). lia. Qed.

(** Bounds of a rounded positive number by the ends of its binade. *)
Lemma round64_in_binade (x : R) (e : Z) :
  (-1022 <= e)%Z -> powerRZ 2 e <= x < powerRZ 2 (e + 1) ->
  powerRZ 2 e <= round64 x <= powerRZ 2 (e + 1).
Proof.
  intros He Hx. rewrite (round64_binade x e Hx). rewrite Z.max_l by lia.
  set (u := powerRZ 2 (e - 52)). assert (U : 0 < u) by apply pow2_pos.
  assert (E1 : powerRZ 2 e = IZR (2 ^ 52) * u).
  { unfold u. rewrite <- (pow2_IZR 52), <- powerRZ_add by (lia || lra).
    f_equal. lia. }
  assert (E2 : powerRZ 2 (e + 1) = IZR (2 ^ 53) * u).
  { unfold u. rewrite <- (pow2_IZR 53), <- powerRZ_add by (lia || lra).
    f_equal. lia. }
  rewrite E1, E2 in *.
  assert (A : IZR (2 ^ 52) <= x / u).
  { apply (Rmult_le_reg_r u); [exact U|]. unfold Rdiv.
    rewrite Rmult_assoc, Rinv_l by lra. lra. }
  assert (B : x / u <= IZR (2 ^ 53)).
  { apply (Rmult_le_reg_r u); [exact U|]. unfold Rdiv.
    rewrite Rmult_assoc, Rinv_l by lra. lra. }
  apply nearest_even_ge, IZR_le in A. apply nearest_even_le_int, IZR_le in B.
  split; apply Rmult_le_compat_r; lra.
Qed.

Lemma round64_subnormal_le (x : R) (e : Z) :
  (e < -1022)%Z -> 0 < x < powerRZ 2 (e + 1) ->
  round64 x <= powerRZ 2 (-1022).
Proof.
  intros He [Hx0 Hx].
  assert (Hm : (mag x <= -1022)%Z).
  { destruct (mag_bounds x ltac:(lra)) as [M1 _].
    rewrite Rabs_pos_eq in M1 by lra.
    assert (mag x < e + 1)%Z by (apply pow2_lt_inv; lra). lia. }
  unfold round64, ulp. rewrite Z.max_r by lia.
  change (-1022 - 52)%Z with (-1074)%Z.
  set (u := powerRZ 2 (-1074)). assert (U : 0 < u) by apply pow2_pos.
  assert (E1 : powerRZ 2 (-1022) = IZR (2 ^ 52) * u).
  { unfold u. rewrite <- (pow2_IZR 52), <- powerRZ_add by (lia || lra).
    reflexivity. }
  rewrite E1.
  assert (B : x / u <= IZR (2 ^ 52)).
  { apply (Rmult_le_reg_r u); [exact U|]. unfold Rdiv.
    rewrite Rmult_assoc, Rinv_l by lra. rewrite <- E1.
    pose proof (pow2_le (e + 1) (-1022) ltac:(lia)). lra. }
  apply nearest_even_le_int, IZR_le in B.
  apply Rmult_le_compat_r; lra.
Qed.

Lemma round64_le (x y : R) : 0 <= x -> x <= y -> round64 x <= round64 y.
Proof.
  intros Hx Hxy.
  destruct (Req_dec x 0) as [->|Hx0].
  { rewrite round64_0. apply round64_nonneg. lra. }
  assert (Px : 0 < x) by lra. assert (Py : 0 < y) by lra.
  pose proof (mag_le x y Px Hxy) as Hm.
  destruct (mag_bounds x ltac:(lra)) as [X1 X2].
  destruct (mag_bounds y ltac:(lra)) as [Y1 Y2].
  rewrite Rabs_pos_eq in X1, X2, Y1, Y2 by lra.
  destruct (Z.eq_dec (Z.max (mag x) (-1022)) (Z.max (mag y) (-1022))) as [E|E].
  - unfold round64, ulp. rewrite E.
    set (u := powerRZ 2 (Z.max (mag y) (-1022) - 52)).
    assert (U : 0 < u) by apply pow2_pos.
    apply Rmult_le_compat_r; [lra|]. apply IZR_le, nearest_even_le.
    apply Rmult_le_compat_r; [|exact Hxy]. left. apply Rinv_0_lt_compat, U.
  - assert (Hy : (-1022 < mag y)%Z) by lia.
    destruct (round64_in_binade y (mag y) ltac:(lia) (conj Y1 Y2)) as [L _].
    apply Rle_trans with (powerRZ 2 (mag y)); [|exact L].
    destruct (Z_lt_le_dec (mag x) (-1022)) as [S|S].
    + apply Rle_trans with (powerRZ 2 (-1022)).
      * apply (round64_subnormal_le x (mag x)); [lia|lra].
      * apply pow2_le. lia.
    + destruct (round64_in_binade x (mag x) S (conj X1 X2)) as [_ Ux].
      apply Rle_trans with (powerRZ 2 (mag x + 1)); [exact Ux|].
      apply pow2_le. lia.
Qed.

Lemma round64_le_1 (x : R) : 0 <= x <= 1 -> round64 x <= 1.
Proof. intros [H0 H1]. rewrite <- round64_1. apply round64_le; assumption. Qed.

Lemma round64_ge_1 (x : R) : 1 <= x -> 1 <= round64 x.
Proof. intros H. rewrite <- round64_1 at 1. apply round64_le; lra. Qed.

(** Relative error of rounding in the normal range. *)
Lemma round64_error (x : R) :
  powerRZ 2 (-1022) <= x ->
  Rabs (round64 x - x) <= x * powerRZ 2 (-53).
Proof.
  intros Hx. pose proof (pow2_pos (-1022)) as P.
  destruct (mag_bounds x ltac:(lra)) as [X1 X2].
  rewrite Rabs_pos_eq in X1, X2 by lra.
  assert (Hm : (-1022 <= mag x)%Z).
  { assert (-1022 < mag x + 1)%Z by (apply pow2_lt_inv; lra). lia. }
  unfold round64, ulp. rewrite Z.max_l by exact Hm.
  set (u := powerRZ 2 (mag x - 52)). assert (U : 0 < u) by apply pow2_pos.
  pose proof (nearest_even_err (x / u)) as N.
  replace (IZR (nearest_even (x / u)) * u - x)
    with ((IZR (nearest_even (x / u)) - x / u) * u) by (field; lra).
  rewrite Rabs_mult, (Rabs_pos_eq u) by lra.
  apply Rle_trans with (/ 2 * u); [apply Rmult_le_compat_r; lra|].
  assert (E : u = powerRZ 2 (mag x) * powerRZ 2 (-52)).
  { unfold u. rewrite <- powerRZ_add by lra. f_equal. }
  assert (E2 : powerRZ 2 (-53) = / 2 * powerRZ 2 (-52)).
  { change (-53)%Z with (-1 + -52)%Z. rewrite powerRZ_add by lra. f_equal.
    simpl. lra. }
  rewrite E, E2. pose proof (pow2_pos (-52)). nra.
Qed.

Lemma pow2_pos_IZR (p : positive) : powerRZ 2 (Z.pos p) = IZR (2 ^ Z.pos p).
Proof. apply pow2_IZR. lia. Qed.

Lemma pow2_neg_IZR (p : positive) : powerRZ 2 (Z.neg p) = / IZR (2 ^ Z.pos p).
Proof.
  change (Z.neg p) with (- Z.pos p)%Z. rewrite pow2_opp, pow2_pos_IZR. reflexivity.
Qed.

Ltac pow2_consts :=
  repeat match goal with
         | |- context [powerRZ 2 (Z.pos ?p)] =>
             rewrite (pow2_pos_IZR p);
             let v := eval vm_compute in (2 ^ Z.pos p)%Z in
             change (2 ^ Z.pos p)%Z with v
         | |- context [powerRZ 2 (Z.neg ?p)] =>
             rewrite (pow2_neg_IZR p);
             let v := eval vm_compute in (2 ^ Z.pos p)%Z in
             change (2 ^ Z.pos p)%Z with v
         | |- context [powerRZ 2 0] => rewrite powerRZ_O
         end.

Ltac round64_value e k :=
  rewrite (round64_eval _ e k);
  [ cbn [Z.sub Z.add Z.opp Z.pos_sub Pos.pred_double Pos.succ Pos.add Z.succ_double Z.pred_double Z.double];
    pow2_consts; try lra
  | lia
  | cbn [Z.sub Z.add Z.opp Z.pos_sub Pos.pred_double Pos.succ Pos.add];
    pow2_consts; try lra
  | cbn [Z.sub Z.add Z.opp Z.pos_sub Pos.pred_double Pos.succ Pos.add Z.succ_double Z.pred_double Z.double];
    pow2_consts; apply Rabs_def1; try lra ].

(** The decimal literals of the source, as binary64 values. *)
Lemma round64_six_tenths : round64 (6 / 10) = 5404319552844595 / 9007199254740992.
Proof. round64_value (-1)%Z 5404319552844595%Z. Qed.

Lemma round64_twelve_hundredths :
  round64 (12 / 100) = 1080863910568919 / 9007199254740992.
Proof. round64_value (-4)%Z 8646911284551352%Z. Qed.

Lemma round64_three_quarters : round64 (75 / 100) = 3 / 4.
Proof. round64_value (-1)%Z 6755399441055744%Z. Qed.

Lemma round64_third : round64 (1 / 3) = 6004799503160661 / 18014398509481984.
Proof. round64_value (-2)%Z 6004799503160661%Z. Qed.

Lemma sqrt_between (a b x : R) :
  0 <= a -> 0 < b -> a * a < x < b * b -> a < sqrt x < b.
Proof.
  intros Ha Hb [H1 H2]. split.
  - rewrite <- (sqrt_square a Ha). apply sqrt_lt_1_alt. nra.
  - rewrite <- (sqrt_square b) by lra. apply sqrt_lt_1_alt. nra.
Qed.

Lemma round64_sqrt_2 : round64 (sqrt 2) = 6369051672525773 / 4503599627370496.
Proof.
  pose proof (sqrt_between (6369051672525772.5 / 4503599627370496)
                           (6369051672525773.5 / 4503599627370496) 2
                ltac:(lra) ltac:(lra) ltac:(lra)) as B.
  round64_value 0%Z 6369051672525773%Z.
Qed.

Lemma round64_sqrt_3 : round64 (sqrt 3) = 3900231685776981 / 2251799813685248.
Proof.
  pose proof (sqrt_between (7800463371553961.5 / 4503599627370496)
                           (7800463371553962.5 / 4503599627370496) 3
                ltac:(lra) ltac:(lra) ltac:(lra)) as B.
  round64_value 0%Z 7800463371553962%Z.
Qed.

Local Close Scope R_scope.

Opaque round64.

(* ----------------------------------------------------------------- *)
(** ** List and string helpers *)

Lemma skipn_nth_cons {A : Type} (d : A) (l : list A) (i : nat) :
  i < length l -> skipn i l = nth i l d :: skipn (S i) l.
Proof.
  revert i; induction l as [|a l IH]; intros i H; simpl in H; [lia|].
  destruct i as [|i]; [reflexivity|].
  change (skipn i l = nth i l d :: skipn (S i) l).
  apply IH. lia.
Qed.


Lemma budget_app (a b : list str) : budget (a ++ b) = (budget a + budget b)%Z.
Proof. induction a as [|x a IH]; simpl; [reflexivity|]. rewrite IH. lia. Qed.

Lemma len_app (a b : str) : Js.len (a ++ b) = (Js.len a + Js.len b)%Z.
Proof. unfold Js.len. rewrite length_app. lia. Qed.

Lemma len_join_space (parts : list str) :
  parts <> [] -> (Js.len (join [SP] parts) + 1 = budget parts)%Z.
Proof.
  induction parts as [|p ps IH]; [congruence|]. intros _.
  destruct ps as [|q ps].
  - simpl. lia.
  - change (join [SP] (p :: q :: ps)) with (p ++ [SP] ++ join [SP] (q :: ps)).
    rewrite !len_app.
    change (budget (p :: q :: ps)) with (Js.len p + 1 + budget (q :: ps))%Z.
    assert (E := IH ltac:(congruence)).
    change (Js.len [SP]) with 1%Z. lia.
Qed.

(* ----------------------------------------------------------------- *)
(** ** The chunker's loops *)

Section ChunkerFacts.

Variable sentences : list str.
Variables chunkChars overlapChars : Z.


Lemma fill_spec fuel : forall idx len parts idx' len' parts',
  fill sentences chunkChars fuel idx len parts = (idx', len', parts') ->
  idx <= idx' /\ idx' <= Nat.max idx (length sentences)
  /\ parts' = parts ++ window sentences idx idx'
  /\ len' = (len + budget (window sentences idx idx'))%Z
  /\ (length sentences - idx <= fuel -> idx' < length sentences -> (chunkChars <= len')%Z /\ parts' <> [])
  /\ (0 < fuel -> idx < length sentences -> parts = [] -> idx < idx').
Proof.
  unfold window.
  induction fuel as [|fuel IH]; intros idx len parts idx' len' parts' H; simpl in H.
  - inversion H; subst. rewrite Nat.sub_diag. simpl. rewrite app_nil_r.
    repeat split; try lia.
  - destruct ((idx <? length sentences)%nat
              && ((len <? chunkChars)%Z || (length parts =? 0)%nat)) eqn:G.
    + apply andb_true_iff in G. destruct G as [G1 _].
      apply Nat.ltb_lt in G1.
      apply IH in H. destruct H as (H1 & H2 & H3 & H4 & H5 & _).
      assert (E : firstn (idx' - idx) (skipn idx sentences)
                  = nth idx sentences []
                      :: firstn (idx' - S idx) (skipn (S idx) sentences)).
      { rewrite (skipn_nth_cons [] sentences _ G1).
        replace (idx' - idx) with (S (idx' - S idx)) by lia. reflexivity. }
      rewrite E. repeat split; try lia.
      * rewrite H3, <- app_assoc. reflexivity.
      * rewrite H4. simpl. lia.
      * apply H5; lia.
    + inversion H; subst. rewrite Nat.sub_diag. simpl. rewrite app_nil_r.
      repeat split; try lia.
      * apply andb_false_iff in G. destruct G as [G|G].
        -- apply Nat.ltb_ge in G. lia.
        -- apply orb_false_iff in G. destruct G as [G _].
           apply Z.ltb_ge in G. lia.
      * apply andb_false_iff in G. destruct G as [G|G].
        -- apply Nat.ltb_ge in G. lia.
        -- apply orb_false_iff in G. destruct G as [_ G].
           apply Nat.eqb_neq in G. intros ->. simpl in G. congruence.
      * intros _ Hlt ->.
        apply Nat.ltb_lt in Hlt. rewrite Hlt in G. simpl in G.
        rewrite orb_true_r in G. discriminate.
Qed.

(** Given [sentences.length - idx] iterations, the inner loop stops
    because its condition fails, not because the bound is reached. *)
Lemma fill_exits idx len parts idx' len' parts' :
  fill sentences chunkChars (length sentences - idx) idx len parts
  = (idx', len', parts') ->
  (idx' <? length sentences)%nat
  && ((len' <? chunkChars)%Z || (length parts' =? 0)%nat) = false.
Proof.
  intros H. apply fill_spec in H. destruct H as (_ & _ & _ & _ & H & _).
  destruct (idx' <? length sentences)%nat eqn:G; [|reflexivity].
  apply Nat.ltb_lt in G. destruct (H (Nat.le_refl _) G) as [H1 H2].
  apply Z.ltb_ge in H1. rewrite H1.
  destruct parts'; [congruence|reflexivity].
Qed.

(** The overlap walk never leaves [[startIdx, j]]. *)
Lemma backtrack_range startIdx : forall j back,
  startIdx <= j ->
  startIdx <= backtrack sentences overlapChars startIdx j back <= j.
Proof.
  induction j as [|j IH]; intros back H; simpl.
  - destruct ((startIdx <? 0)%nat && (back <? overlapChars)%Z); lia.
  - destruct ((startIdx <? S j)%nat && (back <? overlapChars)%Z) eqn:G; [|lia].
    apply andb_true_iff in G. destruct G as [G _]. apply Nat.ltb_lt in G.
    specialize (IH (back + Js.len (nth (S j) sentences []) + 1)%Z). lia.
Qed.

(** What one iteration of the outer loop does. *)
Lemma chunk_step_spec idx charPos c idx' charPos' :
  idx < length sentences ->
  chunk_step sentences chunkChars overlapChars idx charPos = (c, idx', charPos') ->
  exists e,
    idx < e /\ e <= length sentences
    /\ startSentence c = idx /\ endSentence c = e - 1
    /\ text c = join [SP] (window sentences idx e)
    /\ window sentences idx e <> []
    /\ startChar c = charPos
    /\ endChar c = (charPos + Js.len (text c))%Z
    /\ idx < idx' /\ idx' <= e
    /\ (e < length sentences ->
        (chunkChars <= Js.len (text c) + 1)%Z
        /\ charPos' = (charPos + Z.max 0 (Js.len (text c) - overlapChars))%Z)
    /\ (e = length sentences -> idx' = length sentences /\ charPos' = endChar c).
Proof.
  intros Hidx H. unfold chunk_step in H.
  destruct (fill sentences chunkChars (length sentences - idx) idx 0 [])
    as [[e len'] parts] eqn:F.
  apply fill_spec in F. destruct F as (F1 & F2 & F3 & F4 & F5 & F6).
  simpl in F3. subst parts.
  assert (He : idx < e) by (apply F6; [lia|lia|reflexivity]).
  assert (Hen : e <= length sentences) by lia.
  assert (Hne : window sentences idx e <> []).
  { unfold window. rewrite (skipn_nth_cons [] sentences _ Hidx).
    replace (e - idx) with (S (e - S idx)) by lia. simpl. congruence. }
  destruct (e <? length sentences)%nat eqn:G.
  - apply Nat.ltb_lt in G.
    inversion H; subst; clear H. simpl.
    exists e. repeat split; try lia; auto.
    + pose proof (backtrack_range idx (e - 1) 0%Z ltac:(lia)). lia.
    + pose proof (backtrack_range idx (e - 1) 0%Z ltac:(lia)). lia.
    + destruct (F5 ltac:(lia) G) as [F5a _].
      rewrite (len_join_space _ Hne). lia.
  - apply Nat.ltb_ge in G.
    inversion H; subst; clear H. simpl.
    exists e. repeat split; try lia; auto.
Qed.

(** Invariant rule for the outer loop. *)
Lemma chunk_loop_invariant (P : nat -> Z -> list Chunk -> Prop) :
  (forall idx cp cs c idx' cp',
      P idx cp cs -> idx < length sentences ->
      chunk_step sentences chunkChars overlapChars idx cp = (c, idx', cp') ->
      P idx' cp' (cs ++ [c])) ->
  forall fuel idx cp cs out,
    P idx cp cs ->
    chunk_loop sentences chunkChars overlapChars fuel idx cp cs = Some out ->
    exists idx' cp', P idx' cp' out /\ length sentences <= idx'.
Proof.
  intros Hstep fuel.
  induction fuel as [|fuel IH]; intros idx cp cs out HP H; simpl in H.
  - destruct (idx <? length sentences)%nat eqn:G; [discriminate|].
    apply Nat.ltb_ge in G. inversion H; subst. eauto.
  - destruct (idx <? length sentences)%nat eqn:G.
    + apply Nat.ltb_lt in G.
      destruct (chunk_step sentences chunkChars overlapChars idx cp)
        as [[c idx'] cp'] eqn:S.
      eapply IH; [|exact H]. eapply Hstep; eauto.
    + apply Nat.ltb_ge in G. inversion H; subst. eauto.
Qed.

(** The outer loop exits within [length sentences - idx] iterations. *)
Lemma chunk_loop_total fuel : forall idx cp cs,
  length sentences - idx <= fuel ->
  exists out, chunk_loop sentences chunkChars overlapChars fuel idx cp cs = Some out.
Proof.
  induction fuel as [|fuel IH]; intros idx cp cs Hf; simpl.
  - destruct (idx <? length sentences)%nat eqn:G; [|eauto].
    apply Nat.ltb_lt in G. lia.
  - destruct (idx <? length sentences)%nat eqn:G; [|eauto].
    apply Nat.ltb_lt in G.
    destruct (chunk_step sentences chunkChars overlapChars idx cp)
      as [[c idx'] cp'] eqn:S.
    destruct (chunk_step_spec _ _ _ _ _ G S) as (e & H). apply IH. lia.
Qed.

(** More iterations than needed do not change the result. *)
Lemma chunk_loop_more_fuel fuel : forall fuel' idx cp cs out,
  fuel <= fuel' ->
  chunk_loop sentences chunkChars overlapChars fuel idx cp cs = Some out ->
  chunk_loop sentences chunkChars overlapChars fuel' idx cp cs = Some out.
Proof.
  induction fuel as [|fuel IH]; intros fuel' idx cp cs out Hle H.
  - simpl in H. destruct (idx <? length sentences)%nat eqn:G; [discriminate|].
    destruct fuel'; simpl; rewrite G; exact H.
  - destruct fuel' as [|fuel']; [lia|]. simpl in *.
    destruct (idx <? length sentences)%nat; [|exact H].
    destruct (chunk_step sentences chunkChars overlapChars idx cp)
      as [[c idx'] cp'].
    apply IH; [lia|exact H].
Qed.

End ChunkerFacts.

Ltac step_facts Hlt Hstep :=
  let e := fresh "e" in
  destruct (chunk_step_spec _ _ _ _ _ _ _ _ Hlt Hstep)
    as (e & He1 & He2 & Hss & Hes & Htxt & Hne & Hsc & Hec & Hii & Hie
        & Hmid & Hend).


Lemma Sorted_snoc {A : Type} (R : A -> A -> Prop) (l : list A) (y : A) :
  Sorted R l -> (forall x, In x l -> R x y) -> Sorted R (l ++ [y]).
Proof.
  induction l as [|a l IH]; simpl; intros HS Hy.
  - repeat constructor.
  - apply Sorted_inv in HS. destruct HS as [HS Hd].
    constructor; [apply IH; auto|].
    destruct l as [|b l]; simpl; constructor.
    + apply Hy; auto.
    + inversion Hd; assumption.
Qed.


Lemma Sorted_snoc_last {A : Type} (R : A -> A -> Prop) (l : list A) (y : A) :
  Sorted R l -> (forall d, l <> [] -> R (last l d) y) -> Sorted R (l ++ [y]).
Proof.
  induction l as [|a l IH]; intros HS Hy; simpl.
  - repeat constructor.
  - apply Sorted_inv in HS. destruct HS as [HS Hd]. constructor.
    + apply IH; [exact HS|]. intros d Hne.
      specialize (Hy d ltac:(discriminate)).
      destruct l; [congruence|exact Hy].
    + destruct l as [|b l]; simpl; constructor.
      * apply (Hy a). discriminate.
      * inversion Hd; assumption.
Qed.

Lemma chunker_unfold (text : str) (chunkChars overlapChars : Z) :
  chunkIntoSemanticChunks text chunkChars overlapChars =
  chunk_loop (sentences_of text) chunkChars overlapChars
             (length (sentences_of text)) 0 0%Z [].
Proof.
  unfold chunkIntoSemanticChunks, chunkIntoSemanticChunks_fuel, sentences_of.
  destruct (normalizeTextForExtraction text) eqn:E; reflexivity.
Qed.


(** C1, as stated, fails: with [chunkChars = 50] the first chunk of the
    example text is not the first sentence alone. *)
Lemma C1_first_chunk_is_not_sentence1 :
  ~ exists c rest,
      chunkIntoSemanticChunks demo_text 50 10 = Some (c :: rest)
      /\ text c = demo_sentence1.
Proof.
  intros (c & rest & H & Ht).
  vm_compute in H. inversion H; subst c. vm_compute in Ht. discriminate.
Qed.

(** C1 (amended): for the example text with [chunkChars = 50] and
    [overlapChars = 10] the chunker returns exactly one chunk.  Its body is
    both sentences joined by a space, it spans sentences 0 to 1 and
    characters 0 to 84: after the first sentence the running length is
    47 + 1 = 48, still below 50, so the second sentence is appended. *)
Theorem C1_example_single_chunk :
  chunkIntoSemanticChunks demo_text 50 10 =
  Some [mkChunk (of_string "0-84")
                (demo_sentence1 ++ [SP] ++ demo_sentence2) 0 1 0 84]
  /\ (Js.len demo_sentence1 + 1 < 50)%Z.
Proof. split; vm_compute; reflexivity. Qed.

(** With a budget the first sentence reaches ([chunkChars = 48]) the
    text is cut after it; the second chunk starts at sentence 1 and its
    character cursor is moved back by the ten characters of overlap. *)
Example example_two_chunks :
  chunkIntoSemanticChunks demo_text 48 10 =
  Some [mkChunk (of_string "0-47") demo_sentence1 0 0 0 47;
        mkChunk (of_string "37-73") demo_sentence2 1 1 37 73].
Proof. vm_compute. reflexivity. Qed.

(** C4, as stated, fails: two chunks may share their [startChar]. *)
Lemma C4_startChar_not_strict :
  exists c1 c2,
    chunkIntoSemanticChunks (of_string "A. B.") 3 2 = Some [c1; c2]
    /\ startChar c1 = startChar c2.
Proof. eexists; eexists; split; vm_compute; reflexivity. Qed.

(** C4 (amended): each chunk's [startChar] is the previous chunk's
    [startChar] plus [max(0, length of the previous chunk body -
    overlapChars)]; so the [startChar] values of the produced chunks never
    decrease, and they strictly increase whenever
    [overlapChars + 1 < chunkChars]. *)
Theorem C4_startChar_monotone (text : str) (chunkChars overlapChars : Z) :
  exists chunks,
    chunkIntoSemanticChunks text chunkChars overlapChars = Some chunks
    /\ Sorted (advances overlapChars) chunks
    /\ Sorted Z.le (map startChar chunks)
    /\ ((overlapChars + 1 < chunkChars)%Z -> Sorted Z.lt (map startChar chunks)).
Proof.
  rewrite chunker_unfold.
  set (ss := sentences_of text).
  destruct (@chunk_loop_total ss chunkChars overlapChars (length ss) 0 0%Z []
              ltac:(lia)) as [out Hout].
  exists out. split; [exact Hout|]. split; [|split].
  - destruct (@chunk_loop_invariant ss chunkChars overlapChars
      (fun idx cp cs =>
         Sorted (advances overlapChars) cs
         /\ (forall d, cs <> [] -> idx < length ss ->
               cp = (startChar (last cs d)
                     + Z.max 0 (Js.len (Extractors.text (last cs d))
                                - overlapChars))%Z)))
      with (fuel := length ss) (idx := 0) (cp := 0%Z)
           (cs := @nil Chunk) (out := out) as (i & cp & [HS _] & _); auto.
    + intros idx cp cs c idx' cp' [HS Hlast] Hlt Hstep.
      step_facts Hlt Hstep.
      split.
      * apply Sorted_snoc_last; [exact HS|]. intros d Hne'.
        unfold advances. rewrite Hsc. apply Hlast; assumption.
      * intros d _ Hlt'. rewrite last_last.
        assert (L : e < length ss) by lia.
        destruct (Hmid L) as [_ ->]. rewrite Hsc. reflexivity.
    + split; [constructor|]. intros d H. congruence.
  - destruct (@chunk_loop_invariant ss chunkChars overlapChars
      (fun idx cp cs => Sorted Z.le (map startChar cs)
                        /\ forall c, In c cs -> (startChar c <= cp)%Z))
      with (fuel := length ss) (idx := 0) (cp := 0%Z)
           (cs := @nil Chunk) (out := out) as (i & cp & [HS _] & _); auto.
    + intros idx cp cs c idx' cp' [HS Hle] Hlt Hstep.
      step_facts Hlt Hstep.
      split.
      * rewrite map_app. apply Sorted_snoc; [exact HS|].
        intros x Hx. apply in_map_iff in Hx. destruct Hx as (c0 & <- & Hc0).
        rewrite Hsc. auto.
      * assert (Hcp : (cp <= cp')%Z).
        { destruct (Nat.lt_ge_cases e (length ss)) as [L|L].
          - destruct (Hmid L) as [_ ->]. lia.
          - destruct (Hend ltac:(lia)) as [_ ->]. rewrite Hec.
            unfold Js.len. lia. }
        intros c0 Hc0. apply in_app_iff in Hc0. destruct Hc0 as [Hc0|[<-|[]]].
        -- specialize (Hle _ Hc0). lia.
        -- lia.
    + split; [constructor|]. intros c [].
  - intros Hgap.
    destruct (@chunk_loop_invariant ss chunkChars overlapChars
      (fun idx cp cs => Sorted Z.lt (map startChar cs)
                        /\ (idx < length ss ->
                            forall c, In c cs -> (startChar c < cp)%Z)))
      with (fuel := length ss) (idx := 0) (cp := 0%Z)
           (cs := @nil Chunk) (out := out) as (i & cp & [HS _] & _); auto.
    + intros idx cp cs c idx' cp' [HS Hle] Hlt Hstep.
      step_facts Hlt Hstep.
      split.
      * rewrite map_app. apply Sorted_snoc; [exact HS|].
        intros x Hx. apply in_map_iff in Hx. destruct Hx as (c0 & <- & Hc0).
        rewrite Hsc. auto.
      * intros Hlt'.
        assert (L : e < length ss).
        { destruct (Nat.lt_ge_cases e (length ss)) as [L|L]; [exact L|].
          destruct (Hend ltac:(lia)) as [-> _]. lia. }
        destruct (Hmid L) as [Hbig ->].
        intros c0 Hc0. apply in_app_iff in Hc0. destruct Hc0 as [Hc0|[<-|[]]].
        -- specialize (Hle Hlt _ Hc0). lia.
        -- lia.
    + split; [constructor|]. intros _ c [].
Qed.

(** C4 (amended) at the example text: the second chunk starts at
    [0 + max(0, 47 - 10)]. *)
Lemma C4_startChar_monotone_witness :
  exists chunks,
    chunkIntoSemanticChunks demo_text 48 10 = Some chunks
    /\ Sorted (advances 10) chunks
    /\ Sorted Z.lt (map startChar chunks).
Proof.
  destruct (C4_startChar_monotone demo_text 48 10)
    as (chunks & H1 & H2 & _ & H4).
  exists chunks. split; [exact H1|]. split; [exact H2|]. apply H4. lia.
Defined.

(** C5: when [overlapChars < chunkChars], every sentence index below the
    number of sentences lies in the sentence range of a produced chunk. *)
Theorem C5_chunk_coverage (text : str) (chunkChars overlapChars : Z) :
  (overlapChars < chunkChars)%Z ->
  exists chunks,
    chunkIntoSemanticChunks text chunkChars overlapChars = Some chunks
    /\ forall i, i < length (sentences_of text) ->
         exists c, In c chunks /\ startSentence c <= i <= endSentence c.
Proof.
  intros _. rewrite chunker_unfold.
  set (ss := sentences_of text).
  destruct (@chunk_loop_total ss chunkChars overlapChars (length ss) 0 0%Z []
              ltac:(lia)) as [out Hout].
  exists out. split; [exact Hout|].
  destruct (@chunk_loop_invariant ss chunkChars overlapChars
    (fun idx cp cs => forall i, i < idx ->
       exists c, In c cs /\ startSentence c <= i <= endSentence c))
    with (fuel := length ss) (idx := 0) (cp := 0%Z)
         (cs := @nil Chunk) (out := out) as (j & cp & Hcov & Hj); auto.
  - intros idx cp cs c idx' cp' Hcov Hlt Hstep i Hi.
    step_facts Hlt Hstep.
    destruct (Nat.lt_ge_cases i idx) as [L|L].
    + destruct (Hcov i L) as (c0 & Hc0 & Hr).
      exists c0. split; [apply in_app_iff; auto|exact Hr].
    + exists c. split; [apply in_app_iff; right; left; reflexivity|]. lia.
  - intros i Hi. lia.
  - intros i Hi. apply Hcov. lia.
Qed.

(** C5 at the example text. *)
Lemma C5_chunk_coverage_witness :
  (10 < 48)%Z /\
  exists chunks,
    chunkIntoSemanticChunks demo_text 48 10 = Some chunks
    /\ forall i, i < length (sentences_of demo_text) ->
         exists c, In c chunks /\ startSentence c <= i <= endSentence c.
Proof. split; [lia | apply (@C5_chunk_coverage demo_text 48 10); lia]. Defined.

(** C7: the chunker returns a chunk list for every text and every pair of
    parameters, within as many iterations as there are sentences (and more
    iterations give the same list); each iteration of its loop leaves the
    sentence cursor strictly above the iteration's starting sentence, and
    the starting sentences of consecutive chunks strictly increase. *)
Theorem C7_chunker_terminates (text : str) (chunkChars overlapChars : Z) :
  (forall idx charPos,
      idx < length (sentences_of text) ->
      idx < snd (fst (chunk_step (sentences_of text) chunkChars overlapChars
                                 idx charPos)))
  /\ exists chunks,
       chunkIntoSemanticChunks text chunkChars overlapChars = Some chunks
       /\ (forall fuel, length (sentences_of text) <= fuel ->
             chunkIntoSemanticChunks_fuel fuel text chunkChars overlapChars
             = Some chunks)
       /\ Sorted lt (map startSentence chunks).
Proof.
  split.
  - intros idx cp Hlt.
    destruct (chunk_step (sentences_of text) chunkChars overlapChars idx cp)
      as [[c idx'] cp'] eqn:Hstep.
    step_facts Hlt Hstep. simpl. lia.
  - rewrite chunker_unfold.
    set (ss := sentences_of text).
    destruct (chunk_loop_total ss chunkChars overlapChars (length ss) 0 0%Z []
                ltac:(lia)) as [out Hout].
    exists out. split; [exact Hout|]. split.
    { intros fuel Hfuel. unfold chunkIntoSemanticChunks_fuel.
      fold (sentences_of text). fold ss.
      destruct (normalizeTextForExtraction text) eqn:E.
      - assert (Hss : ss = []) by (unfold ss, sentences_of; rewrite E; reflexivity).
        rewrite Hss in Hout. simpl in Hout. exact Hout.
      - eapply chunk_loop_more_fuel; eauto. }
    destruct (chunk_loop_invariant ss chunkChars overlapChars
      (fun idx cp cs => Sorted lt (map startSentence cs)
                        /\ forall c, In c cs -> startSentence c < idx))
      with (fuel := length ss) (idx := 0) (cp := 0%Z)
           (cs := @nil Chunk) (out := out) as (j & cp & [HS _] & _); auto.
    + intros idx cp cs c idx' cp' [HS Hb] Hlt Hstep.
      step_facts Hlt Hstep.
      split.
      * rewrite map_app. apply Sorted_snoc; [exact HS|].
        intros x Hx. apply in_map_iff in Hx. destruct Hx as (c0 & <- & Hc0).
        rewrite Hss. auto.
      * intros c0 Hc0. apply in_app_iff in Hc0. destruct Hc0 as [Hc0|[<-|[]]].
        -- specialize (Hb _ Hc0). lia.
        -- lia.
    + split; [constructor|]. intros c [].
Qed.

(** C7 at the example text, with the overlap above the budget. *)
Lemma C7_chunker_terminates_witness :
  0 < snd (fst (chunk_step (sentences_of demo_text) 10 50 0 0%Z))
  /\ exists chunks,
       chunkIntoSemanticChunks_fuel 7 demo_text 10 50 = Some chunks
       /\ Sorted lt (map startSentence chunks).
Proof.
  destruct (C7_chunker_terminates demo_text 10 50) as (H1 & chunks & _ & H2 & H3).
  split.
  - apply H1. vm_compute. lia.
  - exists chunks. split; [apply H2; vm_compute; lia|exact H3].
Defined.

(* ----------------------------------------------------------------- *)
(** ** The normalizer *)


Lemma tidy_collapse_ws (t : str) : forall b, tidy b (collapse_ws b t) = true.
Proof.
  induction t as [|c r IH]; intros b; simpl; [reflexivity|].
  destruct (is_ws c) eqn:W.
  - destruct b; [apply IH|]. simpl. apply IH.
  - simpl. rewrite W. apply IH.
Qed.

Lemma tidy_weaken (t : str) : tidy true t = true -> tidy false t = true.
Proof.
  destruct t as [|c r]; simpl; [reflexivity|].
  destruct (is_ws c); [|auto]. rewrite andb_false_r. discriminate.
Qed.

Lemma tidy_trimStart (t : str) :
  tidy false t = true -> tidy true (trimStart t) = true.
Proof.
  destruct t as [|c r]; simpl; [reflexivity|].
  destruct (is_ws c) eqn:W; [|simpl; rewrite W; auto].
  intros H. apply andb_true_iff in H. destruct H as [_ H].
  destruct r as [|d r]; simpl in *; [reflexivity|].
  destruct (is_ws d) eqn:W'; [|simpl; rewrite W'; exact H].
  rewrite andb_false_r in H. discriminate.
Qed.

Lemma trimStart_tidy (t : str) : tidy true t = true -> trimStart t = t.
Proof.
  destruct t as [|c r]; simpl; [reflexivity|].
  destruct (is_ws c); [|reflexivity]. rewrite andb_false_r. discriminate.
Qed.

Lemma tidy_trimEnd (t : str) : forall b,
  tidy b t = true -> tidy b (trimEnd t) = true.
Proof.
  induction t as [|c r IH]; intros b H; simpl in *; [reflexivity|].
  destruct (is_ws c) eqn:W.
  - apply andb_true_iff in H. destruct H as [H1 H2].
    specialize (IH true H2).
    destruct (trimEnd r) as [|d r'] eqn:E; [reflexivity|].
    cbn [tidy]. rewrite W, H1. exact IH.
  - specialize (IH false H).
    destruct (trimEnd r) as [|d r'] eqn:E; cbn [tidy]; rewrite W; auto.
Qed.

Lemma trimEnd_idem (t : str) : trimEnd (trimEnd t) = trimEnd t.
Proof.
  induction t as [|c r IH]; simpl; [reflexivity|].
  destruct (trimEnd r) as [|d r'] eqn:E.
  - destruct (is_ws c) eqn:W; simpl; [reflexivity|]. rewrite W. reflexivity.
  - cbn [trimEnd] in *. rewrite IH. reflexivity.
Qed.

Lemma tidy_ws_is_space (t : str) : forall b c,
  tidy b t = true -> In c t -> is_ws c = true -> c = SP.
Proof.
  induction t as [|a r IH]; intros b c H Hin W; simpl in *; [contradiction|].
  destruct (is_ws a) eqn:Wa.
  - apply andb_true_iff in H. destruct H as [H1 H2].
    apply andb_true_iff in H1. destruct H1 as [H1 _].
    destruct Hin as [<-|Hin]; [apply N.eqb_eq; exact H1|eauto].
  - destruct Hin as [<-|Hin]; [congruence|eauto].
Qed.

(** The steps of the normalizer leave a text without line breaks alone. *)

Lemma replace_crlf_id (t : str) : ~ In CR t -> replace_crlf t = t.
Proof.
  induction t as [|c r IH]; intros H; [reflexivity|].
  cbn [replace_crlf]. destruct r as [|d r']; [reflexivity|].
  destruct (c =? CR)%N eqn:E.
  - apply N.eqb_eq in E. exfalso. apply H. left. auto.
  - simpl andb. cbv iota. rewrite IH; [reflexivity|].
    intros Hin. apply H. right. exact Hin.
Qed.

Lemma replace_cr_id (t : str) : ~ In CR t -> replace_cr t = t.
Proof.
  unfold replace_cr.
  induction t as [|c r IH]; intros H; simpl; [reflexivity|].
  destruct (c =? CR)%N eqn:E.
  - apply N.eqb_eq in E. exfalso. apply H. left. auto.
  - rewrite IH; [reflexivity|]. intros Hin. apply H. right. exact Hin.
Qed.

Lemma remove_hyphenation_id (t : str) :
  ~ In LF t -> remove_hyphenation false t = t.
Proof.
  induction t as [|c r IH]; intros H; [reflexivity|].
  cbn [remove_hyphenation andb]. destruct r as [|d r']; [reflexivity|].
  destruct (d =? LF)%N eqn:E.
  - apply N.eqb_eq in E. exfalso. apply H. right. left. auto.
  - rewrite andb_false_r. rewrite IH; [reflexivity|].
    intros Hin. apply H. right. exact Hin.
Qed.

Lemma squeeze_newlines_id (t : str) : forall k,
  ~ In LF t -> squeeze_newlines k t = t.
Proof.
  induction t as [|c r IH]; intros k H; simpl; [reflexivity|].
  destruct (c =? LF)%N eqn:E.
  - apply N.eqb_eq in E. exfalso. apply H. left. auto.
  - rewrite IH; [reflexivity|]. intros Hin. apply H. right. exact Hin.
Qed.

Lemma newlines_to_spaces_id (t : str) : ~ In LF t -> newlines_to_spaces t = t.
Proof.
  unfold newlines_to_spaces.
  induction t as [|c r IH]; intros H; simpl; [reflexivity|].
  destruct (c =? LF)%N eqn:E.
  - apply N.eqb_eq in E. exfalso. apply H. left. auto.
  - rewrite IH; [reflexivity|]. intros Hin. apply H. right. exact Hin.
Qed.

Lemma collapse_ws_id (t : str) : forall b,
  tidy b t = true -> collapse_ws b t = t.
Proof.
  induction t as [|c r IH]; intros b H; simpl in *; [reflexivity|].
  destruct (is_ws c) eqn:W.
  - apply andb_true_iff in H. destruct H as [H1 H2].
    apply andb_true_iff in H1. destruct H1 as [H1 Hb].
    apply N.eqb_eq in H1. destruct b; [discriminate|].
    rewrite IH by exact H2. congruence.
  - rewrite IH by exact H. reflexivity.
Qed.

(** The shape of every normalizer output. *)
Lemma normalize_shape (x : str) :
  let o := normalizeTextForExtraction x in
  tidy true o = true /\ trimEnd o = o.
Proof.
  unfold normalizeTextForExtraction. destruct x as [|c r]; [split; reflexivity|].
  cbv zeta. unfold trim. split.
  - apply tidy_trimEnd, tidy_trimStart, tidy_collapse_ws.
  - apply trimEnd_idem.
Qed.

Lemma normalize_no_line_break (x : str) :
  ~ In LF (normalizeTextForExtraction x)
  /\ ~ In CR (normalizeTextForExtraction x).
Proof.
  destruct (normalize_shape x) as [H _].
  split; intros Hin;
    pose proof (tidy_ws_is_space _ _ _ H Hin eq_refl) as E; discriminate E.
Qed.

(** C8: the normalizer is idempotent. *)
Theorem C8_normalize_idempotent (x : str) :
  normalizeTextForExtraction (normalizeTextForExtraction x)
  = normalizeTextForExtraction x.
Proof.
  destruct (normalize_shape x) as [Ht He].
  destruct (normalize_no_line_break x) as [Hlf Hcr].
  set (o := normalizeTextForExtraction x) in *.
  unfold normalizeTextForExtraction at 1.
  destruct o as [|c r] eqn:Eo; [reflexivity|]. rewrite <- Eo in *.
  cbv zeta.
  rewrite (replace_crlf_id o Hcr), (replace_cr_id o Hcr).
  rewrite (remove_hyphenation_id o Hlf).
  rewrite (squeeze_newlines_id o 0 Hlf), (newlines_to_spaces_id o Hlf).
  rewrite (collapse_ws_id o false (tidy_weaken o Ht)).
  unfold trim. rewrite (trimStart_tidy o Ht). exact He.
Qed.

(** C3: the normalizer does not keep paragraph boundaries.  No output
    contains a line feed, and a text with a blank line between two words is
    normalized to the same string as with a single line break. *)
Theorem C3_paragraph_break_lost :
  (forall x, ~ In LF (normalizeTextForExtraction x))
  /\ normalizeTextForExtraction [97; LF; LF; 98]%N = of_string "a b"
  /\ normalizeTextForExtraction [97; LF; 98]%N = of_string "a b".
Proof.
  split; [intros x; apply normalize_no_line_break|].
  split; vm_compute; reflexivity.
Qed.

(* ----------------------------------------------------------------- *)
(** ** The header/footer filter *)

Lemma repeats_empty_line (pages : list str) : repeats pages [] = false.
Proof.
  unfold repeats.
  rewrite (proj1 (count_occ_not_In str_eq_dec (boundary_lines pages) [])).
  - reflexivity.
  - unfold boundary_lines. intros H. apply filter_In in H.
    destruct H as [_ H]. discriminate H.
Qed.

Lemma filter_page_lines (pages : list str) (p : str) :
  filter_page (repeats pages) p
  = join [LF] (filter (fun l => negb (repeats pages l)) (trimmed_lines p)).
Proof.
  destruct p as [|c r]; [|reflexivity].
  cbn. rewrite repeats_empty_line. reflexivity.
Qed.

Lemma filter_keeps_all {A : Type} (f : A -> bool) (l : list A) :
  (forall x, In x l -> f x = true) -> filter f l = l.
Proof.
  induction l as [|a l IH]; intros H; simpl; [reflexivity|].
  rewrite (H a) by (left; reflexivity).
  rewrite IH; [reflexivity|]. intros x Hx. apply H. right. exact Hx.
Qed.





(** Two pages without any repeated first or last line are still rewritten. *)
Example demo_pages_trimmed :
  removeHeadersFootersFromPages demo_pages = [ [97; LF; 98]; [99; LF; 100] ]%N
  /\ forallb (fun p => forallb (fun l => negb (repeats demo_pages l))
                               (trimmed_lines p)) demo_pages = true.
Proof. split; vm_compute; reflexivity. Qed.


(* ----------------------------------------------------------------- *)
(** ** Sets of strings *)

Lemma str_eqb_eq (a b : str) : str_eqb a b = true <-> a = b.
Proof.
  unfold str_eqb. destruct (str_eq_dec a b); split; congruence.
Qed.

Lemma has_In (S : list str) (x : str) : has S x = true <-> In x S.
Proof.
  unfold has. rewrite existsb_exists. split.
  - intros (y & Hy & E). apply str_eqb_eq in E. subst. exact Hy.
  - intros H. exists x. split; [exact H|]. apply str_eqb_eq. reflexivity.
Qed.

Lemma set_from_In (l : list str) : forall seen x,
  In x (set_from seen l) -> In x l /\ ~ In x seen.
Proof.
  induction l as [|a l IH]; intros seen x H; simpl in *; [contradiction|].
  destruct (existsb (str_eqb a) seen) eqn:E.
  - apply IH in H. tauto.
  - destruct H as [<-|H].
    + split; [auto|]. intros Hin. apply (has_In seen a) in Hin.
      unfold has in Hin. congruence.
    + apply IH in H. simpl in H. tauto.
Qed.

Lemma set_from_length (l : list str) : forall seen,
  length (set_from seen l) <= length l.
Proof.
  induction l as [|a l IH]; intros seen; simpl; [lia|].
  destruct (existsb (str_eqb a) seen); simpl.
  - specialize (IH seen). lia.
  - specialize (IH (a :: seen)). lia.
Qed.

Lemma set_from_all_seen (l : list str) : forall seen,
  (forall x, In x l -> In x seen) -> set_from seen l = [].
Proof.
  induction l as [|a l IH]; intros seen H; simpl; [reflexivity|].
  assert (E : existsb (str_eqb a) seen = true).
  { apply (has_In seen a). apply H. left. reflexivity. }
  rewrite E. apply IH. intros x Hx. apply H. right. exact Hx.
Qed.

(** Reading a list and then a second one: the second is filtered against
    everything seen so far. *)
Lemma set_from_app (l1 l2 : list str) : forall seen,
  exists seen',
    set_from seen (l1 ++ l2) = set_from seen l1 ++ set_from seen' l2
    /\ forall x, In x seen' <-> In x seen \/ In x l1.
Proof.
  induction l1 as [|a l1 IH]; intros seen; simpl.
  - exists seen. split; [reflexivity|]. intros x. tauto.
  - destruct (existsb (str_eqb a) seen) eqn:E.
    + destruct (IH seen) as (s' & H1 & H2). exists s'. split; [exact H1|].
      intros x. rewrite H2. split; [tauto|]. intros [H|[<-|H]]; auto.
      left. apply (has_In seen a). exact E.
    + destruct (IH (a :: seen)) as (s' & H1 & H2). exists s'.
      split; [rewrite H1; reflexivity|].
      intros x. rewrite H2. simpl. tauto.
Qed.

Lemma Set_of_nonempty (l : list str) : l <> [] -> Set_of l <> [].
Proof. destruct l; [congruence|]. intros _. cbn. congruence. Qed.

(* ----------------------------------------------------------------- *)
(** ** The similarity engine and the grader *)

(** A list compared with itself: the Jaccard ratio is at least one. *)
Lemma jaccard_self (a : list str) :
  a <> [] -> exists r, jaccard a a = Fin r /\ (1 <= r)%R.
Proof.
  intros Ha. unfold jaccard.
  assert (Hi : inter_size a a = length (Set_of a)).
  { unfold inter_size. rewrite filter_keeps_all; [reflexivity|].
    intros x Hx. apply has_In. exact Hx. }
  assert (Hu0 : union_size a a = length (set_from [] (Set_of a))).
  { unfold union_size. unfold Set_of at 1.
    destruct (set_from_app (Set_of a) (Set_of a) []) as (s' & -> & Hs').
    rewrite (set_from_all_seen (Set_of a) s') by (intros x Hx; apply Hs'; auto).
    rewrite app_nil_r. reflexivity. }
  assert (Hu : union_size a a <= length (Set_of a) /\ union_size a a <> 0).
  { rewrite Hu0. split; [apply set_from_length|].
    pose proof (Set_of_nonempty _ (Set_of_nonempty _ Ha)) as Hne.
    unfold Set_of at 1 in Hne.
    destruct (set_from [] (Set_of a)); [congruence|simpl; lia]. }
  destruct Hu as [Hu1 Hu2].
  destruct (union_size a a =? 0) eqn:E; [apply Nat.eqb_eq in E; congruence|].
  eexists. split; [reflexivity|]. rewrite Hi. apply round64_ge_1.
  assert (0 < INR (union_size a a))%R by (apply lt_0_INR; lia).
  apply (Rmult_le_reg_r (INR (union_size a a))); [assumption|].
  unfold Rdiv. rewrite Rmult_assoc, Rinv_l, Rmult_1_r, Rmult_1_l by lra.
  apply le_INR. exact Hu1.
Qed.

Lemma vocabulary_In (a b : list str) (x : str) :
  In x (vocabulary a b) -> In x a \/ In x b.
Proof.
  unfold vocabulary, Set_of. intros H.
  apply set_from_In in H. destruct H as [H _].
  apply in_app_iff in H. destruct H as [H|H]; apply set_from_In in H; tauto.
Qed.

Lemma cosineSim_finite (a b : list str) :
  ~ In constructor_word a -> ~ In constructor_word b ->
  exists r, cosineSim a b = Fin r.
Proof.
  intros Ha Hb. unfold cosineSim.
  destruct (has (vocabulary a b) constructor_word) eqn:E.
  - apply has_In, vocabulary_In in E. tauto.
  - destruct ((norm2 a (vocabulary a b) =? 0) || (norm2 b (vocabulary a b) =? 0));
      eauto.
Qed.

Lemma or_zero_finite (a : num) : exists r, or_zero a = Fin r.
Proof. destruct a; simpl; eauto. Qed.

(** The maximum of a list of finite numbers is finite and bounds each. *)
Lemma fold_Math_max_bounds (l : list num) : forall x,
  (forall y, In y (x :: l) -> exists r, y = Fin r) ->
  exists m, fold_left Math_max l x = Fin m
            /\ forall r, In (Fin r) (x :: l) -> (r <= m)%R.
Proof.
  induction l as [|a l IH]; intros x H.
  - destruct (H x (or_introl eq_refl)) as (r & ->).
    exists r. split; [reflexivity|]. intros r' [E|[]]. inversion E. lra.
  - destruct (H x (or_introl eq_refl)) as (rx & ->).
    destruct (H a (or_intror (or_introl eq_refl))) as (ra & ->).
    simpl. destruct (IH (Fin (Rmax rx ra))) as (m & Hm & Hb).
    { intros y [<-|Hy]; [eauto|]. apply H. right. right. exact Hy. }
    exists m. split; [exact Hm|].
    pose proof (Hb _ (or_introl eq_refl)) as H0.
    intros r [E|[E|Hr]].
    + inversion E; subst. pose proof (Rmax_l r ra). lra.
    + inversion E; subst. pose proof (Rmax_r rx r). lra.
    + apply Hb. right. exact Hr.
Qed.

Lemma trimEnd_nil_all_ws (s : str) : trimEnd s = [] -> forallb is_ws s = true.
Proof.
  induction s as [|c r IH]; simpl; [reflexivity|].
  destruct (trimEnd r) eqn:E; [|discriminate].
  destruct (is_ws c); [|discriminate]. intros _. apply IH. reflexivity.
Qed.

Lemma trimStart_all_ws (s : str) : forallb is_ws s = true -> trimStart s = [].
Proof.
  induction s as [|c r IH]; simpl; [reflexivity|].
  destruct (is_ws c); simpl; [exact IH|discriminate].
Qed.

Lemma trimStart_suffix_ws (s : str) :
  forallb is_ws (trimStart s) = true -> forallb is_ws s = true.
Proof.
  induction s as [|c r IH]; simpl; [reflexivity|].
  destruct (is_ws c) eqn:W; simpl; [exact IH|]. rewrite W. discriminate.
Qed.

Lemma trim_nil_all_ws (s : str) : trim s = [] -> forallb is_ws s = true.
Proof.
  unfold trim. intros H. apply trimStart_suffix_ws, trimEnd_nil_all_ws, H.
Qed.

Lemma lower_unit_ws (c : N) : is_ws c = true -> lower_unit c = [c].
Proof.
  intros W. unfold is_ws in W.
  rewrite !orb_true_iff, !andb_true_iff, !N.leb_le, !N.eqb_eq in W.
  unfold lower_unit.
  repeat match goal with
         | |- context [(?x <=? ?y)%N] => destruct (N.leb_spec x y)
         | |- context [(?x =? ?y)%N] => destruct (N.eqb_spec x y)
         end; simpl; try reflexivity; exfalso; lia.
Qed.

Lemma toLowerCase_blank (s : str) :
  forallb is_ws s = true -> toLowerCase s = s.
Proof.
  unfold toLowerCase. induction s as [|c r IH]; simpl; [reflexivity|].
  intros H. apply andb_true_iff in H. destruct H as [W H].
  rewrite (lower_unit_ws c W), IH by exact H. reflexivity.
Qed.

Lemma strip_blank (s : str) : forallb is_ws s = true -> strip s = s.
Proof.
  unfold strip, keeps. induction s as [|c r IH]; simpl; [reflexivity|].
  intros H. apply andb_true_iff in H. destruct H as [W H].
  rewrite W, orb_true_r, IH by exact H. reflexivity.
Qed.

Lemma collapse_ws_blank (s : str) :
  forallb is_ws s = true -> forall b, trimStart (collapse_ws b s) = [].
Proof.
  induction s as [|c r IH]; simpl; [reflexivity|].
  intros H b. apply andb_true_iff in H. destruct H as [W H].
  rewrite W. destruct b; [apply IH; exact H|].
  simpl. change (is_ws SP) with true. cbv iota. apply IH. exact H.
Qed.

(** A response made of whitespace only has no words. *)
Lemma words_of_blank (s : str) : trim s = [] -> words s = [].
Proof.
  intros H. apply trim_nil_all_ws in H.
  unfold words, normalizeText, trim.
  rewrite (toLowerCase_blank s H), (strip_blank s H), (collapse_ws_blank s H).
  reflexivity.
Qed.

Lemma combine_map_map {A B C : Type} (g : A -> B) (h : A -> C) (l : list A) :
  combine (map g l) (map h l) = map (fun x => (g x, h x)) l.
Proof. induction l as [|a l IH]; simpl; [reflexivity|]. rewrite IH. reflexivity. Qed.


Lemma semanticMatchScore_unfold (response : str) (expected : list str) :
  words response <> [] -> expected <> [] ->
  semanticMatchScore response expected
  = Math_max_list (map (combined_score response) expected).
Proof.
  intros Hw He. unfold semanticMatchScore.
  assert (G : nonempty (trim response) = true).
  { destruct (trim response) eqn:E; [|reflexivity].
    apply words_of_blank in E. congruence. }
  assert (G' : nonempty response = true).
  { destruct response; [|reflexivity]. discriminate G. }
  rewrite G, G'. simpl negb. simpl orb. cbv iota.
  destruct expected as [|e es]; [congruence|].
  change (length (e :: es) =? 0) with false. cbv iota.
  rewrite combine_map_map, map_map. reflexivity.
Qed.

Lemma combined_score_finite (response e : str) :
  exists r, combined_score response e = Fin r.
Proof.
  unfold combined_score.
  destruct (or_zero_finite (semanticSimilarity response e)) as (x & ->).
  destruct (or_zero_finite (bigramJaccard (bigrams response) (bigrams e)))
    as (y & ->).
  simpl. eauto.
Qed.

Lemma bigrams_words (s : str) : bigrams s <> [] -> words s <> [].
Proof. unfold bigrams. intros H E. rewrite E in H. apply H. reflexivity. Qed.

Lemma tokens_words (s : str) : tokens s <> [] -> words s <> [].
Proof. unfold tokens. intros H E. rewrite E in H. apply H. reflexivity. Qed.

(** A response compared with itself. *)
Lemma combined_score_self (r : str) :
  (tokens r <> [] /\ ~ In constructor_word (tokens r)) \/ bigrams r <> [] ->
  exists v, combined_score r r = Fin v /\ (1 <= v)%R.
Proof.
  intros [[Ht Hc]|Hb]; unfold combined_score.
  - unfold semanticSimilarity.
    destruct (tokens r) as [|t ts] eqn:E; [congruence|].
    change ((length (t :: ts) =? 0) || (length (t :: ts) =? 0)) with false.
    cbv iota.
    destruct (jaccard_self (t :: ts) Ht) as (j & -> & Hj).
    destruct (cosineSim_finite (t :: ts) (t :: ts) Hc Hc) as (c & ->).
    destruct (or_zero_finite (bigramJaccard (bigrams r) (bigrams r))) as (b & ->).
    simpl. eexists. split; [reflexivity|].
    pose proof (Rmax_l (Rmax j c) b). pose proof (Rmax_l j c). lra.
  - unfold bigramJaccard.
    destruct (jaccard_self (bigrams r) Hb) as (j & -> & Hj).
    destruct (or_zero_finite (semanticSimilarity r r)) as (t & ->).
    simpl. eexists. split; [reflexivity|].
    pose proof (Rmax_r t j). lra.
Qed.

Lemma Int_part_half : Int_part (/ 2) = 0%Z.
Proof.
  unfold Int_part. rewrite <- (tech_up (/ 2) 1); [reflexivity| |]; simpl; lra.
Qed.

Lemma num_geb_true (x y : R) : (y <= x)%R -> num_geb (Fin x) (Fin y) = true.
Proof. intros H. simpl. destruct (Rle_dec y x); [reflexivity|contradiction]. Qed.

Lemma num_geb_false (x y : R) : (x < y)%R -> num_geb (Fin x) (Fin y) = false.
Proof. intros H. simpl. destruct (Rle_dec y x); [lra|reflexivity]. Qed.

(** The threshold [0.6] is the binary64 value just below six tenths. *)
Lemma threshold_value :
  threshold = Fin (5404319552844595 / 9007199254740992).
Proof. unfold threshold, literal. rewrite round64_six_tenths. reflexivity. Qed.

(** No points for a score of zero. *)
Lemma awarded_for_zero (points : R) :
  Math_max (Fin 0) (Math_round (num_mul (or_zero (Fin 0)) (Fin points))) = Fin 0.
Proof.
  simpl. rewrite Rmult_0_l, round64_0, Rplus_0_l, Int_part_half.
  rewrite Rmax_left by (simpl; lra). reflexivity.
Qed.


(** C2, as stated, fails: a response identical to the expected answer
    [the] is scored 0 and is not classified correct. *)
Lemma C2_identical_stopword_scored_zero :
  In the_word [the_word]
  /\ semanticMatchScore the_word [the_word] = Fin 0
  /\ semanticMatchScore the_word [the_word] <> Fin 1
  /\ fst (handleQuizFinish_written the_word [the_word] 1) = false.
Proof.
  assert (E : semanticMatchScore the_word [the_word] = Fin 0).
  { unfold semanticMatchScore.
    replace (negb (nonempty the_word) || negb (nonempty (trim the_word)))
      with false by (vm_compute; reflexivity).
    cbv iota. change (length [the_word] =? 0) with false. cbv iota.
    unfold semanticSimilarity, bigramJaccard, jaccard.
    replace (tokens the_word) with (@nil str) by (vm_compute; reflexivity).
    replace (bigrams the_word) with (@nil str) by (vm_compute; reflexivity).
    change (union_size [] [] =? 0) with true.
    simpl. rewrite Rmax_left by lra. reflexivity. }
  split; [left; reflexivity|]. split; [exact E|]. split.
  - rewrite E. intros H. inversion H. lra.
  - unfold handleQuizFinish_written. rewrite E, threshold_value. simpl fst.
    apply num_geb_false. lra.
Qed.

(** C2 (amended): for every list of expected answers and every number of
    points, a response equal to one of the expected answers, and which has
    a token other than [constructor] left after stopword removal or has at
    least two words, receives a score of at least 1 and is classified
    correct; the empty response receives score 0, is classified incorrect
    and is awarded 0 points. *)
Theorem C2_grading_boundary (expected : list str) (points : R) :
  (forall resp,
      In resp expected ->
      (tokens resp <> [] /\ ~ In constructor_word (tokens resp))
      \/ bigrams resp <> [] ->
      exists s, semanticMatchScore resp expected = Fin s /\ (1 <= s)%R
                /\ fst (handleQuizFinish_written resp expected points) = true)
  /\ semanticMatchScore [] expected = Fin 0
  /\ handleQuizFinish_written [] expected points = (false, Fin 0).
Proof.
  split.
  - intros resp Hin Hself.
    assert (Hw : words resp <> []).
    { destruct Hself as [[Ht _]|Hb];
        [apply tokens_words|apply bigrams_words]; assumption. }
    assert (He : expected <> []) by (intros ->; contradiction).
    assert (S : exists s, semanticMatchScore resp expected = Fin s /\ (1 <= s)%R).
    { rewrite (semanticMatchScore_unfold resp expected Hw He).
      destruct (combined_score_self resp Hself) as (v & Hv & Hv1).
      assert (Hmem : In (Fin v) (map (combined_score resp) expected)).
      { rewrite <- Hv. apply in_map. exact Hin. }
      destruct (map (combined_score resp) expected) as [|x l] eqn:M;
        [contradiction|].
      destruct (fold_Math_max_bounds l x) as (m & Hm & Hb).
      { intros y Hy. rewrite <- M in Hy. apply in_map_iff in Hy.
        destruct Hy as (e & <- & _). apply combined_score_finite. }
      exists m. split; [exact Hm|]. specialize (Hb v Hmem). lra. }
    destruct S as (s & Hs & Hs1). exists s. split; [exact Hs|].
    split; [exact Hs1|].
    unfold handleQuizFinish_written. rewrite Hs, threshold_value. simpl fst.
    apply num_geb_true. lra.
  - assert (E : semanticMatchScore [] expected = Fin 0) by reflexivity.
    split; [exact E|]. unfold handleQuizFinish_written.
    rewrite E, threshold_value, awarded_for_zero.
    rewrite num_geb_false by lra. reflexivity.
Qed.

(** C2 (amended) at the answer [cat], and at the expected list [[the]] for
    the empty response. *)
Lemma C2_grading_boundary_witness :
  (exists s, semanticMatchScore cat_word [cat_word] = Fin s /\ (1 <= s)%R
             /\ fst (handleQuizFinish_written cat_word [cat_word] 1) = true)
  /\ semanticMatchScore [] [the_word] = Fin 0
  /\ handleQuizFinish_written [] [the_word] 1 = (false, Fin 0).
Proof.
  split.
  - apply (proj1 (C2_grading_boundary [cat_word] 1)).
    + left. reflexivity.
    + left. split.
      * vm_compute. discriminate.
      * vm_compute. intros [H|[]]. discriminate H.
  - apply (proj2 (C2_grading_boundary [the_word] 1)).
Defined.

(* ----------------------------------------------------------------- *)
(** ** Bigrams *)

Lemma bigram_loop (parts : list str) :
  map (fun i => nth i parts [] ++ [SP] ++ nth (i + 1) parts [])
      (seq 0 (length parts - 1))
  = adjacent_pairs parts.
Proof.
  induction parts as [|a parts IH]; [reflexivity|].
  destruct parts as [|b parts]; [reflexivity|].
  replace (length (a :: b :: parts) - 1) with (S (length parts))
    by (simpl; lia).
  replace (length (b :: parts) - 1) with (length parts) in IH
    by (simpl; lia).
  rewrite <- cons_seq, <- seq_shift, map_cons, map_map.
  change (adjacent_pairs (a :: b :: parts))
    with ((a ++ [SP] ++ b) :: adjacent_pairs (b :: parts)).
  rewrite <- IH. reflexivity.
Qed.

(** C6, as stated, fails: for the response and expected answer [the cat]
    the bigram signal of the grader is 1, while the Jaccard similarity of
    the adjacent pairs of their tokens is 0 (there is a single token). *)
Lemma C6_bigrams_keep_stopwords :
  let s := of_string "the cat" in
  bigrams s = [s]
  /\ adjacent_pairs (tokens s) = []
  /\ bigramJaccard (bigrams s) (bigrams s)
     <> jaccard (adjacent_pairs (tokens s)) (adjacent_pairs (tokens s)).
Proof.
  cbv zeta.
  assert (B : bigrams (of_string "the cat") = [of_string "the cat"])
    by (vm_compute; reflexivity).
  assert (T : adjacent_pairs (tokens (of_string "the cat")) = [])
    by (vm_compute; reflexivity).
  split; [exact B|]. split; [exact T|].
  rewrite B, T. unfold bigramJaccard, jaccard.
  change (union_size [] [] =? 0) with true. cbv iota.
  replace (union_size [of_string "the cat"] [of_string "the cat"]) with 1
    by (vm_compute; reflexivity).
  replace (inter_size [of_string "the cat"] [of_string "the cat"]) with 1
    by (vm_compute; reflexivity).
  simpl. replace (1 / 1)%R with 1%R by lra. rewrite round64_1.
  intros H. inversion H. lra.
Qed.

(** C6 (amended): the bigram signal is the Jaccard similarity of the
    adjacent pairs of the normalized words of the two texts (lowercased,
    non-alphanumerics replaced by spaces, whitespace collapsed) with the
    stopwords still in place; only the single-token Jaccard and cosine
    signals work on the words left after the stopwords are removed. *)
Theorem C6_bigrams_over_normalized_words (a b : str) :
  bigramJaccard (bigrams a) (bigrams b)
  = jaccard (adjacent_pairs (words a)) (adjacent_pairs (words b))
  /\ tokens a = filter (fun t => negb (has stop t)) (words a)
  /\ (tokens a <> [] -> tokens b <> [] ->
      semanticSimilarity a b
      = Math_max (jaccard (tokens a) (tokens b)) (cosineSim (tokens a) (tokens b))).
Proof.
  split; [|split].
  - unfold bigramJaccard, bigrams. rewrite !bigram_loop. reflexivity.
  - reflexivity.
  - intros Ha Hb. unfold semanticSimilarity.
    destruct (tokens a); [congruence|]. destruct (tokens b); [congruence|].
    reflexivity.
Qed.

(** C6 (amended) at the answer [cat]. *)
Lemma C6_bigrams_witness :
  semanticSimilarity cat_word cat_word
  = Math_max (jaccard (tokens cat_word) (tokens cat_word))
             (cosineSim (tokens cat_word) (tokens cat_word)).
Proof.
  apply (proj2 (proj2 (C6_bigrams_over_normalized_words cat_word cat_word)));
    vm_compute; discriminate.
Defined.

(* ----------------------------------------------------------------- *)
(** ** Distractor selection *)


(** Two phrases of two tokens each that share one token.  The Jaccard
    ratio is the binary64 value nearest to 1/3.  The cosine
    [1 / (Math.sqrt(2) * Math.sqrt(2))] is not one half: the product of
    the two rounded roots is 2.0000000000000004, and the quotient comes
    out as 0.4999999999999999, one unit in the last place below 1/2. *)
Lemma sim_one_shared_of_two (a b : str) :
  sim_profile a b = (false, false, false, (1, 3), (1, 2, 2)) ->
  semanticSimilarity a b = Fin (4503599627370495 / 9007199254740992).
Proof.
  unfold sim_profile. intros H. injection H as H1 H2 H3 H4 H5 H6 H7 H8.
  unfold semanticSimilarity, jaccard, cosineSim.
  rewrite H1, H2, H3, H4, H5, H6, H7, H8.
  cbn [orb Nat.eqb Math_max]. cbv zeta.
  replace (INR 1) with 1%R by (simpl; lra).
  replace (INR 2) with 2%R by (simpl; lra).
  replace (INR 3) with 3%R by (simpl; lra).
  rewrite round64_third, round64_sqrt_2.
  assert (P : round64 (6369051672525773 / 4503599627370496
                       * (6369051672525773 / 4503599627370496))
              = (4503599627370497 / 2251799813685248)%R)
    by (round64_value 1%Z 4503599627370497%Z).
  rewrite P.
  assert (Q : round64 (1 / (4503599627370497 / 2251799813685248))
              = (4503599627370495 / 9007199254740992)%R)
    by (round64_value (-2)%Z 9007199254740990%Z).
  rewrite Q. f_equal. apply Rmax_right. lra.
Qed.


Lemma scores_retrieved :
  Forall (fun p => semanticSimilarity new_york p
                   = Fin (4503599627370495 / 9007199254740992))
         (retrieved_phrases ++ document_phrases).
Proof.
  repeat constructor; apply sim_one_shared_of_two; vm_compute; reflexivity.
Qed.

Lemma insert_desc_In (x a : str * num) (l : list (str * num)) :
  In x (insert_desc a l) <-> x = a \/ In x l.
Proof.
  induction l as [|y r IH]; simpl.
  - intuition congruence.
  - destruct (num_geb (snd a) (snd y)); simpl; [intuition congruence|].
    rewrite IH. tauto.
Qed.

Lemma sort_desc_In (x : str * num) (l : list (str * num)) :
  In x (sort_desc l) <-> In x l.
Proof.
  induction l as [|a l IH]; simpl; [tauto|].
  rewrite insert_desc_In, IH. intuition congruence.
Qed.

(** A stable sort leaves a list of equal scores as it is. *)
Lemma sort_desc_equal_scores (v : R) (l : list (str * num)) :
  (forall x, In x l -> snd x = Fin v) -> sort_desc l = l.
Proof.
  induction l as [|a l IH]; intros H; simpl; [reflexivity|].
  rewrite IH by (intros x Hx; apply H; right; exact Hx).
  destruct l as [|y r]; [reflexivity|]. simpl.
  rewrite (H a), (H y) by (simpl; auto).
  rewrite num_geb_true by lra. reflexivity.
Qed.

Lemma firstn_In {A : Type} (n : nat) (l : list A) (x : A) :
  In x (firstn n l) -> In x l.
Proof.
  revert l; induction n as [|n IH]; intros [|a l] H; simpl in *; try contradiction.
  destruct H as [H|H]; auto.
Qed.

Section PickFacts.

Variable answer : str.
Variables MIN_SIM MAX_SIM : num.

Lemma pickFiltered_length (cands : list str) : length (pickFiltered answer MIN_SIM MAX_SIM cands) <= 3.
Proof.
  unfold pickFiltered. cbv zeta.
  match goal with |- context [if ?c then _ else _] => destruct c end;
    rewrite length_firstn; lia.
Qed.

Lemma scored_In (f : str * num -> bool) (cands : list str) (p : str) :
  In p (map fst (sort_desc
         (filter f (map (fun p => (p, semanticSimilarity answer p)) cands)))) ->
  In p cands.
Proof.
  intros H. apply in_map_iff in H. destruct H as ([q s] & <- & H).
  apply sort_desc_In, filter_In in H. destruct H as [H _].
  apply in_map_iff in H. destruct H as (q' & E & H). inversion E; subst.
  exact H.
Qed.

(** Every pick is one of the candidates. *)
Lemma pickFiltered_In (cands : list str) (p : str) :
  In p (pickFiltered answer MIN_SIM MAX_SIM cands) -> In p cands.
Proof.
  unfold pickFiltered. cbv zeta.
  match goal with |- context [if ?c then _ else _] => destruct c end;
    intros H; apply firstn_In in H.
  - eapply scored_In; exact H.
  - unfold Set_of in H. apply set_from_In in H. destruct H as [H _].
    apply in_app_iff in H. destruct H as [H|H]; eapply scored_In; exact H.
Qed.

End PickFacts.

(** Candidates that all have the same score inside the band. *)
Lemma pickFiltered_equal_scores (answer : str) (m M v : R) (cands : list str) :
  (forall p, In p cands -> semanticSimilarity answer p = Fin v) ->
  (m <= v)%R -> (v <= M)%R -> (round64 (m * round64 (6 / 10)) <= v)%R ->
  pickFiltered answer (Fin m) (Fin M) cands
  = if 3 <=? length cands then firstn 3 cands
    else firstn 3 (Set_of (cands ++ cands)).
Proof.
  intros Hs Hm HM Hr. unfold pickFiltered. cbv zeta.
  set (scored := map (fun p => (p, semanticSimilarity answer p)) cands).
  assert (Hv : forall x, In x scored -> snd x = Fin v).
  { intros x Hx. apply in_map_iff in Hx. destruct Hx as (p & <- & Hp).
    simpl. apply Hs. exact Hp. }
  assert (Hfst : map fst scored = cands).
  { unfold scored. rewrite map_map. simpl. apply map_id. }
  rewrite !filter_keeps_all.
  - rewrite (sort_desc_equal_scores v scored Hv), Hfst. reflexivity.
  - intros x Hx. rewrite (Hv x Hx). unfold literal. simpl num_mul.
    apply num_geb_true. exact Hr.
  - intros x Hx. rewrite (Hv x Hx). unfold num_leb.
    rewrite !num_geb_true by lra. reflexivity.
Qed.

(** Candidates that all score 0.4999999999999999 lie inside the default
    band from 0.12 to 0.75. *)
Lemma pickFiltered_default_band (answer : str) (cands : list str) :
  (forall p, In p cands ->
     semanticSimilarity answer p = Fin (4503599627370495 / 9007199254740992)) ->
  pickFiltered answer default_MIN_SIM default_MAX_SIM cands
  = if 3 <=? length cands then firstn 3 cands
    else firstn 3 (Set_of (cands ++ cands)).
Proof.
  intros Hs. unfold default_MIN_SIM, default_MAX_SIM, literal.
  rewrite round64_twelve_hundredths, round64_three_quarters.
  apply (pickFiltered_equal_scores answer _ _ _ cands Hs); try lra.
  rewrite round64_six_tenths.
  assert (P : round64 (1080863910568919 / 9007199254740992
                       * (5404319552844595 / 9007199254740992))
              = (5188146770730811 / 72057594037927936)%R)
    by (round64_value (-4)%Z 5188146770730811%Z).
  rewrite P. lra.
Qed.

(** The selection depends on the case mapping only through the answer
    and the candidate phrases. *)
Lemma select_distractors_ext (f g : str -> str) (answer : str)
      (MIN_SIM MAX_SIM : num) (retrieved : option (list str))
      (phrases : list str) (rnd1 rnd2 : list nat) :
  f answer = g answer ->
  (forall p, In p (match retrieved with Some phs => phs | None => [] end
                   ++ phrases) -> f p = g p) ->
  select_distractors f answer MIN_SIM MAX_SIM retrieved phrases rnd1 rnd2
  = select_distractors g answer MIN_SIM MAX_SIM retrieved phrases rnd1 rnd2.
Proof.
  intros Ha Hp.
  assert (D : forall p,
             In p (match retrieved with Some phs => phs | None => [] end
                   ++ phrases) ->
             differs f answer p = differs g answer p).
  { intros p Hin. unfold differs. rewrite Ha, (Hp p Hin). reflexivity. }
  unfold select_distractors. cbv zeta.
  assert (E2 : filter (fun p => differs f answer p
                                && (Z.abs (Js.len p - Js.len answer)
                                    <? Z.max 6 (Js.len answer))%Z) phrases
               = filter (fun p => differs g answer p
                                  && (Z.abs (Js.len p - Js.len answer)
                                      <? Z.max 6 (Js.len answer))%Z) phrases).
  { apply filter_ext_in. intros p Hin. rewrite D; [reflexivity|].
    apply in_app_iff. right. exact Hin. }
  rewrite E2. destruct retrieved as [phs|]; [|reflexivity].
  assert (E1 : filter (fun ph => nonempty ph && differs f answer ph) phs
               = filter (fun ph => nonempty ph && differs g answer ph) phs).
  { apply filter_ext_in. intros p Hin. rewrite D; [reflexivity|].
    apply in_app_iff. left. exact Hin. }
  rewrite E1. reflexivity.
Qed.

(** C9: with an embedding service that yields two usable phrases and a
    document pool that yields three, the question for the answer
    [New York] gets five distractors, not three: the picks of the fallback
    are appended to the retrieved ones without a cap.  This holds for
    every case mapping [toLowerCase] that lowercases Basic Latin strings
    as ECMAScript does. *)
Theorem C9_distractor_overflow (toLowerCase : str -> str) :
  (forall s, basic_latin s = true -> toLowerCase s = Js.toLowerCase s) ->
  select_distractors toLowerCase new_york default_MIN_SIM default_MAX_SIM
                     (Some retrieved_phrases) document_phrases [] []
  = map of_string
      ["New Mexico"; "New Jersey"; "New Orleans"; "New Delhi"; "New Hampshire"]%string
  /\ length (select_distractors toLowerCase new_york
                                default_MIN_SIM default_MAX_SIM
                                (Some retrieved_phrases) document_phrases [] [])
     = 5.
Proof.
  intros Hascii.
  assert (E : select_distractors toLowerCase new_york
                default_MIN_SIM default_MAX_SIM
                (Some retrieved_phrases) document_phrases [] []
              = map of_string
                  ["New Mexico"; "New Jersey"; "New Orleans"; "New Delhi";
                   "New Hampshire"]%string).
  { rewrite (select_distractors_ext toLowerCase Js.toLowerCase).
    2: { apply Hascii. reflexivity. }
    2: { intros p Hp. apply Hascii. revert p Hp. apply Forall_forall.
         repeat constructor. }
    pose proof scores_retrieved as HS. rewrite Forall_forall in HS.
    unfold select_distractors.
    repeat match goal with
           | |- context [pickFiltered _ _ _ ?l] =>
               lazymatch l with
               | context [shuffle] =>
                   let v := eval vm_compute in l in change l with v
               end
           end.
    rewrite !pickFiltered_default_band
      by (intros p Hp; apply HS; revert Hp; vm_compute; tauto).
    vm_compute. reflexivity. }
  split; [exact E|]. rewrite E. reflexivity.
Qed.

(** C9 with the case mapping of the model. *)
Lemma C9_distractor_overflow_witness :
  length (select_distractors Js.toLowerCase new_york
                             default_MIN_SIM default_MAX_SIM
                             (Some retrieved_phrases) document_phrases [] [])
  = 5.
Proof.
  apply (proj2 (C9_distractor_overflow Js.toLowerCase (fun s _ => eq_refl))).
Defined.

Lemma update_length (i : nat) (v : str) (l : list str) :
  length (update i v l) = length l.
Proof.
  revert i; induction l as [|a l IH]; intros [|i]; simpl; auto.
Qed.

Lemma update_In (i : nat) (v : str) (l : list str) (x : str) :
  In x (update i v l) -> x = v \/ In x l.
Proof.
  revert i; induction l as [|a l IH]; intros [|i]; simpl; try tauto.
  - intuition congruence.
  - intros [H|H]; auto. apply IH in H. tauto.
Qed.

Lemma swap_length (i j : nat) (arr : list str) :
  length (swap i j arr) = length arr.
Proof. unfold swap. rewrite !update_length. reflexivity. Qed.

Lemma swap_In (i j : nat) (arr : list str) (x : str) :
  i < length arr -> j < length arr -> In x (swap i j arr) -> In x arr.
Proof.
  intros Hi Hj H. unfold swap in H.
  apply update_In in H. destruct H as [->|H]; [apply nth_In; exact Hi|].
  apply update_In in H. destruct H as [->|H]; [apply nth_In; exact Hj|exact H].
Qed.

Lemma shuffle_from_In (x : str) (i : nat) : forall rnd arr,
  i < length arr -> In x (shuffle_from i rnd arr) -> In x arr.
Proof.
  induction i as [|i IH]; intros rnd arr Hi H; [exact H|].
  cbn [shuffle_from] in H.
  assert (Hj : hd 0 rnd mod (S i + 1) < length arr).
  { pose proof (Nat.mod_upper_bound (hd 0 rnd) (S i + 1)). lia. }
  apply IH in H; [|rewrite swap_length; lia].
  apply (swap_In (S i) (hd 0 rnd mod (S i + 1))); [lia|exact Hj|exact H].
Qed.

(** A shuffled array holds no element that was not in the array. *)
Lemma shuffle_In (rnd : list nat) (arr : list str) (x : str) :
  In x (shuffle rnd arr) -> In x arr.
Proof.
  unfold shuffle. destruct arr as [|a arr]; [simpl; auto|].
  apply shuffle_from_In. simpl. lia.
Qed.

Section SelectFacts.

Variable toLowerCase : str -> str.
Variable answer : str.
Variables MIN_SIM MAX_SIM : num.
Variable phrases : list str.
Variables rnd1 rnd2 : list nat.

(** A question never has fewer than three distractors. *)
Lemma select_distractors_at_least_3 retrieved : 3 <= length (select_distractors toLowerCase answer MIN_SIM MAX_SIM retrieved phrases rnd1 rnd2).
Proof.
  unfold select_distractors. cbv zeta.
  rewrite length_app, repeat_length. lia.
Qed.

(** Without retrieved phrases there are exactly three. *)
Lemma select_distractors_local_exactly_3 : length (select_distractors toLowerCase answer MIN_SIM MAX_SIM None phrases rnd1 rnd2) = 3.
Proof.
  unfold select_distractors. cbv zeta.
  match goal with
  | |- context [pickFiltered ?a ?m ?M ?l] =>
      pose proof (pickFiltered_length a m M l) as HL;
      set (P := pickFiltered a m M l) in *
  end.
  change (length (@nil str) <? 3) with true. cbv iota.
  change ([] ++ P) with P.
  rewrite length_app, repeat_length. lia.
Qed.

(** A distractor is the filler or a candidate that differs from the
    answer when both are lowercased. *)
Lemma select_distractors_differ retrieved (d : str) :
  In d (select_distractors toLowerCase answer MIN_SIM MAX_SIM retrieved phrases rnd1 rnd2) ->
  d = filler \/ toLowerCase d <> toLowerCase answer.
Proof.
  unfold select_distractors. cbv zeta. intros H.
  apply in_app_iff in H. destruct H as [H|H];
    [|left; eapply repeat_spec; exact H].
  right.
  assert (D : differs toLowerCase answer d = true).
  { assert (H1 : forall phs,
              In d (pickFiltered answer MIN_SIM MAX_SIM
                      (shuffle rnd1
                         (filter (fun p => (Z.abs (Js.len p - Js.len answer)
                                            <? Z.max 12 (Js.len answer + 6))%Z)
                            (Set_of (filter (fun ph => nonempty ph
                                                       && differs toLowerCase answer ph)
                                            phs))))) ->
              differs toLowerCase answer d = true).
    { intros phs Hd.
      apply pickFiltered_In, shuffle_In, filter_In in Hd.
      destruct Hd as [Hd _]. unfold Set_of in Hd.
      apply set_from_In in Hd. destruct Hd as [Hd _].
      apply filter_In in Hd. destruct Hd as [_ Hd].
      apply andb_true_iff in Hd. tauto. }
    assert (H2 : In d (pickFiltered answer MIN_SIM MAX_SIM
                         (shuffle rnd2
                            (filter (fun p => differs toLowerCase answer p
                                              && (Z.abs (Js.len p - Js.len answer)
                                                  <? Z.max 6 (Js.len answer))%Z)
                                    phrases))) ->
                 differs toLowerCase answer d = true).
    { intros Hd.
      apply pickFiltered_In, shuffle_In, filter_In in Hd.
      destruct Hd as [_ Hd]. apply andb_true_iff in Hd. tauto. }
    destruct retrieved as [phs|].
    - match type of H with
      | In _ (if ?c then _ else _) => destruct c
      end.
      + apply in_app_iff in H. destruct H as [H|H]; eauto.
      + eauto.
    - simpl in H. apply H2. exact H. }
  unfold differs in D. apply negb_true_iff in D.
  intros E. apply str_eqb_eq in E. congruence.
Qed.

End SelectFacts.

(** When the answer is the filler phrase itself and the pools are empty,
    the three distractors are copies of the answer. *)
Example filler_collision (toLowerCase : str -> str) :
  select_distractors toLowerCase filler default_MIN_SIM default_MAX_SIM
                     None [] [] []
  = [filler; filler; filler].
Proof. reflexivity. Qed.

(* ================================================================= *)
(** * Further properties of the modelled code *)

(* ----------------------------------------------------------------- *)
(** ** Normalizer: shape of the output, blank input, hyphenation *)

Lemma tidy_no_adjacent_ws (u : str) : forall b c d v,
  tidy b (u ++ c :: d :: v) = true -> is_ws c = true -> is_ws d = false.
Proof.
  induction u as [|a u IH]; intros b c d v H W; simpl in H.
  - rewrite W in H. apply andb_true_iff in H. destruct H as [_ H].
    simpl in H. destruct (is_ws d); [|reflexivity].
    rewrite andb_false_r in H. discriminate.
  - destruct (is_ws a).
    + apply andb_true_iff in H. destruct H as [_ H]. eauto.
    + eauto.
Qed.

Lemma trimEnd_length (s : str) : length (trimEnd s) <= length s.
Proof.
  induction s as [|c r IH]; simpl; [lia|].
  destruct (trimEnd r) as [|d r']; [destruct (is_ws c); simpl; lia|].
  simpl in *. lia.
Qed.

Lemma trimEnd_snoc_ws (u : str) (c : N) :
  is_ws c = true -> trimEnd (u ++ [c]) = trimEnd u.
Proof.
  intros W. induction u as [|a u IH]; simpl; [rewrite W; reflexivity|].
  rewrite IH. reflexivity.
Qed.

(** X1: the output of the normalizer has no whitespace but single spaces
    between other characters: every whitespace unit is U+0020, no two
    are adjacent, and none stands first or last. *)
Theorem X1_normalize_output_shape (x : str) :
  (forall c, In c (normalizeTextForExtraction x) -> is_ws c = true -> c = SP)
  /\ (forall u c d v, normalizeTextForExtraction x = u ++ c :: d :: v ->
        is_ws c = true -> is_ws d = false)
  /\ (forall c r, normalizeTextForExtraction x = c :: r -> is_ws c = false)
  /\ (forall u c, normalizeTextForExtraction x = u ++ [c] -> is_ws c = false).
Proof.
  destruct (normalize_shape x) as [Ht He].
  set (o := normalizeTextForExtraction x) in *.
  split; [|split; [|split]].
  - intros c Hc W. exact (tidy_ws_is_space o true c Ht Hc W).
  - intros u c d v E W. rewrite E in Ht. exact (tidy_no_adjacent_ws u true c d v Ht W).
  - intros c r E. rewrite E in Ht. simpl in Ht.
    destruct (is_ws c); [|reflexivity]. rewrite andb_false_r in Ht. discriminate.
  - intros u c E. destruct (is_ws c) eqn:W; [|reflexivity]. exfalso.
    rewrite E in He. rewrite (trimEnd_snoc_ws u c W) in He.
    pose proof (trimEnd_length u) as L. rewrite He in L.
    rewrite length_app in L. simpl in L. lia.
Qed.

Lemma X1_normalize_output_shape_witness :
  is_ws 98 = false.
Proof.
  apply (proj2 (proj2 (proj2 (X1_normalize_output_shape [97; LF; LF; 98]%N)))
           [97; 32]%N 98%N).
  vm_compute. reflexivity.
Defined.

Lemma replace_crlf_units_aux (c : N) (t : str) :
  (In c (replace_crlf t) -> In c t)
  /\ (forall a, In c (replace_crlf (a :: t)) -> In c (a :: t)).
Proof.
  induction t as [|d r [IH1 IH2]].
  - split; [simpl; auto|]. intros a H. exact H.
  - split; [apply IH2|]. intros a. cbn [replace_crlf].
    destruct ((a =? CR) && (d =? LF))%N eqn:E.
    + intros [<-|H].
      * apply andb_true_iff in E. destruct E as [_ E]. apply N.eqb_eq in E.
        subst. right. left. reflexivity.
      * right. right. apply IH1. exact H.
    + intros [<-|H]; [left; reflexivity|].
      right. apply IH2. exact H.
Qed.

Lemma replace_crlf_units (t : str) (c : N) :
  In c (replace_crlf t) -> In c t.
Proof. apply replace_crlf_units_aux. Qed.

Lemma remove_hyphenation_units_aux (c : N) (t : str) :
  (forall b, In c (remove_hyphenation b t) -> In c t)
  /\ (forall b a, In c (remove_hyphenation b (a :: t)) -> In c (a :: t)).
Proof.
  induction t as [|d r [IH1 IH2]].
  - split; [simpl; auto|]. intros b a. cbn [remove_hyphenation].
    destruct (b && is_ws a); simpl; tauto.
  - split; [intros b; apply IH2|]. intros b a. cbn [remove_hyphenation].
    destruct (b && is_ws a).
    + intros H. right. apply (IH2 true). exact H.
    + destruct ((a =? HYPHEN) && (d =? LF))%N.
      * intros H. right. right. apply (IH1 true). exact H.
      * intros [<-|H]; [left; reflexivity|]. right. apply (IH2 false). exact H.
Qed.

Lemma squeeze_newlines_units (c : N) (t : str) : forall k,
  In c (squeeze_newlines k t) -> In c t.
Proof.
  induction t as [|a r IH]; intros k; simpl; [auto|].
  destruct (a =? LF)%N eqn:E.
  - apply N.eqb_eq in E. subst a.
    destruct (k <? 2); simpl; [intros [H|H]; eauto|eauto].
  - intros [H|H]; eauto.
Qed.

(** The units fed to the whitespace pass are units of the input, or line
    feeds and spaces put in their place. *)
Lemma before_collapse_blank (x : str) :
  forallb is_ws x = true ->
  forallb is_ws
    (newlines_to_spaces
       (squeeze_newlines 0
          (remove_hyphenation false (replace_cr (replace_crlf x))))) = true.
Proof.
  intros H. rewrite forallb_forall in *. intros c Hc.
  unfold newlines_to_spaces in Hc. apply in_map_iff in Hc.
  destruct Hc as (d & Hd & Hin).
  destruct (d =? LF)%N eqn:E; [subst c; reflexivity|]. subst d.
  apply squeeze_newlines_units in Hin.
  apply (proj1 (remove_hyphenation_units_aux c _)) in Hin.
  unfold replace_cr in Hin. apply in_map_iff in Hin.
  destruct Hin as (d & Hd & Hin).
  destruct (d =? CR)%N; [subst c; reflexivity|]. subst d.
  apply H, replace_crlf_units, Hin.
Qed.

(** X2: a text made of whitespace only is normalized to the empty
    string. *)
Theorem X2_normalize_blank (x : str) :
  forallb is_ws x = true -> normalizeTextForExtraction x = [].
Proof.
  intros H. unfold normalizeTextForExtraction.
  destruct x as [|c r]; [reflexivity|]. cbv zeta. unfold trim.
  rewrite (collapse_ws_blank _ (before_collapse_blank _ H)). reflexivity.
Qed.

Lemma X2_normalize_blank_witness :
  normalizeTextForExtraction [SP; 9; CR; LF; LF; 160]%N = [].
Proof. apply X2_normalize_blank. vm_compute. reflexivity. Defined.

Lemma word_unit_spec (c : N) :
  word_unit c = true -> is_ws c = false /\ c <> HYPHEN /\ c <> LF /\ c <> CR.
Proof.
  unfold word_unit. intros H. apply andb_true_iff in H. destruct H as [H1 H2].
  apply negb_true_iff in H1, H2. apply N.eqb_neq in H2.
  repeat split; auto; intros ->; discriminate H1.
Qed.

Lemma remove_hyphenation_word_prefix (a t : str) :
  forallb word_unit a = true ->
  remove_hyphenation false (a ++ t) = a ++ remove_hyphenation false t.
Proof.
  induction a as [|c a IH]; intros H; [reflexivity|].
  simpl in H. apply andb_true_iff in H. destruct H as [Hc H].
  destruct (word_unit_spec c Hc) as (_ & Hh & _).
  apply N.eqb_neq in Hh.
  change ((c :: a) ++ t) with (c :: (a ++ t)).
  change ((c :: a) ++ remove_hyphenation false t)
    with (c :: (a ++ remove_hyphenation false t)).
  rewrite <- (IH H). cbn [remove_hyphenation andb].
  destruct (a ++ t) as [|d r]; [reflexivity|].
  rewrite Hh. reflexivity.
Qed.

Lemma remove_hyphenation_skip (w t : str) :
  forallb is_ws w = true ->
  remove_hyphenation true (w ++ t) = remove_hyphenation true t.
Proof.
  induction w as [|c w IH]; intros H; [reflexivity|].
  simpl in H. apply andb_true_iff in H. destruct H as [Hc H].
  change ((c :: w) ++ t) with (c :: (w ++ t)). cbn [remove_hyphenation].
  rewrite Hc. simpl andb. cbv iota. apply IH, H.
Qed.

Lemma word_units_no (a : str) (c : N) :
  forallb word_unit a = true -> In c a ->
  is_ws c = false /\ c <> HYPHEN /\ c <> LF /\ c <> CR.
Proof.
  intros H Hc. rewrite forallb_forall in H. apply word_unit_spec, H, Hc.
Qed.

Lemma remove_hyphenation_word (b : str) :
  forallb word_unit b = true -> remove_hyphenation true b = b.
Proof.
  intros H. destruct b as [|c b]; [reflexivity|].
  pose proof (word_units_no (c :: b) c H (or_introl eq_refl)) as (W & Hh & _).
  apply N.eqb_neq in Hh.
  cbn [remove_hyphenation]. rewrite W, andb_false_r, Hh. simpl andb.
  assert (E : remove_hyphenation false b = b).
  { apply remove_hyphenation_id. intros Hin.
    destruct (word_units_no (c :: b) LF H (or_intror Hin)) as (_ & _ & F & _).
    congruence. }
  rewrite E. destruct b; reflexivity.
Qed.

Lemma tidy_words (s : str) : forall b,
  (forall c, In c s -> is_ws c = false) -> tidy b s = true.
Proof.
  induction s as [|c r IH]; intros b H; simpl; [reflexivity|].
  rewrite (H c) by (left; reflexivity). apply IH.
  intros d Hd. apply H. right. exact Hd.
Qed.

Lemma trimEnd_words (s : str) :
  (forall c, In c s -> is_ws c = false) -> trimEnd s = s.
Proof.
  induction s as [|c r IH]; intros H; simpl; [reflexivity|].
  rewrite IH by (intros d Hd; apply H; right; exact Hd).
  destruct r; [|reflexivity]. rewrite (H c) by (left; reflexivity). reflexivity.
Qed.

(** X3: hyphenation repair.  A word split as [a], a hyphen, a line feed, some
    whitespace and [b] is normalized to the two fragments joined. *)
Theorem X3_hyphenation_repair (a w b : str) :
  forallb word_unit a = true ->
  forallb indent_unit w = true ->
  forallb word_unit b = true ->
  normalizeTextForExtraction (a ++ [HYPHEN; LF] ++ w ++ b) = a ++ b.
Proof.
  intros Ha Hw Hb.
  assert (Hw' : forallb is_ws w = true /\ ~ In CR w).
  { rewrite forallb_forall in Hw. split.
    - apply forallb_forall. intros c Hc. specialize (Hw c Hc).
      unfold indent_unit in Hw. apply andb_true_iff in Hw. tauto.
    - intros Hc. specialize (Hw _ Hc). unfold indent_unit in Hw.
      apply andb_true_iff in Hw. destruct Hw as [_ Hw]. discriminate Hw. }
  destruct Hw' as [Hws Hcr].
  assert (Hab : forall c, In c (a ++ b) ->
                  is_ws c = false /\ c <> HYPHEN /\ c <> LF /\ c <> CR).
  { intros c Hc. apply in_app_iff in Hc.
    destruct Hc as [Hc|Hc];
      [apply (word_units_no a c Ha Hc)|apply (word_units_no b c Hb Hc)]. }
  assert (NoCR : ~ In CR (a ++ [HYPHEN; LF] ++ w ++ b)).
  { intros Hc. apply in_app_iff in Hc. destruct Hc as [Hc|Hc].
    - destruct (Hab CR) as (_ & _ & _ & F); [apply in_app_iff; auto|congruence].
    - destruct Hc as [Hc|[Hc|Hc]];
        try (unfold HYPHEN, LF, CR in Hc; discriminate Hc).
      change ([] ++ w ++ b) with (w ++ b) in Hc.
      apply in_app_iff in Hc. destruct Hc as [Hc|Hc]; [tauto|].
      destruct (Hab CR) as (_ & _ & _ & F); [apply in_app_iff; auto|congruence]. }
  unfold normalizeTextForExtraction.
  destruct (a ++ [HYPHEN; LF] ++ w ++ b) as [|c0 r0] eqn:E.
  { destruct a; discriminate E. }
  rewrite <- E in *. cbv zeta.
  rewrite (replace_crlf_id _ NoCR), (replace_cr_id _ NoCR).
  rewrite (remove_hyphenation_word_prefix a _ Ha).
  change (remove_hyphenation false ([HYPHEN; LF] ++ w ++ b))
    with (remove_hyphenation true (w ++ b)).
  rewrite (remove_hyphenation_skip w b Hws), (remove_hyphenation_word b Hb).
  assert (NoLF : ~ In LF (a ++ b)).
  { intros Hc. destruct (Hab LF Hc) as (_ & _ & F & _). congruence. }
  rewrite (squeeze_newlines_id _ 0 NoLF), (newlines_to_spaces_id _ NoLF).
  assert (Hnw : forall c, In c (a ++ b) -> is_ws c = false)
    by (intros c Hc; apply Hab; exact Hc).
  rewrite (collapse_ws_id _ false (tidy_words _ false Hnw)).
  unfold trim. rewrite (trimStart_tidy _ (tidy_words _ true Hnw)).
  apply trimEnd_words, Hnw.
Qed.

Lemma X3_hyphenation_repair_witness :
  normalizeTextForExtraction
    (of_string "hy" ++ [HYPHEN; LF] ++ [SP; SP] ++ of_string "phen")
  = of_string "hy" ++ of_string "phen".
Proof. apply X3_hyphenation_repair; vm_compute; reflexivity. Defined.

(* ----------------------------------------------------------------- *)
(** ** Sentence splitter *)

Lemma trimStart_length (s : str) : length (trimStart s) <= length s.
Proof.
  induction s as [|c r IH]; simpl; [lia|]. destruct (is_ws c); simpl; lia.
Qed.

Lemma trimStart_head (s : str) (c : N) (r : str) :
  trimStart s = c :: r -> is_ws c = false.
Proof.
  induction s as [|a s IH]; simpl; [discriminate|].
  destruct (is_ws a) eqn:W; [exact IH|]. intros E. inversion E; subst. exact W.
Qed.

Lemma trimEnd_head (c : N) (r : str) :
  is_ws c = false -> exists r', trimEnd (c :: r) = c :: r'.
Proof.
  intros W. simpl. destruct (trimEnd r); [rewrite W|]; eauto.
Qed.

Lemma trimEnd_units (s : str) (c : N) : In c (trimEnd s) -> In c s.
Proof.
  revert c. induction s as [|a r IH]; intros c; simpl; [auto|].
  destruct (trimEnd r) as [|d r'].
  - destruct (is_ws a); simpl; tauto.
  - intros [H|H]; [auto|]. right. apply IH. exact H.
Qed.

Lemma trimEnd_last_kept (u : str) (c : N) :
  is_ws c = false -> trimEnd (u ++ [c]) = u ++ [c].
Proof.
  intros W. induction u as [|a u IH]; simpl; [rewrite W; reflexivity|].
  rewrite IH. destruct (u ++ [c]) eqn:E; [destruct u; discriminate E|reflexivity].
Qed.

Lemma trim_idempotent (s : str) : trim (trim s) = trim s.
Proof.
  unfold trim. destruct (trimStart s) as [|c r] eqn:E; [reflexivity|].
  pose proof (trimStart_head s c r E) as W.
  destruct (trimEnd_head c r W) as (r' & Hv).
  assert (S : trimStart (trimEnd (c :: r)) = trimEnd (c :: r)).
  { rewrite Hv. cbn [trimStart]. rewrite W. reflexivity. }
  rewrite S. apply trimEnd_idem.
Qed.

(** X4: the splitter returns no empty sentence, and every sentence is
    already trimmed. *)
Theorem X4_sentences_nonempty_trimmed (text s : str) :
  In s (splitIntoSentences text) -> s <> [] /\ trim s = s.
Proof.
  unfold splitIntoSentences. destruct text as [|c r]; [contradiction|].
  intros H. apply filter_In in H. destruct H as [H Hne].
  apply in_map_iff in H. destruct H as (m & <- & _).
  split; [intros E; rewrite E in Hne; discriminate Hne|apply trim_idempotent].
Qed.

Lemma X4_sentences_nonempty_trimmed_witness :
  demo_sentence2 <> [] /\ trim demo_sentence2 = demo_sentence2.
Proof.
  apply (X4_sentences_nonempty_trimmed demo_text). vm_compute. tauto.
Defined.

Lemma is_term_not_ws (c : N) : is_term c = true -> is_ws c = false.
Proof.
  unfold is_term. intros H.
  apply orb_true_iff in H. destruct H as [H|H];
    [apply orb_true_iff in H; destruct H as [H|H]|];
    apply N.eqb_eq in H; subst; reflexivity.
Qed.

Lemma trimStart_app (x y : str) :
  trimStart (x ++ y)
  = if forallb is_ws x then trimStart y else trimStart x ++ y.
Proof.
  induction x as [|c x IH]; simpl; [reflexivity|].
  destruct (is_ws c); simpl; [exact IH|reflexivity].
Qed.

Lemma trim_snoc_ws (x : str) (c : N) : is_ws c = true -> trim (x ++ [c]) = trim x.
Proof.
  intros W. unfold trim. rewrite trimStart_app.
  destruct (forallb is_ws x) eqn:A.
  - rewrite (trimStart_all_ws x A). simpl. rewrite W. reflexivity.
  - apply trimEnd_snoc_ws, W.
Qed.

Lemma shape_trimStart (s : str) : sentence_shape s -> sentence_shape (trimStart s).
Proof.
  intros (b & m & -> & Hb & Hm).
  induction b as [|c b IH].
  - exists [], m. repeat split; auto. simpl.
    destruct m as [|d m]; [reflexivity|]. simpl in Hm.
    apply andb_true_iff in Hm. destruct Hm as [Hd _].
    simpl. rewrite (is_term_not_ws d Hd). reflexivity.
  - simpl in Hb. apply andb_true_iff in Hb. destruct Hb as [Hc Hb].
    simpl. destruct (is_ws c); [apply IH, Hb|].
    exists (c :: b), m. repeat split; auto. simpl. rewrite Hc, Hb. reflexivity.
Qed.

Lemma shape_trimEnd (s : str) : sentence_shape s -> sentence_shape (trimEnd s).
Proof.
  intros (b & m & -> & Hb & Hm).
  assert (Hm' : m = [] \/ exists m' c, m = m' ++ [c]).
  { destruct m as [|d m0]; [left; reflexivity|right].
    destruct (@exists_last _ (d :: m0) ltac:(discriminate)) as (m' & c & E).
    eauto. }
  destruct Hm' as [->|(m' & c & ->)].
  - rewrite app_nil_r. exists (trimEnd b), []. rewrite app_nil_r.
    repeat split; auto. apply forallb_forall. intros c Hc.
    rewrite forallb_forall in Hb. apply Hb, trimEnd_units, Hc.
  - assert (Hc : is_term c = true).
    { rewrite forallb_forall in Hm. apply Hm, in_app_iff. right. left. reflexivity. }
    rewrite app_assoc, (trimEnd_last_kept _ c (is_term_not_ws c Hc)), <- app_assoc.
    exists b, (m' ++ [c]). auto.
Qed.

Lemma shape_trim (s : str) : sentence_shape s -> sentence_shape (trim s).
Proof. intros H. apply shape_trimEnd, shape_trimStart, H. Qed.

Lemma forallb_rev (f : N -> bool) (l : str) :
  forallb f l = true -> forallb f (rev l) = true.
Proof.
  rewrite !forallb_forall. intros H c Hc. apply H, in_rev, Hc.
Qed.

Lemma shape_of_reversed (m b : str) :
  forallb is_term m = true ->
  forallb (fun c => negb (is_term c)) b = true ->
  sentence_shape (rev (m ++ b)).
Proof.
  intros Hm Hb. exists (rev b), (rev m). rewrite rev_app_distr.
  repeat split; auto using forallb_rev.
Qed.

(** Every match of the scanner, once trimmed, is a body followed by
    marks. *)
Lemma scan_sentences_shape (t : str) : forall ph acc,
  (ph = InBody -> forallb (fun c => negb (is_term c)) acc = true) ->
  (ph = InMarks ->
   exists m b, acc = m ++ b /\ forallb is_term m = true
               /\ forallb (fun c => negb (is_term c)) b = true) ->
  forall s, In s (scan_sentences ph acc t) -> sentence_shape (trim s).
Proof.
  induction t as [|c r IH]; intros ph acc HB HM s Hs.
  - assert (E : sentence_shape (rev acc)).
    { destruct ph.
      - apply (shape_of_reversed [] acc); [reflexivity|apply HB; reflexivity].
      - destruct (HM eq_refl) as (m & b & -> & Hm & Hb).
        apply shape_of_reversed; assumption. }
    cbn [scan_sentences] in Hs.
    destruct ph; [destruct acc as [|a acc]; [contradiction|]|];
      destruct Hs as [<-|[]]; apply shape_trim, E.
  - cbn [scan_sentences] in Hs. destruct ph.
    + specialize (HB eq_refl). destruct (is_term c) eqn:T.
      * destruct acc as [|a acc].
        -- eapply IH; [| |exact Hs]; [reflexivity|discriminate].
        -- eapply IH; [| |exact Hs]; [discriminate|]. intros _.
           exists [c], (a :: acc). repeat split; auto. simpl. rewrite T. reflexivity.
      * eapply IH; [| |exact Hs]; [|discriminate]. intros _.
        simpl. rewrite T. exact HB.
    + destruct (HM eq_refl) as (m & b & -> & Hm & Hb).
      destruct (is_term c) eqn:T.
      * eapply IH; [| |exact Hs]; [discriminate|]. intros _.
        exists (c :: m), b. repeat split; auto. simpl. rewrite T. exact Hm.
      * destruct (is_ws c) eqn:W.
        -- destruct Hs as [<-|Hs].
           ++ change (rev (c :: m ++ b)) with (rev (m ++ b) ++ [c]).
              rewrite (trim_snoc_ws _ c W).
              apply shape_trim, shape_of_reversed; assumption.
           ++ eapply IH; [| |exact Hs]; [reflexivity|discriminate].
        -- eapply IH; [| |exact Hs]; [|discriminate]. intros _.
           simpl. rewrite T. reflexivity.
Qed.

(** X5: every sentence returned by the splitter is a run of units outside
    [[.!?]] followed by a run of terminal marks: no mark is followed by
    other text inside a sentence. *)
Theorem X5_sentence_shape (text s : str) :
  In s (splitIntoSentences text) -> sentence_shape s.
Proof.
  unfold splitIntoSentences. destruct text as [|c r]; [contradiction|].
  intros H. apply filter_In in H. destruct H as [H _].
  apply in_map_iff in H. destruct H as (m & <- & Hm).
  eapply scan_sentences_shape; [| |exact Hm]; [reflexivity|discriminate].
Qed.

Lemma X5_sentence_shape_witness : sentence_shape demo_sentence1.
Proof.
  apply (X5_sentence_shape demo_text). vm_compute. tauto.
Defined.

Lemma scan_without_marks (t : str) : forall acc,
  forallb (fun c => negb (is_term c)) t = true ->
  scan_sentences InBody acc t
  = match rev acc ++ t with [] => [] | s => [s] end.
Proof.
  induction t as [|c r IH]; intros acc H.
  - rewrite app_nil_r. simpl. destruct acc as [|a acc]; [reflexivity|].
    destruct (rev (a :: acc)) eqn:E; [|reflexivity].
    apply (f_equal (@length N)) in E. rewrite length_rev in E. discriminate E.
  - simpl in H. apply andb_true_iff in H. destruct H as [Hc H].
    apply negb_true_iff in Hc. cbn [scan_sentences]. rewrite Hc.
    rewrite (IH (c :: acc) H). simpl rev. rewrite <- app_assoc. reflexivity.
Qed.

(** X6: a text without any of the marks [.], [!], [?] is one sentence, its
    trimmed self, or no sentence at all when it is blank. *)
Theorem X6_text_without_marks (text : str) :
  forallb (fun c => negb (is_term c)) text = true ->
  splitIntoSentences text
  = if nonempty (trim text) then [trim text] else [].
Proof.
  intros H. unfold splitIntoSentences. destruct text as [|c r]; [reflexivity|].
  rewrite (scan_without_marks (c :: r) [] H). reflexivity.
Qed.

Lemma X6_text_without_marks_witness :
  splitIntoSentences (of_string " no marks here ")
  = if nonempty (trim (of_string " no marks here "))
    then [trim (of_string " no marks here ")] else [].
Proof. apply X6_text_without_marks. vm_compute. reflexivity. Defined.

(* ----------------------------------------------------------------- *)
(** ** Chunker: shape of the chunks, contiguity, budget *)

Lemma window_nil (ss : list str) (i : nat) : window ss i i = [].
Proof. unfold window. rewrite Nat.sub_diag. reflexivity. Qed.

Lemma window_cons (ss : list str) (i j : nat) :
  i < j -> i < length ss ->
  window ss i j = nth i ss [] :: window ss (S i) j.
Proof.
  intros Hj Hi. unfold window. rewrite (skipn_nth_cons [] ss i Hi).
  replace (j - i) with (S (j - S i)) by lia. reflexivity.
Qed.

Lemma window_all (ss : list str) : window ss 0 (length ss) = ss.
Proof. unfold window. rewrite Nat.sub_0_r. simpl. apply firstn_all. Qed.

Lemma budget_nonneg (l : list str) : (0 <= budget l)%Z.
Proof. induction l as [|a l IH]; simpl; unfold Js.len; lia. Qed.

Section ChunkerBudget.

Variable sentences : list str.
Variables chunkChars overlapChars : Z.

(** While the inner loop runs, the sentences taken before the current one
    are still under the budget. *)
Lemma fill_under_budget fuel : forall idx len parts idx' len' parts',
  fill sentences chunkChars fuel idx len parts = (idx', len', parts') ->
  forall k, idx <= k < idx' ->
    (len + budget (window sentences idx k) < chunkChars)%Z
    \/ (k = idx /\ parts = []).
Proof.
  induction fuel as [|fuel IH]; intros idx len parts idx' len' parts' H k Hk;
    simpl in H.
  - inversion H; subst. lia.
  - destruct ((idx <? length sentences)%nat
              && ((len <? chunkChars)%Z || (length parts =? 0)%nat)) eqn:G;
      [|inversion H; subst; lia].
    apply andb_true_iff in G. destruct G as [G1 G2].
    apply Nat.ltb_lt in G1. apply orb_true_iff in G2.
    destruct (Nat.eq_dec k idx) as [->|Hne].
    + rewrite window_nil. simpl. destruct G2 as [G2|G2].
      * apply Z.ltb_lt in G2. left. lia.
      * apply Nat.eqb_eq in G2. right. split; [reflexivity|].
        destruct parts; [reflexivity|discriminate G2].
    + left. destruct (IH _ _ _ _ _ _ H k ltac:(lia)) as [L|[_ E]].
      * rewrite (window_cons sentences idx k) by lia. simpl. lia.
      * destruct parts; discriminate E.
Qed.

(** When every prefix of the remaining sentences is under the budget, the
    inner loop takes them all. *)
Lemma fill_takes_all fuel : forall idx len parts,
  fuel = length sentences - idx ->
  (forall k, idx <= k < length sentences ->
     (len + budget (window sentences idx k) < chunkChars)%Z
     \/ (k = idx /\ parts = [])) ->
  fill sentences chunkChars fuel idx len parts
  = (Nat.max idx (length sentences),
     (len + budget (window sentences idx (length sentences)))%Z,
     parts ++ window sentences idx (length sentences)).
Proof.
  induction fuel as [|fuel IH]; intros idx len parts Hf HB; simpl.
  - assert (E : window sentences idx (length sentences) = []).
    { unfold window. replace (length sentences - idx) with 0 by lia. reflexivity. }
    rewrite E, app_nil_r. simpl budget. rewrite Z.add_0_r.
    replace (Nat.max idx (length sentences)) with idx by lia. reflexivity.
  - assert (Hi : idx < length sentences) by lia.
    assert (G : (idx <? length sentences)%nat
                && ((len <? chunkChars)%Z || (length parts =? 0)%nat) = true).
    { apply andb_true_iff. split; [apply Nat.ltb_lt; exact Hi|].
      apply orb_true_iff.
      destruct (HB idx ltac:(lia)) as [L|[_ ->]]; [|right; reflexivity].
      rewrite window_nil in L. simpl in L. left. apply Z.ltb_lt. lia. }
    rewrite G. rewrite IH.
    + rewrite (window_cons sentences idx (length sentences)) by lia.
      cbn [budget]. rewrite <- app_assoc. cbn [app].
      replace (Nat.max (S idx) (length sentences))
        with (Nat.max idx (length sentences)) by lia.
      replace (len + Js.len (nth idx sentences []) + 1
               + budget (window sentences (S idx) (length sentences)))%Z
        with (len + (Js.len (nth idx sentences []) + 1
                     + budget (window sentences (S idx) (length sentences))))%Z
        by lia.
      reflexivity.
    + lia.
    + intros k Hk. left. destruct (HB k ltac:(lia)) as [L|[-> _]]; [|lia].
      rewrite (window_cons sentences idx k) in L by lia. simpl in L. lia.
Qed.

(** With no positive overlap the walk back does not move. *)
Lemma backtrack_no_overlap (startIdx j : nat) :
  (overlapChars <= 0)%Z -> backtrack sentences overlapChars startIdx j 0 = j.
Proof.
  intros H.
  assert (E : (0 <? overlapChars)%Z = false) by (apply Z.ltb_ge; exact H).
  destruct j; cbn [backtrack]; rewrite E;
    destruct (startIdx <? _)%nat; reflexivity.
Qed.

(** One iteration, in full. *)
Lemma chunk_step_detail idx charPos c idx' charPos' :
  idx < length sentences ->
  chunk_step sentences chunkChars overlapChars idx charPos = (c, idx', charPos') ->
  id c = num_to_str (startChar c) ++ [HYPHEN] ++ num_to_str (endChar c)
  /\ (startSentence c < endSentence c ->
      (budget (window sentences (startSentence c) (endSentence c))
       < chunkChars)%Z)
  /\ ((overlapChars <= 0)%Z -> idx' = S (endSentence c)).
Proof.
  intros Hidx H. unfold chunk_step in H.
  destruct (fill sentences chunkChars (length sentences - idx) idx 0 [])
    as [[e len'] parts] eqn:F.
  pose proof (fill_under_budget _ _ _ _ _ _ _ F) as U.
  apply fill_spec in F. destruct F as (F1 & F2 & F3 & F4 & F5 & F6).
  assert (He : idx < e) by (apply F6; [lia|lia|reflexivity]).
  destruct (e <? length sentences)%nat eqn:G;
    inversion H; subst; clear H; simpl.
  - split; [reflexivity|]. split.
    + intros Hlt. destruct (U (e - 1) ltac:(lia)) as [L|[E _]]; lia.
    + intros Ho. rewrite (backtrack_no_overlap idx (e - 1) Ho). lia.
  - split; [reflexivity|]. split.
    + intros Hlt. destruct (U (e - 1) ltac:(lia)) as [L|[E _]]; lia.
    + apply Nat.ltb_ge in G. intros _. lia.
Qed.

End ChunkerBudget.

Lemma sentences_of_nonempty (text s : str) :
  In s (sentences_of text) -> (0 < Js.len s)%Z.
Proof.
  unfold sentences_of, splitIntoSentences.
  destruct (normalizeTextForExtraction text); [contradiction|].
  intros H. apply filter_In in H. destruct H as [_ H].
  destruct s; [discriminate H|]. unfold Js.len. simpl. lia.
Qed.

(** The chunker's result, together with an invariant of its loop. *)
Lemma chunker_result_with (text : str) (chunkChars overlapChars : Z)
      (P : nat -> Z -> list Chunk -> Prop) :
  P 0 0%Z [] ->
  (forall idx cp cs c idx' cp',
      P idx cp cs -> idx < length (sentences_of text) ->
      chunk_step (sentences_of text) chunkChars overlapChars idx cp
      = (c, idx', cp') ->
      P idx' cp' (cs ++ [c])) ->
  exists chunks idx cp,
    chunkIntoSemanticChunks text chunkChars overlapChars = Some chunks
    /\ P idx cp chunks /\ length (sentences_of text) <= idx.
Proof.
  intros H0 Hstep. rewrite chunker_unfold.
  set (ss := sentences_of text) in *.
  destruct (chunk_loop_total ss chunkChars overlapChars (length ss) 0 0%Z []
              ltac:(lia)) as [out Hout].
  destruct (chunk_loop_invariant ss chunkChars overlapChars P Hstep
              (length ss) 0 0%Z [] out H0 Hout) as (idx & cp & HP & Hn).
  exists out, idx, cp. auto.
Qed.

(** X7: every chunk record is consistent: its sentence range is inside
    the sentence list, its text is the sentences of that range joined by
    single spaces, [endChar] is [startChar] plus the length of the text,
    the character range is not empty and not negative, and the id is
    ["startChar-endChar"] in decimal. *)
Theorem X7_chunks_well_formed (text : str) (chunkChars overlapChars : Z) :
  exists chunks,
    chunkIntoSemanticChunks text chunkChars overlapChars = Some chunks
    /\ Forall (chunk_wf (sentences_of text)) chunks.
Proof.
  destruct (chunker_result_with text chunkChars overlapChars
    (fun idx cp cs => (0 <= cp)%Z /\ Forall (chunk_wf (sentences_of text)) cs))
    as (chunks & idx & cp & Hrun & [_ HF] & _).
  - split; [lia|constructor].
  - intros idx cp cs c idx' cp' [Hcp HF] Hlt Hstep.
    destruct (chunk_step_detail _ _ _ _ _ _ _ _ Hlt Hstep) as (Hid & _).
    step_facts Hlt Hstep.
    assert (Hlen : (0 < Js.len (Extractors.text c))%Z).
    { rewrite Htxt. pose proof (len_join_space _ Hne) as L.
      assert (B : budget (window (sentences_of text) idx e)
                  = (Js.len (nth idx (sentences_of text) []) + 1
                     + budget (window (sentences_of text) (S idx) e))%Z)
        by (rewrite (window_cons _ idx e) by lia; reflexivity).
      pose proof (budget_nonneg (window (sentences_of text) (S idx) e)).
      pose proof (sentences_of_nonempty text
                    (nth idx (sentences_of text) [])
                    (nth_In _ _ Hlt)).
      lia. }
    split.
    + destruct (Nat.lt_ge_cases e (length (sentences_of text))) as [L|L].
      * destruct (Hmid L) as [_ ->]. lia.
      * destruct (Hend ltac:(lia)) as [_ ->]. lia.
    + apply Forall_app. split; [exact HF|]. constructor; [|constructor].
      unfold chunk_wf. rewrite Hss, Hes.
      replace (S (e - 1)) with e by lia.
      repeat split; try lia; auto.
  - exists chunks. auto.
Qed.

(** X8: the chunks never skip a sentence.  The first chunk starts at
    sentence 0 and character 0, each next chunk starts after the start of
    the previous one and at most one sentence after its end, and the last
    chunk ends with the last sentence. *)
Theorem X8_chunks_contiguous (text : str) (chunkChars overlapChars : Z) :
  exists chunks,
    chunkIntoSemanticChunks text chunkChars overlapChars = Some chunks
    /\ Sorted adjoins chunks
    /\ (forall c, hd_error chunks = Some c ->
          startSentence c = 0 /\ startChar c = 0%Z)
    /\ (forall d, chunks <> [] ->
          S (endSentence (last chunks d)) = length (sentences_of text)).
Proof.
  destruct (chunker_result_with text chunkChars overlapChars
    (fun idx cp cs =>
       Sorted adjoins cs
       /\ (forall c, hd_error cs = Some c ->
             startSentence c = 0 /\ startChar c = 0%Z)
       /\ (cs = [] -> idx = 0 /\ cp = 0%Z)
       /\ (forall d, cs <> [] ->
             startSentence (last cs d) < idx <= S (endSentence (last cs d))
             /\ (length (sentences_of text) <= idx ->
                 S (endSentence (last cs d)) = length (sentences_of text)))))
    as (chunks & idx & cp & Hrun & (HS & Hhd & _ & Hlast) & Hn).
  - split; [constructor|]. split; [discriminate|]. split; [auto|congruence].
  - intros idx cp cs c idx' cp' (HS & Hhd & Hnil & Hlast) Hlt Hstep.
    step_facts Hlt Hstep. split; [|split; [|split]].
    + apply Sorted_snoc_last; [exact HS|]. intros d Hne'.
      destruct (Hlast d Hne') as [H1 _]. unfold adjoins. lia.
    + intros c0 Hc0. destruct cs as [|a cs].
      * inversion Hc0; subst c0. destruct (Hnil eq_refl); subst. tauto.
      * apply Hhd. exact Hc0.
    + intros E. destruct cs; discriminate E.
    + intros d _. rewrite last_last. lia.
  - exists chunks. split; [exact Hrun|]. split; [exact HS|].
    split; [exact Hhd|]. intros d Hne. apply (Hlast d Hne). exact Hn.
Qed.

Lemma X8_chunks_contiguous_witness :
  exists chunks,
    chunkIntoSemanticChunks demo_text 48 10 = Some chunks
    /\ forall c, hd_error chunks = Some c ->
                 startSentence c = 0 /\ startChar c = 0%Z.
Proof.
  destruct (X8_chunks_contiguous demo_text 48 10) as (chunks & H1 & _ & H3 & _).
  exists chunks. auto.
Defined.

(** X9: there are at most as many chunks as sentences, and at least one
    chunk as soon as there is a sentence. *)
Theorem X9_chunk_count (text : str) (chunkChars overlapChars : Z) :
  exists chunks,
    chunkIntoSemanticChunks text chunkChars overlapChars = Some chunks
    /\ length chunks <= length (sentences_of text)
    /\ (chunks = [] <-> sentences_of text = []).
Proof.
  destruct (chunker_result_with text chunkChars overlapChars
    (fun idx cp cs => length cs <= idx <= length (sentences_of text)
                      /\ (cs = [] -> idx = 0)))
    as (chunks & idx & cp & Hrun & (Hlen & Hnil) & Hn).
  - split; [simpl; lia|auto].
  - intros idx cp cs c idx' cp' (Hlen & Hnil) Hlt Hstep.
    step_facts Hlt Hstep. rewrite length_app. simpl. split; [lia|].
    intros E. destruct cs; discriminate E.
  - exists chunks. split; [exact Hrun|]. split; [lia|]. split.
    + intros E. specialize (Hnil E).
      destruct (sentences_of text); [reflexivity|simpl in *; lia].
    + intros E. rewrite E in Hlen. simpl in Hlen.
      destruct chunks; [reflexivity|simpl in Hlen; lia].
Qed.

(** X10: with an overlap of zero or less the chunks partition the
    sentences: each next chunk starts at the sentence after the end of the
    previous one, and its [startChar] is the previous [endChar] minus the
    overlap. *)
Theorem X10_no_overlap_partition (text : str) (chunkChars overlapChars : Z) :
  (overlapChars <= 0)%Z ->
  exists chunks,
    chunkIntoSemanticChunks text chunkChars overlapChars = Some chunks
    /\ Sorted (follows overlapChars) chunks.
Proof.
  intros Ho.
  destruct (chunker_result_with text chunkChars overlapChars
    (fun idx cp cs =>
       Sorted (follows overlapChars) cs
       /\ (forall d, cs <> [] -> idx < length (sentences_of text) ->
             idx = S (endSentence (last cs d))
             /\ cp = (endChar (last cs d) - overlapChars)%Z)))
    as (chunks & idx & cp & Hrun & (HS & _) & _).
  - split; [constructor|congruence].
  - intros idx cp cs c idx' cp' (HS & Hlast) Hlt Hstep.
    destruct (chunk_step_detail _ _ _ _ _ _ _ _ Hlt Hstep) as (_ & _ & Hnext).
    specialize (Hnext Ho).
    step_facts Hlt Hstep. split.
    + apply Sorted_snoc_last; [exact HS|]. intros d Hne'.
      destruct (Hlast d Hne' Hlt) as [H1 H2]. unfold follows. split; lia.
    + intros d _ Hlt'. rewrite last_last. split; [exact Hnext|].
      assert (L : e < length (sentences_of text)) by lia.
      destruct (Hmid L) as [_ ->]. rewrite Hec. unfold Js.len. lia.
  - exists chunks. auto.
Qed.

Lemma X10_no_overlap_partition_witness :
  exists chunks,
    chunkIntoSemanticChunks demo_text 48 0 = Some chunks
    /\ Sorted (follows 0) chunks.
Proof. apply (X10_no_overlap_partition demo_text 48 0). lia. Defined.

(** X11: a chunk is closed as soon as the budget is reached.  In a chunk
    of several sentences, the sentences before the last one, each counted
    with one separator, stay under [chunkChars]; and every chunk but the
    last one has a text of at least [chunkChars - 1] characters. *)
Theorem X11_chunk_budget (input : str) (chunkChars overlapChars : Z) :
  exists chunks,
    chunkIntoSemanticChunks input chunkChars overlapChars = Some chunks
    /\ (forall c, In c chunks -> startSentence c < endSentence c ->
          (budget (window (sentences_of input) (startSentence c) (endSentence c))
           < chunkChars)%Z)
    /\ (forall c, In c (removelast chunks) ->
          (chunkChars <= Js.len (text c) + 1)%Z).
Proof.
  destruct (chunker_result_with input chunkChars overlapChars
    (fun idx cp cs =>
       (forall c, In c cs -> startSentence c < endSentence c ->
          (budget (window (sentences_of input) (startSentence c) (endSentence c))
           < chunkChars)%Z)
       /\ (forall c, In c (removelast cs) ->
             (chunkChars <= Js.len (text c) + 1)%Z)
       /\ (idx < length (sentences_of input) ->
           forall c, In c cs -> (chunkChars <= Js.len (text c) + 1)%Z)))
    as (chunks & idx & cp & Hrun & (H1 & H2 & _) & _).
  - repeat split; intros; contradiction.
  - intros idx cp cs c idx' cp' (H1 & H2 & H3) Hlt Hstep.
    destruct (chunk_step_detail _ _ _ _ _ _ _ _ Hlt Hstep) as (_ & Hu & _).
    step_facts Hlt Hstep. split; [|split].
    + intros c0 Hc0. apply in_app_iff in Hc0.
      destruct Hc0 as [Hc0|[<-|[]]]; [apply H1; exact Hc0|exact Hu].
    + rewrite removelast_last. apply H3. exact Hlt.
    + intros Hlt' c0 Hc0. apply in_app_iff in Hc0.
      destruct Hc0 as [Hc0|[<-|[]]]; [apply H3; assumption|].
      apply Hmid. lia.
  - exists chunks. auto.
Qed.

Lemma X11_chunk_budget_witness :
  exists chunks,
    chunkIntoSemanticChunks demo_text 48 10 = Some chunks
    /\ forall c, In c (removelast chunks) -> (48 <= Js.len (text c) + 1)%Z.
Proof.
  destruct (X11_chunk_budget demo_text 48 10) as (chunks & H1 & _ & H3).
  exists chunks. auto.
Defined.

Lemma budget_firstn (l : list str) : forall k,
  (budget (firstn k l) <= budget l)%Z.
Proof.
  induction l as [|a l IH]; intros [|k]; simpl; try lia.
  - pose proof (budget_nonneg l). unfold Js.len. lia.
  - specialize (IH k). lia.
Qed.

(** X12: when the sentences before the last one, each counted with one
    separator, stay under [chunkChars], the text gives a single chunk that
    holds every sentence. *)
Theorem X12_short_text_single_chunk (input : str) (chunkChars overlapChars : Z) :
  sentences_of input <> [] ->
  (budget (removelast (sentences_of input)) < chunkChars)%Z ->
  chunkIntoSemanticChunks input chunkChars overlapChars
  = Some [mkChunk
            (num_to_str 0
               ++ [HYPHEN]
               ++ num_to_str (0 + Js.len (join [SP] (sentences_of input))))
            (join [SP] (sentences_of input))
            0 (length (sentences_of input) - 1)
            0 (0 + Js.len (join [SP] (sentences_of input)))].
Proof.
  intros Hne Hb. rewrite chunker_unfold.
  set (ss := sentences_of input) in *.
  assert (Hn : 0 < length ss) by (destruct ss; [congruence|simpl; lia]).
  assert (F : fill ss chunkChars (length ss - 0) 0 0 []
              = (length ss, budget ss, ss)).
  { rewrite (fill_takes_all ss chunkChars (length ss - 0) 0 0 []);
      [|reflexivity|].
    - rewrite window_all. simpl. f_equal.
    - intros k Hk. destruct (Nat.eq_dec k 0) as [->|Hk0]; [right; auto|left].
      unfold window. rewrite Nat.sub_0_r. simpl.
      rewrite removelast_firstn_len in Hb.
      assert (E : firstn k ss = firstn k (firstn (pred (length ss)) ss)).
      { rewrite firstn_firstn. f_equal. lia. }
      rewrite E. pose proof (budget_firstn (firstn (pred (length ss)) ss) k).
      lia. }
  destruct (length ss) as [|m] eqn:En; [lia|].
  cbn [chunk_loop]. rewrite En.
  change (0 <? S m) with true. cbv iota.
  unfold chunk_step. rewrite En, F. rewrite Nat.ltb_irrefl.
  destruct m; cbn [chunk_loop]; rewrite En, Nat.ltb_irrefl; reflexivity.
Qed.

Lemma X12_short_text_single_chunk_witness :
  chunkIntoSemanticChunks demo_text 3000 500
  = Some [mkChunk
            (num_to_str 0
               ++ [HYPHEN]
               ++ num_to_str (0 + Js.len (join [SP] (sentences_of demo_text))))
            (join [SP] (sentences_of demo_text))
            0 (length (sentences_of demo_text) - 1)
            0 (0 + Js.len (join [SP] (sentences_of demo_text)))].
Proof.
  apply X12_short_text_single_chunk.
  - vm_compute. discriminate.
  - vm_compute. reflexivity.
Defined.

(* ----------------------------------------------------------------- *)
(** ** Header/footer filter: the lines of the output pages *)

Lemma split_acc_piece (sep : N) (p : str) : forall cur,
  ~ In sep p ->
  split_acc sep cur p = [rev cur ++ p]
  /\ forall s, split_acc sep cur (p ++ sep :: s)
               = (rev cur ++ p) :: split_acc sep [] s.
Proof.
  induction p as [|c p IH]; intros cur H.
  - simpl. rewrite app_nil_r, N.eqb_refl. auto.
  - assert (Hc : (c =? sep)%N = false).
    { apply N.eqb_neq. intros ->. apply H. left. reflexivity. }
    destruct (IH (c :: cur)) as [IH1 IH2]; [intros Hin; apply H; right; exact Hin|].
    assert (R : rev (c :: cur) ++ p = rev cur ++ c :: p)
      by (simpl; rewrite <- app_assoc; reflexivity).
    rewrite R in IH1. simpl. rewrite Hc. split; [exact IH1|].
    intros s. rewrite <- R. apply IH2.
Qed.

(** Joining lines that hold no line feed and splitting again gives the
    lines back. *)
Lemma split_join_lines (ls : list str) :
  ls <> [] -> (forall l, In l ls -> ~ In LF l) ->
  split LF (join [LF] ls) = ls.
Proof.
  unfold split. induction ls as [|p ls IH]; [congruence|]. intros _ H.
  destruct ls as [|q ls].
  - simpl. apply (split_acc_piece LF p []). apply H. left. reflexivity.
  - change (join [LF] (p :: q :: ls)) with (p ++ LF :: join [LF] (q :: ls)).
    rewrite (proj2 (split_acc_piece LF p [] (H p (or_introl eq_refl)))).
    simpl rev. simpl app. f_equal. apply IH; [discriminate|].
    intros l Hl. apply H. right. exact Hl.
Qed.

Lemma split_acc_pieces (sep : N) (s : str) : forall cur x,
  ~ In sep cur -> In x (split_acc sep cur s) -> ~ In sep x.
Proof.
  induction s as [|c s IH]; intros cur x Hcur Hx; simpl in Hx.
  - destruct Hx as [<-|[]]. intros H. apply in_rev in H. exact (Hcur H).
  - destruct (c =? sep)%N eqn:E.
    + destruct Hx as [<-|Hx].
      * intros H. apply in_rev in H. exact (Hcur H).
      * eapply IH; [|exact Hx]. simpl. tauto.
    + eapply IH; [|exact Hx]. apply N.eqb_neq in E.
      intros [H|H]; [congruence|exact (Hcur H)].
Qed.

Lemma trimStart_units (s : str) (c : N) : In c (trimStart s) -> In c s.
Proof.
  induction s as [|a s IH]; simpl; [auto|].
  destruct (is_ws a); [intros H; right; apply IH, H|auto].
Qed.

Lemma trimmed_lines_no_line_feed (p l : str) :
  In l (trimmed_lines p) -> ~ In LF l.
Proof.
  unfold trimmed_lines, split. intros H. apply in_map_iff in H.
  destruct H as (l0 & <- & Hl0). intros Hin.
  apply trimEnd_units, trimStart_units in Hin.
  exact (split_acc_pieces LF p [] l0 (fun F => F) Hl0 Hin).
Qed.

(** X13: the lines of an output page are the trimmed lines of the input
    page that are not classified as repeated, in their order, as long as
    one of them is left (otherwise the page is the empty string). *)
Theorem X13_output_page_lines (pages : list str) (p : str) :
  2 <= length pages ->
  In p pages ->
  In (filter_page (repeats pages) p) (removeHeadersFootersFromPages pages)
  /\ (filter (fun l => negb (repeats pages l)) (trimmed_lines p) <> [] ->
      split LF (filter_page (repeats pages) p)
      = filter (fun l => negb (repeats pages l)) (trimmed_lines p))
  /\ (filter (fun l => negb (repeats pages l)) (trimmed_lines p) = [] ->
      filter_page (repeats pages) p = []).
Proof.
  intros Hn Hp. split; [|split].
  - unfold removeHeadersFootersFromPages.
    destruct (length pages <=? 1) eqn:E; [apply Nat.leb_le in E; lia|].
    apply in_map, Hp.
  - intros Hne. rewrite filter_page_lines. apply split_join_lines; [exact Hne|].
    intros l Hl. apply filter_In in Hl. destruct Hl as [Hl _].
    eapply trimmed_lines_no_line_feed, Hl.
  - intros E. rewrite filter_page_lines, E. reflexivity.
Qed.

Lemma X13_output_page_lines_witness :
  split LF (filter_page (repeats demo_pages) [SP; 97; SP; LF; 98]%N)
  = filter (fun l => negb (repeats demo_pages l))
           (trimmed_lines [SP; 97; SP; LF; 98]%N).
Proof.
  apply (proj1 (proj2 (X13_output_page_lines demo_pages [SP; 97; SP; LF; 98]%N
                          ltac:(simpl; lia) ltac:(left; reflexivity)))).
  vm_compute. discriminate.
Defined.

Lemma count_occ_filter_kept (f : str -> bool) (X : list str) (l : str) :
  f l = true -> count_occ str_eq_dec (filter f X) l = count_occ str_eq_dec X l.
Proof.
  intros Hf. induction X as [|a X IH]; simpl; [reflexivity|].
  destruct (f a) eqn:Fa; simpl; destruct (str_eq_dec a l) as [->|Hne];
    try congruence; lia.
Qed.

Lemma classified_line_removed (pages : list str) (l p : str) :
  l <> [] -> repeats pages l = true ->
  ~ In l (split LF (filter_page (repeats pages) p)).
Proof.
  intros Hl Hr Hin. rewrite filter_page_lines in Hin.
  destruct (filter (fun l => negb (repeats pages l)) (trimmed_lines p))
    as [|k ks] eqn:E.
  - simpl in Hin. destruct Hin as [Hin|[]]. congruence.
  - rewrite split_join_lines in Hin; [| discriminate |].
    + rewrite <- E in Hin. apply filter_In in Hin. destruct Hin as [_ Hin].
      rewrite Hr in Hin. discriminate Hin.
    + intros x Hx. rewrite <- E in Hx. apply filter_In in Hx.
      destruct Hx as [Hx _]. eapply trimmed_lines_no_line_feed, Hx.
Qed.

(** X14: a non-empty line that occurs at least twice among the first and
    last non-empty lines of the pages (and is not the name of a property
    of [Object.prototype]) is a line of no output page. *)
Theorem X14_repeated_line_removed (pages : list str) (l q : str) :
  2 <= length pages ->
  l <> [] -> inherited_key l = false ->
  2 <= count_occ str_eq_dec (map first_line pages ++ map last_line pages) l ->
  In q (removeHeadersFootersFromPages pages) ->
  ~ In l (split LF q).
Proof.
  intros Hn Hl Hk Hc Hq.
  assert (Hr : repeats pages l = true).
  { unfold repeats, boundary_lines. rewrite Hk.
    rewrite count_occ_filter_kept by (destruct l; [congruence|reflexivity]).
    apply andb_true_iff. split; [apply Nat.ltb_lt; lia|reflexivity]. }
  unfold removeHeadersFootersFromPages in Hq.
  destruct (length pages <=? 1) eqn:E; [apply Nat.leb_le in E; lia|].
  apply in_map_iff in Hq. destruct Hq as (p & <- & _).
  apply classified_line_removed; assumption.
Qed.

Lemma X14_repeated_line_removed_witness :
  ~ In (of_string "Report")
       (split LF (nth 2 (removeHeadersFootersFromPages header_pages) [])).
Proof.
  apply (X14_repeated_line_removed header_pages).
  - simpl. lia.
  - discriminate.
  - vm_compute. reflexivity.
  - vm_compute. lia.
  - vm_compute. tauto.
Defined.

(** X15: in an input of two pages or more, a page with a single non-empty
    line loses that line, whatever the other pages hold: the line is
    counted once as the page's first line and once as its last line.  The
    exception is a line that names a property of [Object.prototype] (such
    as [toString]): its count is never a number, and the line is kept. *)
Theorem X15_single_line_page_emptied (pages : list str) (p l : str) :
  2 <= length pages ->
  In p pages ->
  filter nonempty (trimmed_lines p) = [l] ->
  (inherited_key l = false ->
   forall x, In x (split LF (filter_page (repeats pages) p)) -> x = [])
  /\ (inherited_key l = true ->
      In l (split LF (filter_page (repeats pages) p))).
Proof.
  intros Hn Hp Hone.
  assert (Hl : In l (filter nonempty (trimmed_lines p)))
    by (rewrite Hone; left; reflexivity).
  apply filter_In in Hl. destruct Hl as [Hl Hlne].
  assert (Hfeed : forall y,
             In y (filter (fun l => negb (repeats pages l)) (trimmed_lines p)) ->
             ~ In LF y).
  { intros y Hy. apply filter_In in Hy. destruct Hy as [Hy _].
    eapply trimmed_lines_no_line_feed, Hy. }
  split.
  - intros Hk x Hx.
    assert (Hr : repeats pages l = true).
    { unfold repeats, boundary_lines. rewrite Hk.
      rewrite count_occ_filter_kept by exact Hlne.
      rewrite count_occ_app.
      assert (H1 : In l (map first_line pages)).
      { apply in_map_iff. exists p. split; [|exact Hp].
        unfold first_line. rewrite Hone. reflexivity. }
      assert (H2 : In l (map last_line pages)).
      { apply in_map_iff. exists p. split; [|exact Hp].
        unfold last_line. rewrite Hone. reflexivity. }
      apply (count_occ_In str_eq_dec) in H1, H2.
      apply andb_true_iff. split; [apply Nat.ltb_lt; lia|reflexivity]. }
    rewrite filter_page_lines in Hx.
    destruct (filter (fun l => negb (repeats pages l)) (trimmed_lines p))
      as [|k ks] eqn:E.
    + destruct Hx as [<-|[]]. reflexivity.
    + rewrite split_join_lines in Hx; [| discriminate | exact Hfeed].
      rewrite <- E in Hx. apply filter_In in Hx. destruct Hx as [Hx Hnr].
      destruct x as [|c x]; [reflexivity|]. exfalso.
      assert (Hx' : In (c :: x) (filter nonempty (trimmed_lines p)))
        by (apply filter_In; split; [exact Hx|reflexivity]).
      rewrite Hone in Hx'. destruct Hx' as [Hx'|[]]. rewrite <- Hx' in Hnr.
      rewrite Hr in Hnr. discriminate Hnr.
  - intros Hk.
    assert (Hr : repeats pages l = false).
    { unfold repeats. rewrite Hk. apply andb_false_r. }
    assert (Hkept : In l (filter (fun l => negb (repeats pages l))
                                 (trimmed_lines p))).
    { apply filter_In. split; [exact Hl|]. rewrite Hr. reflexivity. }
    rewrite filter_page_lines.
    rewrite split_join_lines; [exact Hkept| |exact Hfeed].
    intros E. rewrite E in Hkept. contradiction.
Qed.

Lemma X15_single_line_page_emptied_witness :
  nth 0 (split LF (filter_page (repeats one_line_pages)
                               (of_string "Chapter one")) ) [] = [].
Proof.
  apply (proj1 (X15_single_line_page_emptied one_line_pages
                  (of_string "Chapter one") (of_string "Chapter one")
                  ltac:(simpl; lia) ltac:(left; reflexivity) eq_refl)).
  - vm_compute. reflexivity.
  - vm_compute. tauto.
Defined.

(* ----------------------------------------------------------------- *)
(** ** Similarity engine: sets, symmetry, range *)


Lemma set_from_In_iff (l : list str) : forall seen x,
  In x (set_from seen l) <-> In x l /\ ~ In x seen.
Proof.
  intros seen x. split; [apply set_from_In|]. revert seen.
  induction l as [|a l IH]; intros seen [Hin Hs]; simpl in *; [contradiction|].
  destruct (existsb (str_eqb a) seen) eqn:E.
  - apply IH. split; [|exact Hs]. destruct Hin as [->|Hin]; [|exact Hin].
    exfalso. apply Hs. apply (has_In seen x). exact E.
  - destruct (str_eq_dec a x) as [->|Hne]; [left; reflexivity|right].
    apply IH. split; [tauto|]. simpl. tauto.
Qed.

Lemma set_from_NoDup (l : list str) : forall seen, NoDup (set_from seen l).
Proof.
  induction l as [|a l IH]; intros seen; simpl; [constructor|].
  destruct (existsb (str_eqb a) seen); [apply IH|].
  constructor; [|apply IH]. intros H. apply set_from_In in H.
  simpl in H. tauto.
Qed.

Lemma Set_of_In (l : list str) (x : str) : In x (Set_of l) <-> In x l.
Proof. unfold Set_of. rewrite set_from_In_iff. simpl. tauto. Qed.

Lemma Set_of_NoDup (l : list str) : NoDup (Set_of l).
Proof. apply set_from_NoDup. Qed.

Lemma vocabulary_In_iff (a b : list str) (x : str) :
  In x (vocabulary a b) <-> In x a \/ In x b.
Proof.
  unfold vocabulary. rewrite Set_of_In, in_app_iff, !Set_of_In. tauto.
Qed.

Lemma vocabulary_swap (a b : list str) :
  Permutation (vocabulary a b) (vocabulary b a).
Proof.
  apply NoDup_Permutation; try apply Set_of_NoDup.
  intros x. rewrite !vocabulary_In_iff. tauto.
Qed.

Lemma union_size_swap (a b : list str) : union_size a b = union_size b a.
Proof. apply Permutation_length, vocabulary_swap. Qed.

Lemma inter_size_swap (a b : list str) : inter_size a b = inter_size b a.
Proof.
  unfold inter_size. apply Permutation_length, NoDup_Permutation;
    try (apply NoDup_filter, Set_of_NoDup).
  intros x. rewrite !filter_In, !has_In. tauto.
Qed.

Lemma fold_add_sum (f : str -> nat) (l : list str) : forall n,
  fold_left (fun acc w => acc + f w) l n = n + list_sum (map f l).
Proof.
  induction l as [|a l IH]; intros n; simpl; [lia|]. rewrite IH. lia.
Qed.

Lemma list_sum_perm (l1 l2 : list nat) :
  Permutation l1 l2 -> list_sum l1 = list_sum l2.
Proof. induction 1; simpl; lia. Qed.

Lemma dot_sum (a b : list str) :
  dot a b = list_sum (map (fun w => freq a w * freq b w) (vocabulary a b)).
Proof. unfold dot. rewrite fold_add_sum. reflexivity. Qed.

Lemma norm2_sum (a voc : list str) :
  norm2 a voc = list_sum (map (fun w => freq a w * freq a w) voc).
Proof. unfold norm2. rewrite fold_add_sum. reflexivity. Qed.

Lemma dot_swap (a b : list str) : dot a b = dot b a.
Proof.
  rewrite !dot_sum.
  rewrite (list_sum_perm _ _ (Permutation_map _ (vocabulary_swap a b))).
  f_equal. apply map_ext. intros w. lia.
Qed.

Lemma norm2_swap (x a b : list str) :
  norm2 x (vocabulary a b) = norm2 x (vocabulary b a).
Proof.
  rewrite !norm2_sum.
  apply list_sum_perm, Permutation_map, vocabulary_swap.
Qed.

Lemma jaccard_swap (a b : list str) : jaccard a b = jaccard b a.
Proof.
  unfold jaccard. rewrite (union_size_swap a b), (inter_size_swap a b).
  reflexivity.
Qed.

Lemma cosineSim_swap (a b : list str) : cosineSim a b = cosineSim b a.
Proof.
  unfold cosineSim.
  assert (H : has (vocabulary a b) constructor_word
              = has (vocabulary b a) constructor_word).
  { apply eq_true_iff_eq. rewrite !has_In, !vocabulary_In_iff. tauto. }
  rewrite H, (dot_swap a b), (norm2_swap a a b), (norm2_swap b a b).
  destruct (has (vocabulary b a) constructor_word); [reflexivity|].
  cbv zeta. rewrite orb_comm.
  destruct ((norm2 b (vocabulary b a) =? 0) || (norm2 a (vocabulary b a) =? 0));
    [reflexivity|].
  rewrite (Rmult_comm (round64 (sqrt (INR (norm2 a (vocabulary b a)))))).
  reflexivity.
Qed.

(** X16: the three signals and the combined similarity do not depend on
    the order of their two arguments. *)
Theorem X16_similarity_symmetric (x y : str) (a b : list str) :
  jaccard a b = jaccard b a
  /\ cosineSim a b = cosineSim b a
  /\ bigramJaccard (bigrams x) (bigrams y) = bigramJaccard (bigrams y) (bigrams x)
  /\ semanticSimilarity x y = semanticSimilarity y x.
Proof.
  split; [apply jaccard_swap|]. split; [apply cosineSim_swap|].
  split; [apply jaccard_swap|].
  unfold semanticSimilarity. cbv zeta. rewrite orb_comm.
  rewrite (jaccard_swap (tokens x)), (cosineSim_swap (tokens x)). reflexivity.
Qed.

Lemma set_from_fresh (l : list str) : forall seen,
  NoDup l -> (forall x, In x l -> ~ In x seen) -> set_from seen l = l.
Proof.
  induction l as [|a l IH]; intros seen Hnd Hs; simpl; [reflexivity|].
  inversion Hnd; subst.
  assert (E : existsb (str_eqb a) seen = false).
  { destruct (existsb (str_eqb a) seen) eqn:E; [|reflexivity].
    exfalso. apply (Hs a (or_introl eq_refl)). apply (has_In seen a). exact E. }
  rewrite E. f_equal. apply IH; [assumption|].
  intros x Hx [<-|Hin]; [contradiction|]. apply (Hs x); [right; exact Hx|exact Hin].
Qed.

Lemma inter_le_union (a b : list str) : inter_size a b <= union_size a b.
Proof.
  unfold inter_size, union_size. unfold Set_of at 3.
  destruct (set_from_app (Set_of a) (Set_of b) []) as (s' & -> & _).
  rewrite length_app.
  rewrite (set_from_fresh (Set_of a) [] (Set_of_NoDup a)) by (intros x _ []).
  pose proof (filter_length_le (has (Set_of b)) (Set_of a)). lia.
Qed.

(** The Jaccard ratio is a number between 0 and 1. *)
Lemma jaccard_range (a b : list str) :
  exists j, jaccard a b = Fin j /\ (0 <= j <= 1)%R.
Proof.
  unfold jaccard. destruct (union_size a b =? 0) eqn:E.
  - exists 0%R. split; [reflexivity|lra].
  - apply Nat.eqb_neq in E. eexists. split; [reflexivity|].
    assert (U : (0 < INR (union_size a b))%R) by (apply lt_0_INR; lia).
    pose proof (pos_INR (inter_size a b)) as I.
    pose proof (le_INR _ _ (inter_le_union a b)) as L.
    assert (Q0 : (0 <= INR (inter_size a b) / INR (union_size a b))%R).
    { apply Rmult_le_pos; [exact I|]. left. apply Rinv_0_lt_compat. exact U. }
    assert (Q1 : (INR (inter_size a b) / INR (union_size a b) <= 1)%R).
    { apply (Rmult_le_reg_r (INR (union_size a b))); [exact U|].
      unfold Rdiv. rewrite Rmult_assoc, Rinv_l, Rmult_1_r, Rmult_1_l by lra.
      exact L. }
    split; [apply round64_nonneg; exact Q0|apply round64_le_1; auto].
Qed.

Lemma combined_score_nonneg (response e : str) :
  exists v, combined_score response e = Fin v /\ (0 <= v)%R.
Proof.
  unfold combined_score, bigramJaccard.
  destruct (jaccard_range (bigrams response) (bigrams e)) as (j & -> & Hj).
  destruct (or_zero_finite (semanticSimilarity response e)) as (t & ->).
  simpl. eexists. split; [reflexivity|].
  pose proof (Rmax_r t j). lra.
Qed.

Lemma fold_Math_max_attained (l : list num) : forall x m,
  fold_left Math_max l x = Fin m -> In (Fin m) (x :: l).
Proof.
  induction l as [|a l IH]; intros x m H; simpl in H.
  - left. exact H.
  - apply IH in H. destruct H as [H|H]; [|right; right; exact H].
    destruct x as [|rx]; [discriminate H|]. destruct a as [|ra]; [discriminate H|].
    simpl in H.
    unfold Rmax in H. destruct (Rle_dec rx ra);
      [right; left|left]; exact H.
Qed.

Lemma semanticMatchScore_cases (response : str) (expected : list str) :
  (trim response = [] \/ expected = [] ->
   semanticMatchScore response expected = Fin 0)
  /\ (trim response <> [] -> expected <> [] ->
      semanticMatchScore response expected
      = Math_max_list (map (combined_score response) expected)).
Proof.
  unfold semanticMatchScore. split.
  - intros [H|H].
    + rewrite H. simpl. rewrite orb_true_r. reflexivity.
    + rewrite H. simpl. destruct (_ || _); reflexivity.
  - intros Ht He.
    assert (G : nonempty (trim response) = true)
      by (destruct (trim response); [congruence|reflexivity]).
    assert (G' : nonempty response = true)
      by (destruct response; [exfalso; apply Ht; reflexivity|reflexivity]).
    rewrite G, G'. simpl negb. simpl orb. cbv iota.
    destruct expected as [|e es]; [congruence|].
    change (length (e :: es) =? 0) with false. cbv iota.
    rewrite combine_map_map, map_map. reflexivity.
Qed.

Lemma semanticMatchScore_nonneg (response : str) (expected : list str) :
  exists s, semanticMatchScore response expected = Fin s /\ (0 <= s)%R.
Proof.
  destruct (semanticMatchScore_cases response expected) as [H0 H1].
  destruct (trim response) as [|c r] eqn:Et.
  { exists 0%R. split; [apply H0; auto|lra]. }
  destruct expected as [|e es].
  { exists 0%R. split; [apply H0; auto|lra]. }
  rewrite H1 by discriminate. cbn [map Math_max_list].
  destruct (fold_Math_max_bounds (map (combined_score response) es)
              (combined_score response e)) as (m & Hm & Hb).
  { intros y [<-|Hy]; [apply combined_score_finite|].
    apply in_map_iff in Hy. destruct Hy as (e' & <- & _).
    apply combined_score_finite. }
  exists m. split; [exact Hm|].
  destruct (combined_score_nonneg response e) as (v & Hv & Hv0).
  specialize (Hb v (or_introl Hv)). lra.
Qed.

(** X17: the grading score is never [NaN] and never negative, and it is 0
    for a blank response or an empty list of expected answers. *)
Theorem X17_score_finite_nonnegative (response : str) (expected : list str) :
  (exists s, semanticMatchScore response expected = Fin s /\ (0 <= s)%R)
  /\ (trim response = [] \/ expected = [] ->
      semanticMatchScore response expected = Fin 0).
Proof.
  split; [apply semanticMatchScore_nonneg|].
  apply (proj1 (semanticMatchScore_cases response expected)).
Qed.

(** X18: for a response that is not blank, the grading score is the
    largest of the combined scores of the expected answers: it bounds each
    of them and is the combined score of one of them. *)
Theorem X18_score_is_best_answer (response : str) (expected : list str) :
  trim response <> [] -> expected <> [] ->
  exists s,
    semanticMatchScore response expected = Fin s
    /\ (forall e, In e expected ->
          exists v, combined_score response e = Fin v /\ (v <= s)%R)
    /\ (exists e, In e expected /\ combined_score response e = Fin s).
Proof.
  intros Ht He.
  rewrite (proj2 (semanticMatchScore_cases response expected) Ht He).
  destruct expected as [|e0 es]; [congruence|]. cbn [map Math_max_list].
  destruct (fold_Math_max_bounds (map (combined_score response) es)
              (combined_score response e0)) as (m & Hm & Hb).
  { intros y [<-|Hy]; [apply combined_score_finite|].
    apply in_map_iff in Hy. destruct Hy as (e' & <- & _).
    apply combined_score_finite. }
  exists m. split; [exact Hm|]. split.
  - intros e Hin. destruct (combined_score_finite response e) as (v & Hv).
    exists v. split; [exact Hv|]. apply Hb. rewrite <- Hv.
    change (In (combined_score response e)
               (map (combined_score response) (e0 :: es))).
    apply in_map, Hin.
  - apply fold_Math_max_attained in Hm.
    change (In (Fin m) (map (combined_score response) (e0 :: es))) in Hm.
    apply in_map_iff in Hm. destruct Hm as (e & He' & Hin). eauto.
Qed.

Lemma X18_score_is_best_answer_witness :
  exists s,
    semanticMatchScore cat_word [the_word; cat_word] = Fin s
    /\ (forall e, In e [the_word; cat_word] ->
          exists v, combined_score cat_word e = Fin v /\ (v <= s)%R)
    /\ (exists e, In e [the_word; cat_word] /\ combined_score cat_word e = Fin s).
Proof.
  apply X18_score_is_best_answer; [vm_compute|]; discriminate.
Defined.

Lemma X17_score_finite_nonnegative_witness :
  semanticMatchScore [SP; SP] [cat_word] = Fin 0.
Proof.
  apply (proj2 (X17_score_finite_nonnegative [SP; SP] [cat_word])).
  left. vm_compute. reflexivity.
Defined.

Lemma cosineSim_nan_iff (a b : list str) :
  cosineSim a b = NaN <-> In constructor_word a \/ In constructor_word b.
Proof.
  unfold cosineSim. rewrite <- vocabulary_In_iff, <- has_In.
  destruct (has (vocabulary a b) constructor_word); cbv zeta.
  - tauto.
  - destruct ((norm2 a (vocabulary a b) =? 0) || (norm2 b (vocabulary a b) =? 0));
      split; discriminate.
Qed.

(** X19: the Jaccard signal is a number between 0 and 1.  The combined
    similarity of two texts is [NaN] exactly when both have tokens and one
    of them has the token [constructor]; in every other case it is a
    number that is not negative. *)
Theorem X19_similarity_range (x y : str) (a b : list str) :
  (exists j, jaccard a b = Fin j /\ (0 <= j <= 1)%R)
  /\ (semanticSimilarity x y = NaN <->
      tokens x <> [] /\ tokens y <> []
      /\ (In constructor_word (tokens x) \/ In constructor_word (tokens y)))
  /\ (forall s, semanticSimilarity x y = Fin s -> (0 <= s)%R).
Proof.
  split; [apply jaccard_range|].
  unfold semanticSimilarity. cbv zeta.
  destruct (jaccard_range (tokens x) (tokens y)) as (j & Hj & Hj0).
  pose proof (cosineSim_nan_iff (tokens x) (tokens y)) as Hc.
  destruct (tokens x) as [|tx txs] eqn:Ex.
  { simpl. split; [split; [discriminate|tauto]|]. intros s E. inversion E. lra. }
  destruct (tokens y) as [|ty tys] eqn:Ey.
  { simpl. split; [split; [discriminate|tauto]|]. intros s E. inversion E. lra. }
  change ((length (tx :: txs) =? 0) || (length (ty :: tys) =? 0)) with false.
  cbv iota. rewrite Hj.
  destruct (cosineSim (tx :: txs) (ty :: tys)) as [|c] eqn:Ec; simpl.
  - split; [|discriminate]. split; [intros _|reflexivity].
    split; [discriminate|]. split; [discriminate|]. apply Hc. reflexivity.
  - split.
    + split; [discriminate|]. intros (_ & _ & H). apply Hc in H. discriminate H.
    + intros s E. inversion E. pose proof (Rmax_l j c). lra.
Qed.

Lemma X19_similarity_range_witness :
  semanticSimilarity (of_string "a constructor") (of_string "the constructor")
  = NaN.
Proof.
  apply (proj1 (proj2 (X19_similarity_range
                          (of_string "a constructor")
                          (of_string "the constructor") [] []))).
  vm_compute. split; [discriminate|]. split; [discriminate|]. left. left.
  reflexivity.
Defined.

(* ----------------------------------------------------------------- *)
(** ** Grader: unrelated answers, rounding of partial credit *)

Lemma filter_none {A : Type} (f : A -> bool) (l : list A) :
  (forall x, In x l -> f x = false) -> filter f l = [].
Proof.
  induction l as [|a l IH]; intros H; simpl; [reflexivity|].
  rewrite (H a) by (left; reflexivity). apply IH.
  intros x Hx. apply H. right. exact Hx.
Qed.

Lemma jaccard_disjoint (a b : list str) :
  (forall w, In w a -> ~ In w b) -> jaccard a b = Fin 0.
Proof.
  intros H. unfold jaccard.
  assert (I : inter_size a b = 0).
  { unfold inter_size. rewrite filter_none; [reflexivity|].
    intros x Hx. apply (proj1 (Set_of_In a x)) in Hx.
    destruct (has (Set_of b) x) eqn:E; [|reflexivity].
    apply (proj1 (has_In _ _)) in E. apply (proj1 (Set_of_In b x)) in E.
    exfalso. exact (H x Hx E). }
  rewrite I. destruct (union_size a b =? 0); [reflexivity|].
  simpl. unfold Rdiv. rewrite Rmult_0_l, round64_0. reflexivity.
Qed.

Lemma list_sum_zero {A : Type} (f : A -> nat) (l : list A) :
  (forall x, In x l -> f x = 0) -> list_sum (map f l) = 0.
Proof.
  induction l as [|a l IH]; intros H; simpl; [reflexivity|].
  rewrite (H a) by (left; reflexivity). apply IH.
  intros x Hx. apply H. right. exact Hx.
Qed.

Lemma cosineSim_disjoint (a b : list str) :
  (forall w, In w a -> ~ In w b) ->
  cosineSim a b = NaN \/ cosineSim a b = Fin 0.
Proof.
  intros H. unfold cosineSim.
  destruct (has (vocabulary a b) constructor_word); [left; reflexivity|right].
  cbv zeta. destruct (_ || _); [reflexivity|].
  assert (D : dot a b = 0).
  { rewrite dot_sum. apply list_sum_zero. intros w _. unfold freq.
    destruct (in_dec str_eq_dec w a) as [Ha|Ha].
    - rewrite (proj1 (count_occ_not_In str_eq_dec b w) (H w Ha)). lia.
    - rewrite (proj1 (count_occ_not_In str_eq_dec a w) Ha). lia. }
  rewrite D. simpl. unfold Rdiv. rewrite Rmult_0_l, round64_0. reflexivity.
Qed.

Lemma words_no_space (s w : str) : In w (words s) -> ~ In SP w.
Proof.
  unfold words, split. intros H. apply filter_In in H. destruct H as [H _].
  exact (split_acc_pieces SP _ [] w (fun F => F) H).
Qed.

Lemma adjacent_pairs_In (l : list str) (p : str) :
  In p (adjacent_pairs l) ->
  exists x y, In x l /\ In y l /\ p = x ++ [SP] ++ y.
Proof.
  induction l as [|a l IH]; [contradiction|].
  destruct l as [|b l]; [contradiction|].
  change (adjacent_pairs (a :: b :: l))
    with ((a ++ [SP] ++ b) :: adjacent_pairs (b :: l)).
  intros [<-|H].
  - exists a, b. simpl. auto.
  - destruct (IH H) as (x & y & Hx & Hy & E). exists x, y.
    repeat split; [right; exact Hx|right; exact Hy|exact E].
Qed.

Lemma app_sep_unique (sep : N) (x : str) : forall x' y y',
  ~ In sep x -> ~ In sep x' ->
  x ++ sep :: y = x' ++ sep :: y' -> x = x'.
Proof.
  induction x as [|c x IH]; intros [|c' x'] y y' Hx Hx' E; simpl in *.
  - reflexivity.
  - inversion E; subst. tauto.
  - inversion E; subst. tauto.
  - inversion E; subst. f_equal. apply (IH x' y y'); tauto.
Qed.

Lemma bigrams_disjoint (r e : str) :
  (forall w, In w (words r) -> ~ In w (words e)) ->
  forall p, In p (bigrams r) -> ~ In p (bigrams e).
Proof.
  intros H p Hr He. unfold bigrams in Hr, He. rewrite bigram_loop in Hr, He.
  apply adjacent_pairs_In in Hr. apply adjacent_pairs_In in He.
  destruct Hr as (x & y & Hx & _ & ->). destruct He as (x' & y' & Hx' & _ & E).
  apply app_sep_unique in E;
    [|eapply words_no_space; eassumption|eapply words_no_space; eassumption].
  subst x'. exact (H x Hx Hx').
Qed.

Lemma combined_score_disjoint (r e : str) :
  (forall w, In w (words r) -> ~ In w (words e)) ->
  combined_score r e = Fin 0.
Proof.
  intros H. unfold combined_score, bigramJaccard.
  rewrite (jaccard_disjoint _ _ (bigrams_disjoint r e H)).
  assert (T : forall w, In w (tokens r) -> ~ In w (tokens e)).
  { unfold tokens. intros w Hw He. apply filter_In in Hw, He.
    exact (H w (proj1 Hw) (proj1 He)). }
  assert (S : or_zero (semanticSimilarity r e) = Fin 0).
  { unfold semanticSimilarity. cbv zeta. destruct (_ || _); [reflexivity|].
    rewrite (jaccard_disjoint _ _ T).
    destruct (cosineSim_disjoint _ _ T) as [->| ->]; simpl; [reflexivity|].
    rewrite Rmax_left by lra. reflexivity. }
  rewrite S. simpl. rewrite Rmax_left by lra. reflexivity.
Qed.

Lemma fold_Math_max_zero (l : list num) :
  (forall y, In y l -> y = Fin 0) -> fold_left Math_max l (Fin 0) = Fin 0.
Proof.
  induction l as [|a l IH]; intros H; simpl; [reflexivity|].
  rewrite (H a) by (left; reflexivity). simpl. rewrite Rmax_left by lra.
  apply IH. intros y Hy. apply H. right. exact Hy.
Qed.




Lemma collapse_ws_units (t : str) : forall b c,
  In c (collapse_ws b t) -> c = SP \/ (In c t /\ is_ws c = false).
Proof.
  induction t as [|a t IH]; intros b c H; simpl in H; [contradiction|].
  destruct (is_ws a) eqn:W.
  - destruct b.
    + destruct (IH _ _ H) as [E|[E1 E2]]; [auto|right; simpl; auto].
    + destruct H as [<-|H]; [auto|].
      destruct (IH _ _ H) as [E|[E1 E2]]; [auto|right; simpl; auto].
  - destruct H as [<-|H]; [right; simpl; auto|].
    destruct (IH _ _ H) as [E|[E1 E2]]; [auto|right; simpl; auto].
Qed.

Lemma split_acc_units (sep : N) (s : str) : forall cur x c,
  In x (split_acc sep cur s) -> In c x -> In c cur \/ In c s.
Proof.
  induction s as [|a s IH]; intros cur x c Hx Hc; simpl in Hx.
  - destruct Hx as [<-|[]]. left. apply in_rev. exact Hc.
  - destruct (a =? sep)%N.
    + destruct Hx as [<-|Hx]; [left; apply in_rev; exact Hc|].
      destruct (IH _ _ _ Hx Hc) as [[]|H]. right. right. exact H.
    + destruct (IH _ _ _ Hx Hc) as [[<-|H]|H]; simpl; auto.
Qed.

(** X21: every token is a non-empty word of lowercase letters and
    digits, and is not a stopword. *)
Theorem X21_tokens_are_plain_words (s t : str) :
  In t (tokens s) ->
  t <> [] /\ ~ In t stop /\ forallb alnum_lower t = true.
Proof.
  unfold tokens. intros H. apply filter_In in H. destruct H as [Hw Hs].
  split; [|split].
  - unfold words in Hw. apply filter_In in Hw. destruct Hw as [_ Hw].
    intros E. rewrite E in Hw. discriminate Hw.
  - intros Hin. apply has_In in Hin. rewrite Hin in Hs. discriminate Hs.
  - apply forallb_forall. intros c Hc.
    assert (Hsp : c <> SP).
    { intros ->. exact (words_no_space s t Hw Hc). }
    unfold words in Hw. apply filter_In in Hw. destruct Hw as [Hw _].
    destruct (split_acc_units SP _ [] t c Hw Hc) as [[]|Hn].
    unfold normalizeText, trim in Hn.
    apply trimEnd_units, trimStart_units, collapse_ws_units in Hn.
    destruct Hn as [E|[Hn W]]; [congruence|].
    unfold strip in Hn. apply in_map_iff in Hn. destruct Hn as (d & Hd & _).
    destruct (keeps d) eqn:K; [|congruence]. subst d.
    unfold keeps in K. rewrite W, orb_false_r in K. exact K.
Qed.

Lemma X21_tokens_are_plain_words_witness :
  of_string "atp" <> [] /\ ~ In (of_string "atp") stop
  /\ forallb alnum_lower (of_string "atp") = true.
Proof.
  apply (X21_tokens_are_plain_words demo_sentence2). vm_compute. tauto.
Defined.

(** X22: the points stored for a written answer are a whole number that
    is not negative: the binary64 product of the score and the question's
    points, rounded to the nearest integer (halves upwards), hence within
    half a point of that product. *)
Theorem X22_partial_credit_rounding
        (resp : str) (expected : list str) (points : R) :
  (0 <= points)%R ->
  exists s k,
    semanticMatchScore resp expected = Fin s
    /\ snd (handleQuizFinish_written resp expected points) = Fin (IZR k)
    /\ (0 <= k)%Z
    /\ (round64 (s * points) - / 2 < IZR k <= round64 (s * points) + / 2)%R.
Proof.
  intros Hp.
  destruct (semanticMatchScore_nonneg resp expected) as (s & Hs & Hs0).
  exists s, (Int_part (round64 (s * points) + / 2)).
  split; [exact Hs|].
  assert (Hprod : (0 <= round64 (s * points))%R)
    by (apply round64_nonneg, Rmult_le_pos; assumption).
  destruct (base_Int_part (round64 (s * points) + / 2)) as [B1 B2].
  assert (Hk : (0 <= Int_part (round64 (s * points) + / 2))%Z).
  { assert (Hz : (IZR (-1) < IZR (Int_part (round64 (s * points) + / 2)))%R)
      by (simpl; lra).
    apply lt_IZR in Hz. lia. }
  split; [|split; [exact Hk|lra]].
  unfold handleQuizFinish_written. rewrite Hs. simpl.
  f_equal. apply Rmax_right. apply IZR_le in Hk. simpl in Hk. lra.
Qed.

Lemma X22_partial_credit_rounding_witness :
  exists s k,
    semanticMatchScore cat_word [cat_dog_bird] = Fin s
    /\ snd (handleQuizFinish_written cat_word [cat_dog_bird] 1) = Fin (IZR k)
    /\ (0 <= k)%Z
    /\ (round64 (s * 1) - / 2 < IZR k <= round64 (s * 1) + / 2)%R.
Proof. apply X22_partial_credit_rounding. lra. Defined.

Lemma round64_half : round64 (/ 2) = (/ 2)%R.
Proof.
  replace (/ 2)%R with (powerRZ 2 (-1)) by (simpl; lra).
  apply round64_pow2. lia.
Qed.

(** A score from one half up to the threshold, on a question worth one
    point. *)
Lemma full_point_below_threshold
        (resp : str) (expected : list str) (s : R) :
  semanticMatchScore resp expected = Fin s ->
  (/ 2 <= s < round64 (6 / 10))%R ->
  handleQuizFinish_written resp expected 1 = (false, Fin 1).
Proof.
  intros Hs Hb. unfold handleQuizFinish_written.
  rewrite Hs. unfold threshold, literal.
  rewrite num_geb_false by lra. rewrite round64_six_tenths in Hb.
  assert (L : (/ 2 <= round64 (s * 1))%R).
  { rewrite <- round64_half. apply round64_le; lra. }
  assert (U : (round64 (s * 1) <= 1)%R) by (apply round64_le_1; lra).
  cbn [or_zero num_mul Math_round Math_max].
  rewrite <- (Int_part_spec (round64 (s * 1) + / 2) 1) by (simpl; lra).
  rewrite Rmax_right by (simpl; lra). reflexivity.
Qed.

(** X23: on a question worth one point, a written answer whose score is
    at least 0.5 and below the threshold (the binary64 value of [0.6]) is
    classified incorrect and still stores the full point as partial
    credit. *)
Theorem X23_incorrect_with_full_point
        (resp : str) (expected : list str) (s : R) :
  semanticMatchScore resp expected = Fin s ->
  (/ 2 <= s < round64 (6 / 10))%R ->
  handleQuizFinish_written resp expected 1 = (false, Fin 1).
Proof. apply full_point_below_threshold. Qed.

(** The similarity of two token lists without the word [constructor], in
    terms of their counts. *)
Lemma sim_by_profile (a b : str) (i u d na nb : nat) :
  sim_profile a b = (false, false, false, (i, u), (d, S na, S nb)) ->
  u <> 0 ->
  semanticSimilarity a b
  = Fin (Rmax (round64 (INR i / INR u))
              (round64 (INR d / round64 (round64 (sqrt (INR (S na)))
                                         * round64 (sqrt (INR (S nb))))))).
Proof.
  unfold sim_profile. intros H Hu. injection H as H1 H2 H3 H4 H5 H6 H7 H8.
  unfold semanticSimilarity, jaccard, cosineSim.
  rewrite H1, H2, H3, H4, H5, H6, H7, H8.
  apply Nat.eqb_neq in Hu. rewrite Hu. reflexivity.
Qed.

(** The answer [cat] against the expected answer [cat dog bird]: the
    cosine [1 / (Math.sqrt(1) * Math.sqrt(3))] is 0.5773502691896258. *)
Lemma score_cat_against_three_words :
  semanticMatchScore cat_word [cat_dog_bird]
  = Fin (5200308914369309 / 9007199254740992).
Proof.
  rewrite (proj2 (semanticMatchScore_cases cat_word [cat_dog_bird]))
    by (vm_compute; discriminate).
  cbn [map Math_max_list fold_left]. unfold combined_score.
  rewrite (sim_by_profile cat_word cat_dog_bird 1 3 1 0 2)
    by (vm_compute; first [reflexivity|discriminate]).
  unfold bigramJaccard, jaccard.
  replace (union_size (bigrams cat_word) (bigrams cat_dog_bird)) with 2
    by (vm_compute; reflexivity).
  replace (inter_size (bigrams cat_word) (bigrams cat_dog_bird)) with 0
    by (vm_compute; reflexivity).
  cbn [Nat.eqb or_zero Math_max].
  replace (INR 1) with 1%R by reflexivity.
  replace (INR 3) with 3%R by (simpl; lra).
  replace (INR 0) with 0%R by reflexivity.
  replace (INR 2) with 2%R by (simpl; lra).
  replace (0 / 2)%R with 0%R by lra.
  rewrite sqrt_1, round64_0, round64_1, round64_third, round64_sqrt_3.
  assert (P : round64 (1 * (3900231685776981 / 2251799813685248))
              = (3900231685776981 / 2251799813685248)%R)
    by (round64_value 0%Z 7800463371553962%Z).
  rewrite P.
  assert (Q : round64 (1 / (3900231685776981 / 2251799813685248))
              = (5200308914369309 / 9007199254740992)%R)
    by (round64_value (-1)%Z 5200308914369309%Z).
  rewrite Q. f_equal.
  rewrite (Rmax_right (6004799503160661 / 18014398509481984)) by lra.
  apply Rmax_left. lra.
Qed.

(** Two answers on which the rounding of the cosine decides.

    [new york] against [new jersey]: the cosine
    [1 / (Math.sqrt(2) * Math.sqrt(2))] is 0.4999999999999999, not one
    half, so the answer earns [Math.round(0.4999999999999999)] = 0 points
    of 1.

    [x y z p q] against [x y z r s]: the cosine
    [3 / (Math.sqrt(5) * Math.sqrt(5))] is 0.5999999999999999, which is
    below the threshold 0.6, so the answer is classified incorrect, with 1
    point of 1 as partial credit. *)
Example score_just_below_one_half :
  semanticMatchScore (of_string "new york") [of_string "new jersey"]
  = Fin (4503599627370495 / 9007199254740992)
  /\ handleQuizFinish_written (of_string "new york") [of_string "new jersey"] 1
     = (false, Fin 0).
Proof.
  assert (E : semanticMatchScore (of_string "new york") [of_string "new jersey"]
              = Fin (4503599627370495 / 9007199254740992)).
  { rewrite (proj2 (semanticMatchScore_cases _ _)) by (vm_compute; discriminate).
    cbn [map Math_max_list fold_left]. unfold combined_score.
    rewrite (sim_one_shared_of_two (of_string "new york") (of_string "new jersey"))
      by (vm_compute; reflexivity).
    rewrite jaccard_disjoint
      by (intros w Hw Hw'; vm_compute in Hw, Hw';
          destruct Hw as [<-|[]]; destruct Hw' as [Hw'|[]]; discriminate Hw').
    cbn [or_zero Math_max]. f_equal. apply Rmax_left. lra. }
  split; [exact E|].
  unfold handleQuizFinish_written. rewrite E, threshold_value.
  rewrite num_geb_false by lra.
  cbn [or_zero num_mul Math_round Math_max].
  assert (P : round64 (4503599627370495 / 9007199254740992 * 1)
              = (4503599627370495 / 9007199254740992)%R)
    by (round64_value (-2)%Z 9007199254740990%Z).
  rewrite P.
  rewrite <- (Int_part_spec (4503599627370495 / 9007199254740992 + / 2) 0)
    by (simpl; lra).
  rewrite Rmax_left by (simpl; lra). reflexivity.
Qed.

Example score_just_below_threshold :
  semanticMatchScore (of_string "x y z p q") [of_string "x y z r s"]
  = Fin (2702159776422297 / 4503599627370496)
  /\ handleQuizFinish_written (of_string "x y z p q") [of_string "x y z r s"] 1
     = (false, Fin 1).
Proof.
  assert (E : semanticMatchScore (of_string "x y z p q") [of_string "x y z r s"]
              = Fin (2702159776422297 / 4503599627370496)).
  { rewrite (proj2 (semanticMatchScore_cases _ _)) by (vm_compute; discriminate).
    cbn [map Math_max_list fold_left]. unfold combined_score.
    rewrite (sim_by_profile _ _ 3 7 3 4 4)
      by (vm_compute; first [reflexivity|discriminate]).
    unfold bigramJaccard, jaccard.
    replace (union_size (bigrams (of_string "x y z p q"))
                        (bigrams (of_string "x y z r s"))) with 6
      by (vm_compute; reflexivity).
    replace (inter_size (bigrams (of_string "x y z p q"))
                        (bigrams (of_string "x y z r s"))) with 2
      by (vm_compute; reflexivity).
    cbn [Nat.eqb or_zero Math_max].
    replace (INR 2) with 2%R by (simpl; lra).
    replace (INR 3) with 3%R by (simpl; lra).
    replace (INR 5) with 5%R by (simpl; lra).
    replace (INR 6) with 6%R by (simpl; lra).
    replace (INR 7) with 7%R by (simpl; lra).
    assert (J : (round64 (3 / 7) <= / 2)%R)
      by (rewrite <- round64_half; apply round64_le; lra).
    assert (B : (round64 (2 / 6) <= / 2)%R)
      by (rewrite <- round64_half; apply round64_le; lra).
    assert (S5 : round64 (sqrt 5) = (629397181890197 / 281474976710656)%R).
    { pose proof (sqrt_between (5035177455121575.5 / 2251799813685248)
                               (5035177455121576.5 / 2251799813685248) 5
                    ltac:(lra) ltac:(lra) ltac:(lra)) as Hs.
      round64_value 1%Z 5035177455121576%Z. }
    rewrite S5.
    assert (P : round64 (629397181890197 / 281474976710656
                         * (629397181890197 / 281474976710656))
                = (5629499534213121 / 1125899906842624)%R)
      by (round64_value 2%Z 5629499534213121%Z).
    rewrite P.
    assert (Q : round64 (3 / (5629499534213121 / 1125899906842624))
                = (2702159776422297 / 4503599627370496)%R)
      by (round64_value (-1)%Z 5404319552844594%Z).
    rewrite Q. f_equal.
    rewrite (Rmax_right (round64 (3 / 7))) by lra.
    apply Rmax_left. lra. }
  split; [exact E|].
  apply (full_point_below_threshold _ _ _ E).
  rewrite round64_six_tenths. lra.
Qed.

Lemma X23_incorrect_with_full_point_witness :
  handleQuizFinish_written cat_word [cat_dog_bird] 1 = (false, Fin 1).
Proof.
  apply (X23_incorrect_with_full_point cat_word [cat_dog_bird]
           (5200308914369309 / 9007199254740992)
           score_cat_against_three_words).
  rewrite round64_six_tenths. lra.
Defined.

(* ----------------------------------------------------------------- *)
(** ** Distractor selection: shuffle, picks, number of distractors *)

Lemma nth_update (l : list str) : forall i j v,
  i < length l ->
  nth j (update i v l) [] = if j =? i then v else nth j l [].
Proof.
  induction l as [|a l IH]; intros i j v Hi; simpl in Hi; [lia|].
  destruct i as [|i]; destruct j as [|j]; simpl; try reflexivity.
  apply IH. lia.
Qed.

Lemma count_occ_update (l : list str) : forall i v x,
  i < length l ->
  count_occ str_eq_dec (update i v l) x
  + (if str_eq_dec (nth i l []) x then 1 else 0)
  = count_occ str_eq_dec l x + (if str_eq_dec v x then 1 else 0).
Proof.
  induction l as [|a l IH]; intros i v x Hi; simpl in Hi; [lia|].
  destruct i as [|i]; simpl.
  - destruct (str_eq_dec v x), (str_eq_dec a x); lia.
  - specialize (IH i v x ltac:(lia)).
    destruct (str_eq_dec a x); lia.
Qed.

Lemma swap_Permutation (i j : nat) (arr : list str) :
  i < length arr -> j < length arr -> Permutation (swap i j arr) arr.
Proof.
  intros Hi Hj. apply (Permutation_count_occ str_eq_dec). intros x.
  unfold swap.
  pose proof (count_occ_update arr i (nth j arr []) x Hi) as H1.
  pose proof (count_occ_update (update i (nth j arr []) arr) j (nth i arr []) x
                ltac:(rewrite update_length; exact Hj)) as H2.
  rewrite (nth_update arr i j _ Hi) in H2.
  destruct (j =? i) eqn:E.
  - apply Nat.eqb_eq in E. subst j.
    destruct (str_eq_dec (nth i arr []) x); lia.
  - destruct (str_eq_dec (nth j arr []) x), (str_eq_dec (nth i arr []) x); lia.
Qed.

Lemma shuffle_from_Permutation (i : nat) : forall rnd arr,
  i < length arr -> Permutation (shuffle_from i rnd arr) arr.
Proof.
  induction i as [|i IH]; intros rnd arr Hi; [apply Permutation_refl|].
  cbn [shuffle_from].
  assert (Hj : hd 0 rnd mod (S i + 1) < length arr).
  { pose proof (Nat.mod_upper_bound (hd 0 rnd) (S i + 1)). lia. }
  eapply Permutation_trans.
  - apply IH. rewrite swap_length. lia.
  - apply swap_Permutation; [lia|exact Hj].
Qed.

(** X24: whatever the random draws, [shuffle] returns a rearrangement of
    its array: the same elements, each as many times as before. *)
Theorem X24_shuffle_permutation (rnd : list nat) (arr : list str) :
  Permutation (shuffle rnd arr) arr.
Proof.
  unfold shuffle. destruct arr as [|a arr]; [apply Permutation_refl|].
  apply shuffle_from_Permutation. simpl. lia.
Qed.

Lemma scored_pick (answer : str) (f : str * num -> bool) (cands : list str)
      (p : str) :
  In p (map fst (sort_desc
         (filter f (map (fun p => (p, semanticSimilarity answer p)) cands)))) ->
  In p cands /\ f (p, semanticSimilarity answer p) = true.
Proof.
  intros H. apply in_map_iff in H. destruct H as ([q s] & <- & H).
  apply sort_desc_In, filter_In in H. destruct H as [H Hf].
  apply in_map_iff in H. destruct H as (q' & E & H). inversion E; subst.
  auto.
Qed.

Lemma num_geb_inv (a : num) (y : R) :
  num_geb a (Fin y) = true -> exists x, a = Fin x /\ (y <= x)%R.
Proof.
  destruct a as [|x]; simpl; [discriminate|].
  destruct (Rle_dec y x); [eauto|discriminate].
Qed.

(** X25: the picks of [pickFiltered] are at most three candidates, each
    with a similarity to the answer that is a number inside the band
    [[MIN_SIM, MAX_SIM]] or at least the binary64 product [MIN_SIM * 0.6];
    nothing is picked when [MIN_SIM] is [NaN]. *)
Theorem X25_picks_within_band (answer : str) (m M : R) (MAX : num)
        (cands : list str) :
  length (pickFiltered answer (Fin m) (Fin M) cands) <= 3
  /\ (forall p, In p (pickFiltered answer (Fin m) (Fin M) cands) ->
        In p cands
        /\ exists s, semanticSimilarity answer p = Fin s
                     /\ ((m <= s <= M)%R
                         \/ (round64 (m * round64 (6 / 10)) <= s)%R))
  /\ pickFiltered answer NaN MAX cands = [].
Proof.
  split; [apply pickFiltered_length|]. split.
  - intros p Hp. split; [eapply pickFiltered_In; exact Hp|].
    unfold pickFiltered in Hp. cbv zeta in Hp.
    assert (HA : forall q,
      In q (map fst (sort_desc (filter
              (fun x => num_geb (snd x) (Fin m) && num_leb (snd x) (Fin M))
              (map (fun p => (p, semanticSimilarity answer p)) cands)))) ->
      exists s, semanticSimilarity answer q = Fin s /\ (m <= s <= M)%R).
    { intros q Hq. apply scored_pick in Hq. destruct Hq as [_ Hq].
      simpl in Hq. apply andb_true_iff in Hq. destruct Hq as [H1 H2].
      apply num_geb_inv in H1. destruct H1 as (s & Es & Hs).
      rewrite Es in H2. unfold num_leb in H2. simpl in H2.
      destruct (Rle_dec s M); [|discriminate]. eauto. }
    assert (HB : forall q,
      In q (map fst (sort_desc (filter
              (fun x => num_geb (snd x) (num_mul (Fin m) (literal (6 / 10))))
              (map (fun p => (p, semanticSimilarity answer p)) cands)))) ->
      exists s, semanticSimilarity answer q = Fin s
                /\ (round64 (m * round64 (6 / 10)) <= s)%R).
    { intros q Hq. apply scored_pick in Hq. destruct Hq as [_ Hq].
      unfold literal in Hq. cbn [snd num_mul] in Hq.
      apply num_geb_inv in Hq. exact Hq. }
    match type of Hp with
    | In _ (if ?c then _ else _) => destruct c
    end; apply firstn_In in Hp.
    + destruct (HA p Hp) as (s & Es & Hs). eauto.
    + unfold Set_of in Hp. apply set_from_In in Hp. destruct Hp as [Hp _].
      apply in_app_iff in Hp. destruct Hp as [Hp|Hp].
      * destruct (HA p Hp) as (s & Es & Hs). eauto.
      * destruct (HB p Hp) as (s & Es & Hs). eauto.
  - unfold pickFiltered. cbv zeta.
    assert (E1 : forall l : list (str * num),
               filter (fun x => num_geb (snd x) NaN && num_leb (snd x) MAX) l = []).
    { intros l. apply filter_none. intros [q s] _. simpl.
      destruct s; reflexivity. }
    assert (E2 : forall l : list (str * num),
               filter (fun x => num_geb (snd x) (num_mul NaN (literal (6 / 10)))) l
               = []).
    { intros l. apply filter_none. intros [q s] _. simpl.
      destruct s; reflexivity. }
    rewrite E1, E2. reflexivity.
Qed.

(** With the default band, the retrieved phrase [New Jersey], whose
    similarity to [New York] is 0.4999999999999999, is a pick. *)
Lemma X25_picks_within_band_witness :
  In (of_string "New Jersey") retrieved_phrases
  /\ exists s, semanticSimilarity new_york (of_string "New Jersey") = Fin s
               /\ ((round64 (12 / 100) <= s <= round64 (75 / 100))%R
                   \/ (round64 (round64 (12 / 100) * round64 (6 / 10)) <= s)%R).
Proof.
  apply (proj1 (proj2 (X25_picks_within_band new_york
                          (round64 (12 / 100)) (round64 (75 / 100))
                          NaN retrieved_phrases))).
  pose proof scores_retrieved as HS. rewrite Forall_forall in HS.
  change (Fin (round64 (12 / 100))) with default_MIN_SIM.
  change (Fin (round64 (75 / 100))) with default_MAX_SIM.
  rewrite pickFiltered_default_band.
  - vm_compute. tauto.
  - intros p Hp. apply HS. apply in_app_iff. left. exact Hp.
Defined.

(** A lower bound of one half.  [New Jersey] scores 0.4999999999999999
    against [New York] and is not inside the band; [New York City] scores
    0.8164965809277259 and is above it.  Both pass the relaxed bound
    [0.5 * 0.6], and they are returned by decreasing score. *)
Example picks_with_min_sim_one_half :
  pickFiltered new_york (literal (1 / 2)) default_MAX_SIM
               [of_string "New Jersey"; of_string "New York City"]
  = [of_string "New York City"; of_string "New Jersey"].
Proof.
  assert (S1 : semanticSimilarity new_york (of_string "New Jersey")
               = Fin (4503599627370495 / 9007199254740992))
    by (apply sim_one_shared_of_two; vm_compute; reflexivity).
  assert (S2 : semanticSimilarity new_york (of_string "New York City")
               = Fin (7354347395230781 / 9007199254740992)).
  { rewrite (sim_by_profile _ _ 2 3 2 1 2)
      by (vm_compute; first [reflexivity|discriminate]).
    replace (INR 2) with 2%R by (simpl; lra).
    replace (INR 3) with 3%R by (simpl; lra).
    rewrite round64_sqrt_2, round64_sqrt_3.
    assert (J : (round64 (2 / 3) <= 3 / 4)%R)
      by (rewrite <- round64_three_quarters; apply round64_le; lra).
    assert (P : round64 (6369051672525773 / 4503599627370496
                         * (3900231685776981 / 2251799813685248))
                = (5515760546423087 / 2251799813685248)%R)
      by (round64_value 1%Z 5515760546423087%Z).
    rewrite P.
    assert (Q : round64 (2 / (5515760546423087 / 2251799813685248))
                = (7354347395230781 / 9007199254740992)%R)
      by (round64_value (-1)%Z 7354347395230781%Z).
    rewrite Q. f_equal. apply Rmax_right. lra. }
  unfold pickFiltered, default_MAX_SIM, literal. cbv zeta. cbn [map].
  rewrite S1, S2, round64_three_quarters, round64_six_tenths.
  replace (1 / 2)%R with (/ 2)%R by lra. rewrite round64_half.
  cbn [num_mul].
  assert (P : round64 (/ 2 * (5404319552844595 / 9007199254740992))
              = (5404319552844595 / 18014398509481984)%R)
    by (round64_value (-2)%Z 5404319552844595%Z).
  rewrite P. unfold num_leb. cbn [filter snd].
  rewrite (num_geb_false (4503599627370495 / 9007199254740992) (/ 2)) by lra.
  rewrite (num_geb_false (3 / 4) (7354347395230781 / 9007199254740992)) by lra.
  rewrite andb_false_r. cbn [andb sort_desc fold_right map length Nat.leb app].
  rewrite !num_geb_true by lra.
  cbn [sort_desc fold_right insert_desc snd].
  rewrite (num_geb_false (4503599627370495 / 9007199254740992)
                         (7354347395230781 / 9007199254740992)) by lra.
  reflexivity.
Qed.

(** X26: a question gets between three and five distractors, exactly
    three when no phrases were retrieved; the fallback only adds to the
    retrieved picks, and the padding only adds the filler.  This holds
    for every case mapping. *)
Theorem X26_distractor_count (toLowerCase : str -> str)
        (answer : str) (MIN_SIM MAX_SIM : num)
        (retrieved : option (list str)) (phrases : list str)
        (rnd1 rnd2 : list nat) :
  3 <= length (select_distractors toLowerCase answer MIN_SIM MAX_SIM
                                  retrieved phrases rnd1 rnd2) <= 5
  /\ length (select_distractors toLowerCase answer MIN_SIM MAX_SIM
                                None phrases rnd1 rnd2)
     = 3.
Proof.
  split; [|apply select_distractors_local_exactly_3].
  split; [apply select_distractors_at_least_3|].
  unfold select_distractors. cbv zeta.
  rewrite length_app, repeat_length.
  match goal with
  | |- context [if ?c then ?a ++ ?b else _] =>
      assert (L : length (if c then a ++ b else a) <= 5)
  end.
  { match goal with
    | |- context [if (?n <? 3) then _ else _] => destruct (Nat.ltb_spec n 3)
    end.
    - rewrite length_app.
      match goal with
      | |- context [pickFiltered ?a ?m ?M ?l] =>
          pose proof (pickFiltered_length a m M l)
      end. lia.
    - destruct retrieved; [|simpl; lia].
      match goal with
      | |- context [pickFiltered ?a ?m ?M ?l] =>
          pose proof (pickFiltered_length a m M l)
      end. lia. }
  lia.
Qed.

(** X27: whatever the case mapping of the engine, a distractor is the
    filler phrase or a candidate whose lowercase form differs from the
    lowercase form of the answer. *)
Theorem X27_distractors_differ_from_answer
        (toLowerCase : str -> str)
        (answer : str) (MIN_SIM MAX_SIM : num)
        (retrieved : option (list str)) (phrases : list str)
        (rnd1 rnd2 : list nat) (d : str) :
  In d (select_distractors toLowerCase answer MIN_SIM MAX_SIM
                           retrieved phrases rnd1 rnd2) ->
  d = filler \/ toLowerCase d <> toLowerCase answer.
Proof. apply select_distractors_differ. Qed.

(** The distractors for [New York] from the document phrases alone. *)
Lemma local_distractors_example :
  select_distractors Js.toLowerCase new_york default_MIN_SIM default_MAX_SIM
                     None document_phrases [] []
  = map of_string ["New Orleans"; "New Delhi"; "New Hampshire"]%string.
Proof.
  pose proof scores_retrieved as HS. rewrite Forall_forall in HS.
  unfold select_distractors.
  repeat match goal with
         | |- context [pickFiltered _ _ _ ?l] =>
             lazymatch l with
             | context [shuffle] =>
                 let v := eval vm_compute in l in change l with v
             end
         end.
  rewrite !pickFiltered_default_band
    by (intros p Hp; apply HS; revert Hp; vm_compute; tauto).
  vm_compute. reflexivity.
Qed.

Lemma X27_distractors_differ_from_answer_witness :
  of_string "New Delhi" = filler
  \/ Js.toLowerCase (of_string "New Delhi") <> Js.toLowerCase new_york.
Proof.
  apply (X27_distractors_differ_from_answer Js.toLowerCase new_york
           default_MIN_SIM default_MAX_SIM None document_phrases [] []).
  rewrite local_distractors_example. right. left. reflexivity.
Defined.

(* ----------------------------------------------------------------- *)
(** ** Grading of a multiple-choice answer *)

Lemma str_leb_total (a : str) : forall b,
  str_leb a b = false -> str_leb b a = true.
Proof.
  induction a as [|x a IH]; intros [|y b]; simpl; try discriminate; auto.
  destruct (N.ltb_spec x y); [discriminate|].
  destruct (N.ltb_spec y x); [reflexivity|]. apply IH.
Qed.

Lemma str_leb_antisym (a : str) : forall b,
  str_leb a b = true -> str_leb b a = true -> a = b.
Proof.
  induction a as [|x a IH]; intros [|y b]; simpl; try discriminate; auto.
  destruct (N.ltb_spec x y); destruct (N.ltb_spec y x);
    try discriminate; try lia.
  intros H1 H2. assert (x = y) by lia. subst. f_equal. apply IH; assumption.
Qed.

Lemma str_leb_trans (a : str) : forall b c,
  str_leb a b = true -> str_leb b c = true -> str_leb a c = true.
Proof.
  induction a as [|x a IH]; intros [|y b] [|z c]; simpl; try discriminate; auto.
  destruct (N.ltb_spec x y); destruct (N.ltb_spec y z);
    destruct (N.ltb_spec x z); destruct (N.ltb_spec y x);
    destruct (N.ltb_spec z y); destruct (N.ltb_spec z x);
    try discriminate; try lia; auto.
  apply IH.
Qed.

Lemma insert_sorted_Permutation (x : str) (l : list str) :
  Permutation (insert_sorted x l) (x :: l).
Proof.
  induction l as [|y r IH]; simpl; [apply Permutation_refl|].
  destruct (str_leb x y); [apply Permutation_refl|].
  eapply Permutation_trans; [apply perm_skip, IH|apply perm_swap].
Qed.

Lemma sort_ids_Permutation (l : list str) : Permutation (sort_ids l) l.
Proof.
  induction l as [|x l IH]; simpl; [constructor|].
  eapply Permutation_trans; [apply insert_sorted_Permutation|].
  apply perm_skip, IH.
Qed.

Lemma insert_sorted_comm (x y : str) (l : list str) :
  insert_sorted x (insert_sorted y l) = insert_sorted y (insert_sorted x l).
Proof.
  induction l as [|z r IH].
  - simpl. destruct (str_leb x y) eqn:A; destruct (str_leb y x) eqn:B;
      try reflexivity.
    + rewrite (str_leb_antisym x y A B). reflexivity.
    + apply str_leb_total in A. congruence.
  - destruct (str_leb y z) eqn:Yz; destruct (str_leb x z) eqn:Xz;
      destruct (str_leb x y) eqn:A; destruct (str_leb y x) eqn:B;
      cbn [insert_sorted]; rewrite ?Yz, ?Xz; cbn [insert_sorted];
      rewrite ?A, ?B, ?Yz, ?Xz; cbn [insert_sorted]; rewrite ?Yz, ?Xz;
      try reflexivity;
      try (rewrite (str_leb_antisym x y A B); reflexivity);
      try (apply str_leb_total in A; congruence);
      try (rewrite (str_leb_trans x y z A Yz) in Xz; discriminate);
      try (rewrite (str_leb_trans y x z B Xz) in Yz; discriminate);
      try (f_equal; apply IH).
Qed.

Lemma sort_ids_of_Permutation (l1 l2 : list str) :
  Permutation l1 l2 -> sort_ids l1 = sort_ids l2.
Proof.
  induction 1; simpl.
  - reflexivity.
  - f_equal. assumption.
  - apply insert_sorted_comm.
  - congruence.
Qed.

(** X28: a multiple-choice answer is correct exactly when the selected
    ids are the correct ids in some order, each id as many times as it is
    listed; a missing array counts as empty. *)
Theorem X28_multiple_choice_order_free (selected correct : option (list str)) :
  multiple_isCorrect selected correct = true
  <-> Permutation (or_empty selected) (or_empty correct).
Proof.
  unfold multiple_isCorrect. cbv zeta.
  destruct (list_eq_dec str_eq_dec (sort_ids (or_empty selected))
              (sort_ids (or_empty correct))) as [E|E]; split; intros H.
  - eapply Permutation_trans; [apply Permutation_sym, sort_ids_Permutation|].
    rewrite E. apply sort_ids_Permutation.
  - reflexivity.
  - discriminate H.
  - exfalso. apply E. apply sort_ids_of_Permutation, H.
Qed.

Lemma X28_multiple_choice_order_free_witness :
  multiple_isCorrect (Some [of_string "b"; of_string "a"])
                     (Some [of_string "a"; of_string "b"]) = true.
Proof.
  apply (proj2 (X28_multiple_choice_order_free
                  (Some [of_string "b"; of_string "a"])
                  (Some [of_string "a"; of_string "b"]))).
  apply perm_swap.
Defined.

(* ----------------------------------------------------------------- *)
(** ** Grading depends on the normalized response only *)

Lemma score_without_words (response : str) (expected : list str) :
  words response = [] -> semanticMatchScore response expected = Fin 0.
Proof.
  intros Hw.
  destruct (semanticMatchScore_cases response expected) as [H0 H1].
  destruct (trim response) as [|c r] eqn:Et; [apply H0; auto|].
  destruct expected as [|e es]; [apply H0; auto|].
  assert (D : forall e', combined_score response e' = Fin 0).
  { intros e'. apply combined_score_disjoint. intros w Hin.
    rewrite Hw in Hin. contradiction. }
  rewrite H1 by discriminate. cbn [map Math_max_list]. rewrite D.
  apply fold_Math_max_zero. intros y Hy. apply in_map_iff in Hy.
  destruct Hy as (e' & <- & _). apply D.
Qed.

(** X29: two responses with the same normalized text (the same words
    once case, punctuation and spacing are set aside) receive the same
    score against every list of expected answers. *)
Theorem X29_score_depends_on_normalized_text
        (r1 r2 : str) (expected : list str) :
  normalizeText r1 = normalizeText r2 ->
  semanticMatchScore r1 expected = semanticMatchScore r2 expected.
Proof.
  intros E.
  assert (W : words r1 = words r2) by (unfold words; rewrite E; reflexivity).
  destruct (words r1) as [|w ws] eqn:W1.
  { rewrite (score_without_words r1 expected W1).
    rewrite (score_without_words r2 expected (eq_sym W)). reflexivity. }
  assert (T1 : trim r1 <> []).
  { intros B. apply words_of_blank in B. congruence. }
  assert (T2 : trim r2 <> []).
  { intros B. apply words_of_blank in B. congruence. }
  destruct expected as [|e es].
  { rewrite !(proj1 (semanticMatchScore_cases _ [])) by auto. reflexivity. }
  rewrite !(proj2 (semanticMatchScore_cases _ (e :: es))); try discriminate;
    try assumption.
  f_equal. apply map_ext. intros e'.
  unfold combined_score, semanticSimilarity, bigrams, tokens.
  rewrite W1, <- W. reflexivity.
Qed.

Lemma X29_score_depends_on_normalized_text_witness :
  semanticMatchScore (of_string " It's ATP! ") [demo_sentence2]
  = semanticMatchScore (of_string "it s atp") [demo_sentence2].
Proof.
  apply X29_score_depends_on_normalized_text. vm_compute. reflexivity.
Defined.

(** X9 at the example text: there is a sentence, so there is a chunk. *)
Lemma X9_chunk_count_witness :
  exists chunks,
    chunkIntoSemanticChunks demo_text 48 10 = Some chunks /\ chunks <> [].
Proof.
  destruct (X9_chunk_count demo_text 48 10) as (chunks & H1 & _ & H3).
  exists chunks. split; [exact H1|]. intros E. apply H3 in E.
  vm_compute in E. discriminate E.
Defined.
